(** * Gap-investment crawler: a shallow embedding of realEstate.py

    The development follows the source file top to bottom: Python text
    ([str] as a list of Unicode code points), the fragment of [re] the
    crawler uses, IEEE binary64 rounding for the two float computations,
    the currency parser [parse_kr_money_to_won], the response handler
    [handle_response] with its session buffers, the detail extractor
    [scrape_article_detail], the per-listing task [fetch_one], the sample
    grid of [grid_sweep], the page pool that schedules the tasks, the
    start position ([clamp_korea]), the order of the detail phase and the
    map navigator ([get_ms], [wheel_to_zoom], [drag_to_latlon],
    [human_like_recenter], [switch_to_listing_markers]), the scenarios
    of [_build_scenarios] and the markers phase 2 visits.

    Both variants of the repository (realEstate.py, real_estate_eng.py)
    share the code embedded here; line numbers refer to realEstate.py. *)

From Stdlib Require Import ZArith NArith QArith Qabs Lia Ascii Sorted.
From stdpp Require Import base option list strings gmap.

Local Open Scope Z_scope.

(** ** Python text *)

Module PyStr.

(** A Python [str] is a sequence of Unicode code points. *)
Definition char := N.
Definition pystr := list char.

(** Literals are written as UTF-8 text and decoded to code points. *)
Fixpoint utf8_decode (bs : list N) : pystr :=
  match bs with
  | [] => []
  | b0 :: r0 =>
    if (b0 <? 128)%N then b0 :: utf8_decode r0
    else if (b0 <? 224)%N then
      match r0 with
      | b1 :: r1 => ((b0 - 192) * 64 + (b1 - 128))%N :: utf8_decode r1
      | _ => []
      end
    else if (b0 <? 240)%N then
      match r0 with
      | b1 :: b2 :: r2 =>
        ((b0 - 224) * 4096 + (b1 - 128) * 64 + (b2 - 128))%N :: utf8_decode r2
      | _ => []
      end
    else
      match r0 with
      | b1 :: b2 :: b3 :: r3 =>
        ((b0 - 240) * 262144 + (b1 - 128) * 4096 + (b2 - 128) * 64 + (b3 - 128))%N
          :: utf8_decode r3
      | _ => []
      end
  end.

Definition u (s : string) : pystr :=
  utf8_decode (map N_of_ascii (String.list_ascii_of_string s)).

(** The one-character literals of the source. *)
Definition c_space : char := 32%N.
Definition c_comma : char := 44%N.
Definition c_dot : char := 46%N.
Definition c_newline : char := 10%N.
Definition c_eok : char := 50613%N.   (* 억 *)
Definition c_man : char := 47564%N.   (* 만 *)
Definition c_cheon : char := 52380%N. (* 천 *)
Definition c_won : char := 50896%N.   (* 원 *)

(** [str.isspace]: the code points [str.strip] removes and [\s] matches. *)
Definition py_isspace (c : char) : bool :=
  ((9 <=? c) && (c <=? 13) || (28 <=? c) && (c <=? 32)
   || (c =? 133) || (c =? 160) || (c =? 5760)
   || (8192 <=? c) && (c <=? 8202)
   || (c =? 8232) || (c =? 8233) || (c =? 8239) || (c =? 8287) || (c =? 12288))%N.

(** The zero digit of every block of ten decimal digits (category Nd,
    Unicode 14.0): what [\d] matches and [int], [float] accept. *)
Definition decimal_zeros : list N :=
  [48; 1632; 1776; 1984; 2406; 2534; 2662; 2790; 2918; 3046; 3174; 3302;
   3430; 3558; 3664; 3792; 3872; 4160; 4240; 6112; 6160; 6470; 6608; 6784;
   6800; 6992; 7088; 7232; 7248; 42528; 43216; 43264; 43472; 43504; 43600;
   44016; 65296; 66720; 68912; 69734; 69872; 69942; 70096; 70384; 70736;
   70864; 71248; 71360; 71472; 71904; 72016; 72784; 73040; 73120; 92768;
   92864; 93008; 120782; 120792; 120802; 120812; 120822; 123200; 123632;
   125264; 130032]%N.

(** The decimal value of a digit, [None] for any other code point. *)
Definition py_decimal (c : char) : option Z :=
  match List.find (fun z => (z <=? c) && (c <? z + 10))%N decimal_zeros with
  | Some z => Some (Z.of_N (c - z))
  | None => None
  end.

Definition py_isdigit (c : char) : bool :=
  match py_decimal c with Some _ => true | None => false end.

(** [int(s)] for a string of decimal digits (other characters count 0:
    the callers pass what [\d+] matched). Python integers are unbounded;
    the interpreter's optional cap on the length of such a string is not
    part of the model. *)
Definition py_int (s : pystr) : Z :=
  fold_left (fun acc c => 10 * acc + default 0 (py_decimal c)) s 0.

(** [s.strip()] *)
Fixpoint lstrip (s : pystr) : pystr :=
  match s with
  | c :: s' => if py_isspace c then lstrip s' else s
  | [] => []
  end.
Definition rstrip (s : pystr) : pystr := rev (lstrip (rev s)).
Definition strip (s : pystr) : pystr := rstrip (lstrip s).

(** [s.replace(c, "")] for a one-character [c]. *)
Definition remove_char (c : char) (s : pystr) : pystr :=
  List.filter (fun x => negb (x =? c)%N) s.

Fixpoint starts_with (p s : pystr) : bool :=
  match p, s with
  | [], _ => true
  | x :: p', y :: s' => (x =? y)%N && starts_with p' s'
  | _ :: _, [] => false
  end.

(** [p in s] for two strings. *)
Fixpoint contains (p s : pystr) : bool :=
  starts_with p s || match s with [] => false | _ :: s' => contains p s' end.

(** [str.upper] on the letters a-z. No code point outside ASCII has an
    upper case made of the letters the source compares against ("VL",
    "A1"), so those comparisons see what Python's full mapping gives. *)
Definition upper_char (c : char) : char :=
  if ((97 <=? c) && (c <=? 122))%N then (c - 32)%N else c.
Definition upper (s : pystr) : pystr := map upper_char s.

(** [str.splitlines]: the line boundaries of Python, "\r\n" counting once;
    [cur] is the current line, reversed. *)
Definition is_linebreak (c : char) : bool :=
  ((10 <=? c) && (c <=? 13) || (28 <=? c) && (c <=? 30)
   || (c =? 133) || (c =? 8232) || (c =? 8233))%N.

Fixpoint splitlines_aux (s : pystr) (cur : pystr) : list pystr :=
  match s with
  | [] => match cur with [] => [] | _ => [rev cur] end
  | c :: s' =>
    if is_linebreak c then
      rev cur ::
        match s' with
        | c' :: s'' =>
          if ((c =? 13) && (c' =? 10))%N then splitlines_aux s'' []
          else splitlines_aux s' []
        | [] => []
        end
    else splitlines_aux s' (c :: cur)
  end.

Definition splitlines (s : pystr) : list pystr := splitlines_aux s [].

End PyStr.
Export PyStr.

(** ** The fragment of Python's [re] that the crawler uses *)

Module Re.

(** Patterns. [Grp i r] is the capturing group numbered [i]. *)
Inductive regex :=
| Eps
| Chr (c : char)
| Cls (p : char -> bool)
| Cat (r1 r2 : regex)
| Alt (r1 r2 : regex)
| Star (r : regex)
| Rep (lo hi : nat) (r : regex)
| Grp (i : nat) (r : regex)
| Bol
| Eol.

Definition Plus (r : regex) : regex := Cat r (Star r).
Definition Opt (r : regex) : regex := Alt r Eps.

(** A literal string. *)
Fixpoint Lit (s : pystr) : regex :=
  match s with
  | [] => Eps
  | c :: s' => Cat (Chr c) (Lit s')
  end.

Definition digit : regex := Cls py_isdigit.   (* \d *)
Definition space : regex := Cls py_isspace.   (* \s *)

Definition captures := list (nat * pystr).

Definition group (caps : captures) (i : nat) : pystr :=
  match List.find (fun p => Nat.eqb (fst p) i) caps with
  | Some p => snd p
  | None => []
  end.

(** The backtracking matcher, in continuation-passing style: [k] receives
    what is left of the input, the position reached and the captures, and
    answers [None] to ask for the next alternative. Quantifiers are greedy
    and alternatives are tried left to right, as in [re]. *)
Fixpoint rmatch {R : Type} (r : regex) (s : pystr) (pos : nat) (caps : captures)
    (k : pystr -> nat -> captures -> option R) {struct r} : option R :=
  match r with
  | Eps => k s pos caps
  | Chr c =>
    match s with
    | x :: s' => if (x =? c)%N then k s' (S pos) caps else None
    | [] => None
    end
  | Cls p =>
    match s with
    | x :: s' => if p x then k s' (S pos) caps else None
    | [] => None
    end
  | Cat r1 r2 =>
    rmatch r1 s pos caps (fun s' pos' caps' => rmatch r2 s' pos' caps' k)
  | Alt r1 r2 =>
    match rmatch r1 s pos caps k with
    | Some x => Some x
    | None => rmatch r2 s pos caps k
    end
  | Star r0 =>
    (fix loop (fuel : nat) (s : pystr) (pos : nat) (caps : captures) : option R :=
       match fuel with
       | O => k s pos caps
       | S fuel' =>
         match rmatch r0 s pos caps
                 (fun s' pos' caps' =>
                    if Nat.ltb pos pos' then loop fuel' s' pos' caps' else None) with
         | Some x => Some x
         | None => k s pos caps
         end
       end) (length s) s pos caps
  | Rep lo hi r0 =>
    (fix rep (hi lo : nat) (s : pystr) (pos : nat) (caps : captures)
         {struct hi} : option R :=
       match hi with
       | O => match lo with O => k s pos caps | S _ => None end
       | S hi' =>
         match lo with
         | S lo' =>
           rmatch r0 s pos caps (fun s' pos' caps' => rep hi' lo' s' pos' caps')
         | O =>
           match rmatch r0 s pos caps
                   (fun s' pos' caps' => rep hi' O s' pos' caps') with
           | Some x => Some x
           | None => k s pos caps
           end
         end
       end) hi lo s pos caps
  | Grp i r0 =>
    rmatch r0 s pos caps
      (fun s' pos' caps' => k s' pos' ((i, take (pos' - pos) s) :: caps'))
  | Bol => if Nat.eqb pos 0 then k s pos caps else None
  | Eol =>
    match s with
    | [] => k s pos caps
    | [c] => if (c =? c_newline)%N then k s pos caps else None
    | _ => None
    end
  end.

(** A match: where it starts, where it ends, and its groups. *)
Record rmatched := { m_start : nat; m_end : nat; m_caps : captures }.

Definition match_at (r : regex) (s : pystr) (pos : nat) : option rmatched :=
  rmatch r s pos []
    (fun _ pos' caps => Some {| m_start := pos; m_end := pos'; m_caps := caps |}).

(** [re.search(r, s)]: the leftmost match; [s] is the input from [pos] on. *)
Fixpoint search_from (r : regex) (s : pystr) (pos : nat) : option rmatched :=
  match match_at r s pos with
  | Some m => Some m
  | None =>
    match s with
    | [] => None
    | _ :: s' => search_from r s' (S pos)
    end
  end.

Definition search (r : regex) (s : pystr) : option rmatched := search_from r s 0.

(** [re.fullmatch(r, s)] *)
Definition fullmatch (r : regex) (s : pystr) : option captures :=
  rmatch r s 0 []
    (fun s' _ caps => match s' with [] => Some caps | _ :: _ => None end).

(** [re.sub(r, "", s)]: every match is deleted, scanning left to right. *)
Fixpoint sub_del_from (fuel : nat) (r : regex) (s : pystr) (pos : nat) : pystr :=
  match fuel with
  | O => s
  | S fuel' =>
    match match_at r s pos with
    | Some m =>
      if Nat.ltb pos (m_end m)
      then sub_del_from fuel' r (drop (m_end m - pos) s) (m_end m)
      else match s with
           | [] => []
           | c :: s' => c :: sub_del_from fuel' r s' (S pos)
           end
    | None =>
      match s with
      | [] => []
      | c :: s' => c :: sub_del_from fuel' r s' (S pos)
      end
    end
  end.

Definition sub_del (r : regex) (s : pystr) : pystr :=
  sub_del_from (S (length s)) r s 0.

(** [re.findall(r, s)] for a pattern with the single group 1. *)
Fixpoint findall_from (fuel : nat) (r : regex) (s : pystr) (pos : nat) : list pystr :=
  match fuel with
  | O => []
  | S fuel' =>
    match search_from r s pos with
    | None => []
    | Some m =>
      group (m_caps m) 1 ::
        findall_from fuel' r
          (drop (Nat.max (m_end m) (S (m_start m)) - pos) s)
          (Nat.max (m_end m) (S (m_start m)))
    end
  end.

Definition findall (r : regex) (s : pystr) : list pystr :=
  findall_from (S (length s)) r s 0.

End Re.
Export Re.

(** ** Exceptions *)

Module Exc.

(** The exceptions the embedded code can meet. *)
Inductive exn :=
| AttributeError   (* a method of an object that has none: [.get], [.upper] *)
| TypeError        (* an operation on a value of the wrong type *)
| OverflowError    (* [int(inf)], an integer quotient too large for a float *)
| JSONDecodeError  (* [response.json()] on a body that is no JSON *)
| PlaywrightError. (* a browser operation failed or timed out *)

(** A call either returns or raises. *)
Inductive outcome (A : Type) :=
| Ok (a : A)
| Raise (e : exn).
Arguments Ok {A} a.
Arguments Raise {A} e.

Definition is_ok {A} (o : outcome A) : bool :=
  match o with Ok _ => true | Raise _ => false end.

End Exc.
Export Exc.

(** ** Python floats *)

Module Float64.

(** A float by its exact value: the finite [Fin m e] is [m * 2^e], and
    [Inf] is an infinity. Zero carries no sign (the code never looks at
    it) and there is no NaN (no operation used here produces one). *)
Inductive float :=
| Fin (m e : Z)
| Inf (neg : bool).

(** The integer nearest to [p / q], ties to even ([0 <= p], [0 < q]). *)
Definition round_half_even (p q : Z) : Z :=
  let f := p / q in
  let r := p mod q in
  if 2 * r <? q then f
  else if q <? 2 * r then f + 1
  else if Z.even f then f else f + 1.

(** The binary64 number nearest to [p / q], for [0 <= p] and [0 < q]:
    53 bits of mantissa, exponents down to -1074 (subnormals), overflow
    to infinity from [2^1024] on. *)
Definition round_pos (p q : Z) : float :=
  if p =? 0 then Fin 0 0
  else
    let e0 := Z.log2 p - Z.log2 q in
    let below :=
      if 0 <=? e0 then p <? q * 2 ^ e0 else p * 2 ^ (- e0) <? q in
    let e1 := if below then e0 - 1 else e0 in
    let e := Z.max (e1 - 52) (-1074) in
    let m :=
      if 0 <=? e then round_half_even p (q * 2 ^ e)
      else round_half_even (p * 2 ^ (- e)) q in
    if (0 <=? e) && (2 ^ 1024 <=? m * 2 ^ e) then Inf false else Fin m e.

Definition fneg (f : float) : float :=
  match f with
  | Fin m e => Fin (- m) e
  | Inf b => Inf (negb b)
  end.

(** Rounding of any quotient with [0 < q]. *)
Definition round_q (p q : Z) : float :=
  if p <? 0 then fneg (round_pos (- p) q) else round_pos p q.

(** The exact value of a finite float as a fraction. *)
Definition to_Q (m e : Z) : Q :=
  if 0 <=? e then inject_Z (m * 2 ^ e)
  else Qmake m (Z.to_pos (2 ^ (- e))).

(** [f * n] for a float [f] and an [int] [n] that a float holds exactly. *)
Definition fmul_int (f : float) (n : Z) : float :=
  match f with
  | Fin m e =>
    if 0 <=? e then round_q (m * n * 2 ^ e) 1
    else round_q (m * n) (2 ^ (- e))
  | Inf b => if n <? 0 then Inf (negb b) else Inf b
  end.

(** [int(f)]: truncation towards zero; [OverflowError] on an infinity. *)
Definition py_int_of_float (f : float) : outcome Z :=
  match f with
  | Fin m e => Ok (if 0 <=? e then m * 2 ^ e else Z.quot m (2 ^ (- e)))
  | Inf _ => Raise OverflowError
  end.

(** [a / b] for two [int]s with [b <> 0]: the quotient rounded once to
    the nearest float; [OverflowError] when it is out of range. *)
Definition py_truediv (a b : Z) : outcome float :=
  match (if b <? 0 then round_q (- a) (- b) else round_q a b) with
  | Fin m e => Ok (Fin m e)
  | Inf _ => Raise OverflowError
  end.

(** [float(s)] for [s] of the shape [\d+] or [\d+\.\d+]: the digits
    before and after the point, rounded once. *)
Fixpoint split_dot (s : pystr) : pystr * pystr :=
  match s with
  | [] => ([], [])
  | c :: s' =>
    if (c =? c_dot)%N then ([], s')
    else let '(a, b) := split_dot s' in (c :: a, b)
  end.

Definition py_float (s : pystr) : float :=
  let '(ip, fp) := split_dot s in
  round_pos (py_int (ip ++ fp)) (10 ^ Z.of_nat (length fp)).

End Float64.
Export Float64.

(** ** CurrencyParser: [parse_kr_money_to_won] (lines 272-332) *)

Declare Scope re_scope.
Delimit Scope re_scope with re.
Infix "·" := Cat (at level 40, left associativity) : re_scope.

Module Patterns.
Local Open Scope re_scope.

(** [(\d+(?:\.\d+)?)억] *)
Definition re_eok : regex :=
  Grp 1 (Plus digit · Opt (Chr c_dot · Plus digit)) · Chr c_eok.
(** [억(\d+)만] *)
Definition re_eok_man : regex := Chr c_eok · Grp 1 (Plus digit) · Chr c_man.
(** [억(\d+)$] *)
Definition re_eok_bare : regex := Chr c_eok · Grp 1 (Plus digit) · Eol.
(** [억(\d+)천] *)
Definition re_eok_cheon : regex := Chr c_eok · Grp 1 (Plus digit) · Chr c_cheon.
(** [(\d+)만] *)
Definition re_man : regex := Grp 1 (Plus digit) · Chr c_man.
(** [(\d+)천만?] *)
Definition re_cheon : regex := Grp 1 (Plus digit) · Chr c_cheon · Opt (Chr c_man).
(** [\d+] *)
Definition re_digits : regex := Plus digit.

End Patterns.
Export Patterns.

(** The amount after 억: 억N만, else a trailing 억N, else 억N천 (lines 305-315). *)
Definition man_after_eok (t : pystr) : Z :=
  match search re_eok_man t with
  | Some m2 => py_int (group (m_caps m2) 1)
  | None =>
    match search re_eok_bare t with
    | Some m2 => py_int (group (m_caps m2) 1)
    | None =>
      match search re_eok_cheon t with
      | Some m2 => py_int (group (m_caps m2) 1) * 1000
      | None => 0
      end
    end
  end.

(** The amount when there is no 억: N만, else N천 or N천만 (lines 319-325). *)
Definition man_without_eok (t : pystr) : Z :=
  match search re_man t with
  | Some m => py_int (group (m_caps m) 1)
  | None =>
    match search re_cheon t with
    | Some m => py_int (group (m_caps m) 1) * 1000
    | None => 0
    end
  end.

(** [total += int(float(m.group(1)) * 100_000_000)] under [try]/[except:
    pass]: an infinite product leaves [total] at 0. *)
Definition eok_total (g : pystr) : Z :=
  match py_int_of_float (fmul_int (py_float g) 100000000) with
  | Ok v => v
  | Raise _ => 0
  end.

Definition parse_kr_money_to_won (s : pystr) : option Z :=
  match s with
  | [] => None
  | _ :: _ =>
    let t := remove_char c_comma (remove_char c_space (strip s)) in
    let has_won := contains [c_won] t in
    let t := remove_char c_won t in
    let '(total, man) :=
      match search re_eok t with
      | Some m => (eok_total (group (m_caps m) 1), man_after_eok t)
      | None => (0, man_without_eok t)
      end in
    if (total =? 0) && (man =? 0) && bool_decide (is_Some (fullmatch re_digits t))
    then Some (if has_won then py_int t else py_int t * 10000)
    else Some (total + man * 10000)
  end.

(** ** State and exceptions: the monad of the effectful code *)

Module StateExc.

(** A computation over a mutable state [S]: it returns or raises, and
    what it wrote before raising stays written. *)
Definition M (S A : Type) : Type := S -> outcome A * S.

Definition ret {S A} (a : A) : M S A := fun s => (Ok a, s).

Definition bind {S A B} (m : M S A) (k : A -> M S B) : M S B :=
  fun s =>
    match m s with
    | (Ok a, s') => k a s'
    | (Raise e, s') => (Raise e, s')
    end.

(** A pure step that may raise. *)
Definition lift {S A} (o : outcome A) : M S A := fun s => (o, s).

Definition modify {S} (f : S -> S) : M S unit := fun s => (Ok tt, f s).

Definition gets {S A} (f : S -> A) : M S A := fun s => (Ok (f s), s).

(** [try: m  except: pass] *)
Definition try_pass {S} (m : M S unit) : M S unit :=
  fun s => (Ok tt, snd (m s)).

(** [try: x = m  except: x = d] *)
Definition try_default {S A} (m : M S A) (d : A) : M S A :=
  fun s =>
    match m s with
    | (Ok a, s') => (Ok a, s')
    | (Raise _, s') => (Ok d, s')
    end.

(** [for x in l: body(x)]; a [continue] is a body that returns early. *)
Fixpoint for_each {S A} (l : list A) (body : A -> M S unit) : M S unit :=
  match l with
  | [] => ret tt
  | x :: l' => bind (body x) (fun _ => for_each l' body)
  end.

(** The state a computation leaves. *)
Definition exec {S A} (m : M S A) (s : S) : S := snd (m s).

(** Pure code that may raise. *)
Definition obind {A B} (o : outcome A) (k : A -> outcome B) : outcome B :=
  match o with
  | Ok a => k a
  | Raise e => Raise e
  end.

End StateExc.
Export StateExc.

Declare Scope py_scope.
Delimit Scope py_scope with py.
Notation "x <~ m ; k" := (bind m (fun x => k))
  (at level 200, m at level 100, k at level 200, right associativity,
   format "'[v' x  <~  m ; '/' k ']'") : py_scope.
Notation "m ;~ k" := (bind m (fun _ => k))
  (at level 200, k at level 200, right associativity,
   format "'[v' m ;~ '/' k ']'") : py_scope.
Notation "x <! o ; k" := (obind o (fun x => k))
  (at level 200, o at level 100, k at level 200, right associativity,
   format "'[v' x  <!  o ; '/' k ']'") : py_scope.

(** ** JSON payloads as Python objects *)

Module Json.

(** What [json.loads] builds: [None], [bool], [int], [float], [str],
    [list] and [dict] (in insertion order). *)
#[warnings="-register-all"]
Inductive json :=
| JNull
| JBool (b : bool)
| JInt (z : Z)
| JFloat (f : float)
| JStr (s : pystr)
| JList (l : list json)
| JDict (d : list (pystr * json)).

(** Truth value of an object, as [if], [or] and [not] take it. *)
Definition truthy (v : json) : bool :=
  match v with
  | JNull => false
  | JBool b => b
  | JInt z => negb (z =? 0)
  | JFloat (Fin m _) => negb (m =? 0)
  | JFloat (Inf _) => true
  | JStr s => match s with [] => false | _ => true end
  | JList l => match l with [] => false | _ => true end
  | JDict d => match d with [] => false | _ => true end
  end.

(** [a or b] *)
Definition py_or (a b : json) : json := if truthy a then a else b.

Fixpoint assoc (k : pystr) (d : list (pystr * json)) : option json :=
  match d with
  | [] => None
  | (k', v) :: d' => if decide (k' = k) then Some v else assoc k d'
  end.

(** [obj.get(k, dflt)]: only a [dict] has the method. *)
Definition get_default (obj : json) (k : pystr) (dflt : json) : outcome json :=
  match obj with
  | JDict d => Ok (default dflt (assoc k d))
  | _ => Raise AttributeError
  end.

(** [obj.get(k)] *)
Definition get (obj : json) (k : pystr) : outcome json := get_default obj k JNull.

(** [obj.get(k1) or obj.get(k2) or ... or dflt] *)
Fixpoint get_or (obj : json) (ks : list pystr) (dflt : json) : outcome json :=
  match ks with
  | [] => Ok dflt
  | k :: ks' =>
    v <! get obj k;
    if truthy v then Ok v else get_or obj ks' dflt
  end%py.

(** [v.upper()] and [v.strip()]: methods of [str] alone. *)
Definition str_upper (v : json) : outcome pystr :=
  match v with JStr s => Ok (upper s) | _ => Raise AttributeError end.
Definition str_strip (v : json) : outcome pystr :=
  match v with JStr s => Ok (strip s) | _ => Raise AttributeError end.

(** [isinstance(v, int)] with the integer it stands for ([bool] is a
    subclass of [int]: [True] is 1). *)
Definition as_int (v : json) : option Z :=
  match v with
  | JInt z => Some z
  | JBool b => Some (if b then 1 else 0)
  | _ => None
  end.

(** [k in v] for a string [k]: substring of a [str], element of a [list],
    key of a [dict]; the other objects are no containers. *)
Definition str_in (k : pystr) (v : json) : outcome bool :=
  match v with
  | JStr s => Ok (contains k s)
  | JList l =>
    Ok (existsb (fun x => match x with JStr s => bool_decide (s = k) | _ => false end) l)
  | JDict d => Ok (bool_decide (is_Some (assoc k d)))
  | _ => Raise TypeError
  end.

(** [any(k in v for k in ks)] *)
Fixpoint any_in (ks : list pystr) (v : json) : outcome bool :=
  match ks with
  | [] => Ok false
  | k :: ks' =>
    b <! str_in k v;
    if b then Ok true else any_in ks' v
  end%py.

(** [for x in v]: the elements of a [list], the keys of a [dict], the
    characters of a [str]. *)
Definition py_iter (v : json) : outcome (list json) :=
  match v with
  | JList l => Ok l
  | JDict d => Ok (map (fun p => JStr (fst p)) d)
  | JStr s => Ok (map (fun c => JStr [c]) s)
  | _ => Raise TypeError
  end.

(** [v > n] for an [int] [n]: numbers compare by exact value, anything
    else against an [int] is a [TypeError]. *)
Definition py_gt_int (v : json) (n : Z) : outcome bool :=
  match v with
  | JInt z => Ok (n <? z)
  | JBool b => Ok (n <? (if b then 1 else 0))
  | JFloat (Fin m e) =>
    Ok (if 0 <=? e then n <? m * 2 ^ e else n * 2 ^ (- e) <? m)
  | JFloat (Inf neg) => Ok (negb neg)
  | _ => Raise TypeError
  end.

(** [int(v)] for a number. *)
Definition py_int_of (v : json) : outcome Z :=
  match v with
  | JInt z => Ok z
  | JBool b => Ok (if b then 1 else 0)
  | JFloat f => py_int_of_float f
  | _ => Raise TypeError
  end.

(** *** Hashable objects

    Members of a [set] compare with [==]: [True], [1] and [1.0] are one
    key. A key is the canonical form of a scalar; a [list] or a [dict] is
    unhashable. *)
Inductive num :=
| NInt (z : Z)
| NFrac (m : Z) (k : positive)   (* m / 2^k with m odd *)
| NInf (neg : bool).

Inductive pykey :=
| KNone
| KNum (n : num)
| KStr (s : pystr).

(** Number of trailing zero bits. *)
Fixpoint trailing_zeros (p : positive) : nat :=
  match p with
  | xO p' => S (trailing_zeros p')
  | _ => O
  end.

Definition num_of_float (f : float) : num :=
  match f with
  | Inf neg => NInf neg
  | Fin m e =>
    if m =? 0 then NInt 0
    else if 0 <=? e then NInt (m * 2 ^ e)
    else
      let tz := Z.of_nat (trailing_zeros (Z.to_pos (Z.abs m))) in
      let k := Z.min tz (- e) in
      if k =? - e then NInt (m / 2 ^ k)
      else NFrac (m / 2 ^ k) (Z.to_pos (- e - k))
  end.

(** [hash(v)]: the key of a scalar, [TypeError] for the unhashable. *)
Definition key_of (v : json) : outcome pykey :=
  match v with
  | JNull => Ok KNone
  | JBool b => Ok (KNum (NInt (if b then 1 else 0)))
  | JInt z => Ok (KNum (NInt z))
  | JFloat f => Ok (KNum (num_of_float f))
  | JStr s => Ok (KStr s)
  | JList _ | JDict _ => Raise TypeError
  end.

#[global] Instance num_eq_dec : EqDecision num.
Proof. solve_decision. Defined.
#[global] Instance pykey_eq_dec : EqDecision pykey.
Proof. solve_decision. Defined.

#[global] Instance num_countable : Countable num.
Proof.
  refine (inj_countable'
    (fun n => match n with
              | NInt z => inl z
              | NFrac m k => inr (inl (m, k))
              | NInf b => inr (inr b)
              end)
    (fun s => match s with
              | inl z => NInt z
              | inr (inl (m, k)) => NFrac m k
              | inr (inr b) => NInf b
              end) _).
  intros []; reflexivity.
Defined.

#[global] Instance pykey_countable : Countable pykey.
Proof.
  refine (inj_countable'
    (fun k => match k with
              | KNone => inl ()
              | KNum n => inr (inl n)
              | KStr s => inr (inr s)
              end)
    (fun s => match s with
              | inl _ => KNone
              | inr (inl n) => KNum n
              | inr (inr s) => KStr s
              end) _).
  intros []; reflexivity.
Defined.

End Json.
Export Json.

(** ** ResponseIngestor: [handle_response] (lines 528-671) *)

(** Python's builtin [str] on an object that is no [str] (the printed
    form of a number, a list, ...) is the interpreter's and stays a
    parameter of the model. *)
Class PyBuiltins := { py_repr : json -> pystr }.

(** [str(v)] *)
Definition py_str `{Builtins : PyBuiltins} (v : json) : pystr :=
  match v with
  | JStr s => s
  | _ => py_repr v
  end.

Module Session.

(** An entry of [complex_meta]: [{"name": ..., "count": ...}]. A count
    is an [int]; [True] stored as a count is kept as 1. *)
Record meta := { meta_name : json; meta_count : Z }.

Definition trade_key : Type := pykey * pykey * pykey * pykey.

(** The accumulation lists and their seen-sets (lines 524-525). *)
Record buffers := {
  complex_list : list json;
  article_list : list json;
  trade_history : list json;
  seen_complex : gset pystr;
  seen_article : gset pykey;
  seen_trade : gset trade_key
}.

(** The state [handle_response] closes over: the buffers, the capture
    flag [flags["capture"]] and the module-level [complex_meta]. *)
Record session := {
  bufs : buffers;
  capture : bool;
  complex_meta : gmap pystr meta
}.

Definition empty_buffers : buffers :=
  {| complex_list := []; article_list := []; trade_history := [];
     seen_complex := ∅; seen_article := ∅; seen_trade := ∅ |}.

Definition on_bufs (f : buffers -> buffers) (st : session) : session :=
  {| bufs := f (bufs st); capture := capture st; complex_meta := complex_meta st |}.

Definition on_meta (f : gmap pystr meta -> gmap pystr meta) (st : session) : session :=
  {| bufs := bufs st; capture := capture st; complex_meta := f (complex_meta st) |}.

(** [if cno not in seen_complex: seen_complex.add(cno); complex_list.append(it)] *)
Definition ins_complex (cno : pystr) (it : json) (b : buffers) : buffers :=
  if decide (cno ∈ seen_complex b) then b
  else {| complex_list := complex_list b ++ [it];
          article_list := article_list b;
          trade_history := trade_history b;
          seen_complex := {[cno]} ∪ seen_complex b;
          seen_article := seen_article b;
          seen_trade := seen_trade b |}.

(** [if k not in seen_article: seen_article.add(k); article_list.append(a)] *)
Definition ins_article (k : pykey) (a : json) (b : buffers) : buffers :=
  if decide (k ∈ seen_article b) then b
  else {| complex_list := complex_list b;
          article_list := article_list b ++ [a];
          trade_history := trade_history b;
          seen_complex := seen_complex b;
          seen_article := {[k]} ∪ seen_article b;
          seen_trade := seen_trade b |}.

(** [if k not in seen_trade: seen_trade.add(k); trade_history.append(t)] *)
Definition ins_trade (k : trade_key) (t : json) (b : buffers) : buffers :=
  if decide (k ∈ seen_trade b) then b
  else {| complex_list := complex_list b;
          article_list := article_list b;
          trade_history := trade_history b ++ [t];
          seen_complex := seen_complex b;
          seen_article := seen_article b;
          seen_trade := {[k]} ∪ seen_trade b |}.

(** [complex_meta.setdefault(cno, dflt)] *)
Definition setdefault (cno : pystr) (dflt : meta)
    (cm : gmap pystr meta) : gmap pystr meta :=
  match cm !! cno with
  | Some _ => cm
  | None => <[cno := dflt]> cm
  end.

(** The best known listing count of a marker; 0 until it has an entry. *)
Definition count_of (cm : gmap pystr meta) (cno : pystr) : Z :=
  match cm !! cno with
  | Some m => meta_count m
  | None => 0
  end.

Definition name_of (cm : gmap pystr meta) (cno : pystr) : json :=
  match cm !! cno with
  | Some m => meta_name m
  | None => JNull
  end.

(** Lines 581-584: the entry of [cno] after a marker was seen. *)
Definition update_marker_meta (cno : pystr) (name cnt : json)
    (cm : gmap pystr meta) : gmap pystr meta :=
  let cm := setdefault cno {| meta_name := name; meta_count := 0 |} cm in
  let name' := py_or name (name_of cm cno) in
  let count' :=
    match as_int cnt with
    | Some c => if count_of cm cno <? c then c else count_of cm cno
    | None => count_of cm cno
    end in
  <[cno := {| meta_name := name'; meta_count := count' |}]> cm.

Definition set_count (cno : pystr) (n : Z) (cm : gmap pystr meta) : gmap pystr meta :=
  <[cno := {| meta_name := name_of cm cno; meta_count := n |}]> cm.

End Session.
Export Session.

Module Ingest.
Local Open Scope py_scope.

(** A completed network exchange: the request URL and what
    [await response.json()] gives. *)
Record response := { url : pystr; body : outcome json }.

(** [_is_villa_marker] (lines 545-551) *)
Definition _is_villa_marker (it : json) : outcome bool :=
  c <! get_or it [u "realEstateTypeCode"; u "estateType"; u "rletTpCd"] (JStr []);
  code <! str_upper c;
  name <! get_or it [u "realEstateTypeName"; u "estateTypeName"; u "rletTpNm"] (JStr []);
  match code with
  | _ :: _ => Ok (bool_decide (code = u "VL"))
  | [] => any_in [u "빌라"; u "연립"; u "다세대"] name
  end.

(** [_is_villa_article] (lines 553-559) *)
Definition _is_villa_article (a : json) : outcome bool :=
  c <! get_or a [u "realEstateTypeCode"; u "rletTpCd"] (JStr []);
  code <! str_upper c;
  name <! get_or a [u "realEstateTypeName"; u "rletTpNm"] (JStr []);
  match code with
  | _ :: _ => Ok (bool_decide (code = u "VL"))
  | [] => any_in [u "빌라"; u "연립"; u "다세대"] name
  end.

(** [tcode not in ('A1',) and tname not in ('매매', 'SALE')]: the listing
    is no sale and is dropped. *)
Definition not_a_sale (tcode tname : pystr) : bool :=
  negb (bool_decide (tcode = u "A1"))
  && negb (bool_decide (tname = u "매매") || bool_decide (tname = u "SALE")).

(** The body of the marker loop (lines 566-584). *)
Definition marker_item `{Builtins : PyBuiltins} (url : pystr) (it : json) : M session unit :=
  skip <~ lift (if contains (u "houses/single-markers") url
                then b <! _is_villa_marker it; Ok (negb b)
                else Ok false);
  if (skip : bool) then ret tt
  else
    cno_v <~ lift (get_or it [u "markerId"; u "complexNo"; u "houseNo"] (JStr []));
    name <~ lift (get_or it [u "complexName"; u "houseName"] (JStr []));
    cnt <~ lift (get_or it [u "articleCount"; u "dealCount"; u "totalCount"; u "cnt"]
                   (JInt 0));
    match py_str cno_v with
    | [] => ret tt
    | cno =>
      modify (on_bufs (ins_complex cno it));~
      modify (on_meta (update_marker_meta cno name cnt))
    end.

(** [/api/articles/(?:complex|house)/(\d+)] *)
Definition re_articles_url : regex :=
  (Lit (u "/api/articles/") · Alt (Lit (u "complex")) (Lit (u "house"))
   · Chr 47%N · Grp 1 (Plus digit))%re.

(** Lines 598-602: the total count of a listing list raises the count of
    its marker. *)
Definition update_total (cno : pystr) (total : json) : M session unit :=
  modify (on_meta (setdefault cno {| meta_name := JStr []; meta_count := 0 |}));~
  cur <~ gets (fun st => count_of (complex_meta st) cno);
  gt <~ lift (py_gt_int total cur);
  if (gt : bool) then
    n <~ lift (py_int_of total);
    modify (on_meta (set_count cno n))
  else ret tt.

(** [if k and k not in seen_article: ...] *)
Definition add_article (k a : json) : M session unit :=
  if truthy k then
    key <~ lift (key_of k);
    modify (on_bufs (ins_article key a))
  else ret tt.

(** The body of the listing loop (lines 606-620). *)
Definition article_item (url : pystr) (a : json) : M session unit :=
  skip <~ lift (if contains (u "/api/articles/house/") url
                then b <! _is_villa_article a; Ok (negb b)
                else Ok false);
  if (skip : bool) then ret tt
  else
    tcode <~ lift (v <! get a (u "tradeType"); str_upper (py_or v (JStr [])));
    tname <~ lift (v <! get a (u "tradeTypeName"); str_strip (py_or v (JStr [])));
    if not_a_sale tcode tname then ret tt
    else
      k <~ lift (get a (u "articleNo"));
      add_article k a.

(** The body of the price-history loop (lines 629-633). *)
Definition trade_item (t : json) : M session unit :=
  key <~ lift (d <! get t (u "dealDate");
               a <! get t (u "area");
               f <! get t (u "floor");
               p <! get t (u "dealPrice");
               kd <! key_of d;
               ka <! key_of a;
               kf <! key_of f;
               kp <! key_of p;
               Ok (kd, ka, kf, kp));
  modify (on_bufs (ins_trade key t)).

(** A [dict] met in a list by [collect_from] (lines 655-664). *)
Definition collect_item (it : json) : M session unit :=
  k <~ lift (k1 <! get it (u "articleNo"); k2 <! get it (u "atclNo"); Ok (py_or k1 k2));
  if truthy k then
    tcode <~ lift (v <! get_or it [u "tradeType"; u "tradTp"] (JStr []); str_upper v);
    tname <~ lift (v <! get it (u "tradeTypeName"); str_strip (py_or v (JStr [])));
    if not_a_sale tcode tname then ret tt
    else
      key <~ lift (key_of k);
      modify (on_bufs (ins_article key it))
  else ret tt.

(** [collect_from] (lines 644-667). The number [added] that the source
    returns only feeds a log line and is left out. *)
Fixpoint collect_from (obj : json) : M session unit :=
  match obj with
  | JDict d =>
    match (fix article_list_of (d : list (pystr * json)) : option (M session unit) :=
             match d with
             | [] => None
             | (k, v) :: d' =>
               if decide (k = u "articleList")
               then match v with
                    | JList _ => Some (collect_from v)
                    | _ => None
                    end
               else article_list_of d'
             end) d with
    | Some m => m
    | None =>
      (fix values (d : list (pystr * json)) : M session unit :=
         match d with
         | [] => ret tt
         | (_, v) :: d' => collect_from v;~ values d'
         end) d
    end
  | JList l =>
    (fix items (l : list json) : M session unit :=
       match l with
       | [] => ret tt
       | it :: l' =>
         match it with
         | JDict _ => collect_item it
         | _ => collect_from it
         end;~ items l'
       end) l
  | _ => ret tt
  end.

(** Lines 543-671: the URL selects the channel. *)
Definition classify `{Builtins : PyBuiltins} (r : response) : M session unit :=
  if contains (u "complexes/single-markers") (url r)
     || contains (u "houses/single-markers") (url r) then
    try_pass (
      data <~ lift (body r);
      match data with
      | JList items => for_each items (marker_item (url r))
      | _ => ret tt
      end)
  else if contains (u "/api/articles/complex/") (url r)
          || contains (u "/api/articles/house/") (url r) then
    try_pass (
      data <~ lift (body r);
      total <~ lift (get_or data [u "totalCount"; u "count"] (JInt 0));
      match search re_articles_url (url r) with
      | Some m =>
        if truthy total then update_total (group (m_caps m) 1) total else ret tt
      | None => ret tt
      end;~
      articles <~ lift (get_or data [u "articleList"; u "articles"] (JList []));
      items <~ lift (py_iter articles);
      for_each items (article_item (url r)))
  else if contains (u "/api/complexes/") (url r) && contains (u "/prices") (url r) then
    try_pass (
      data <~ lift (body r);
      match data with
      | JList items => for_each items trade_item
      | _ => ret tt
      end)
  else if contains (u "/api/") (url r) then
    data <~ try_default (lift (body r)) JNull;
    collect_from data
  else ret tt.

(** [handle_response]: nothing is captured until the flag is set
    (lines 540-541). *)
Definition handle_response `{Builtins : PyBuiltins} (r : response) : M session unit :=
  cap <~ gets capture;
  if negb cap then ret tt else classify r.

End Ingest.
Export Ingest.

(** ** Configuration (lines 21-36): the two policies of the detail phase *)

Record config := {
  ONLY_WITH_PREV_JEONSE : bool;  (* skip a listing without a previous lease *)
  ONLY_PREV_GT_SALE : bool       (* keep only previous lease >= sale price *)
}.

(** The values the source sets. *)
Definition default_config : config :=
  {| ONLY_WITH_PREV_JEONSE := true; ONLY_PREV_GT_SALE := true |}.

(** ** DetailExtractor: [scrape_article_detail] (lines 335-450) *)

(** The browser tab a detail fetch drives. Its state [P] (the loaded
    document, the site behind it) is the browser's; the code sees it
    through these four operations, each of which may raise. *)
Class DetailPage (P : Type) := {
  goto : pystr -> M P unit;          (* await page.goto(url, ...) *)
  page_url : P -> pystr;             (* page.url *)
  inner_text_body : M P pystr;       (* await page.inner_text("body") *)
  click_text : pystr -> M P unit     (* await page.locator("text=..").first.click() *)
}.

Module PageFacts.
Local Open Scope re_scope.

(** [[\d,억\s만]] *)
Definition money_char (c : char) : bool :=
  (py_isdigit c || (c =? c_comma) || (c =? c_eok) || py_isspace c || (c =? c_man))%N.

(** [기전세금\s*([\d,억\s만]+)] *)
Definition re_prev_jeonse : regex :=
  Lit (u "기전세금") · Star space · Grp 1 (Plus (Cls money_char)).

(** [[가-힣]{2,4}] *)
Definition re_hangul_name : regex :=
  Rep 2 4 (Cls (fun c => (44032 <=? c) && (c <=? 55203))%N).

(** [(공인중개사|부동산)] *)
Definition office_pat : regex := Grp 1 (Alt (Lit (u "공인중개사")) (Lit (u "부동산"))).

(** [중개소\s+([^\n]+)] *)
Definition re_office_backup : regex :=
  Lit (u "중개소") · Plus space · Grp 1 (Plus (Cls (fun c => negb (c =? c_newline)%N))).

(** [(\d+)\s*년\s*내\s*최고\s*([\d,억\s만]+)] and the same with 최저 *)
Definition re_period (label : pystr) : regex :=
  Grp 1 (Plus digit) · Star space · Lit (u "년") · Star space · Lit (u "내")
  · Star space · Lit label · Star space · Grp 2 (Plus (Cls money_char)).

(** [(0\d{1,2}-\d{3,4}-\d{4})] *)
Definition re_phone : regex :=
  Grp 1 (Chr 48%N · Rep 1 2 digit · Chr 45%N · Rep 3 4 digit · Chr 45%N · Rep 4 4 digit).

(** [grab(regex)] (lines 376-379) *)
Definition grab (r : regex) (body_txt : pystr) : pystr :=
  match search r body_txt with
  | Some m => strip (group (m_caps m) 1)
  | None => []
  end.

(** ["\n".join(ls)] *)
Fixpoint join_lines (ls : list pystr) : pystr :=
  match ls with
  | [] => []
  | [l] => l
  | l :: ls' => l ++ [c_newline] ++ join_lines ls'
  end.

(** The lines of the page, stripped, the empty ones dropped (line 399). *)
Definition page_lines (body_txt : pystr) : list pystr :=
  List.filter (fun l => match l with [] => false | _ => true end)
    (map strip (splitlines body_txt)).

(** The test of the broker-name loop at line [i] (lines 404-406). *)
Definition is_agent_line (lines : list pystr) (i : nat) (l : pystr) : bool :=
  bool_decide (is_Some (fullmatch re_hangul_name l))
  && negb (bool_decide (l ∈ [u "이미지"; u "상세보기"; u "중개사"; u "중개소"]))
  && (let ctx := join_lines (take (i + 2 - (i - 3)) (drop (i - 3) lines)) in
      contains (u "중개사") ctx || contains (u "프로필") ctx || contains (u "중개소") ctx).

(** [for i, l in enumerate(lines): ... break]: the first broker line. *)
Fixpoint find_agent (lines rest : list pystr) (i : nat) : option (pystr * nat) :=
  match rest with
  | [] => None
  | l :: rest' =>
    if is_agent_line lines i l then Some (l, i)
    else find_agent lines rest' (S i)
  end.

(** The agency line within five lines after the broker (lines 412-416). *)
Definition office_near (lines : list pystr) (cand_idx : nat) : pystr :=
  default []
    (List.find
       (fun l => bool_decide (is_Some (search office_pat l))
                 && negb (contains (u "상세보기") l) && negb (contains (u "전화") l))
       (take 5 (drop (S cand_idx) lines))).

(** The fallback agency search (lines 419-424). *)
Definition office_backup (body_txt : pystr) : pystr :=
  match search re_office_backup body_txt with
  | Some m =>
    let tmp := strip (group (m_caps m) 1) in
    if contains (u "이미지") tmp then [] else tmp
  | None => []
  end.

End PageFacts.
Export PageFacts.

(** What [scrape_article_detail] returns: the skip marker
    [{"__skip__": True}] or the eight facts of the page. *)
Record detail_record := {
  office : pystr;               (* 부동산상호 *)
  agent_name : pystr;           (* 중개사이름 *)
  phone1 : pystr;               (* 전화1 *)
  phone2 : pystr;               (* 전화2 *)
  period_years : option Z;      (* 전세_기간(년) *)
  jeonse_max : option Z;        (* 전세_기간내_최고(원) *)
  jeonse_min : option Z;        (* 전세_기간내_최저(원) *)
  prev_jeonse : option Z        (* 기전세금(원) *)
}.

Inductive detail :=
| Skip
| Detail (d : detail_record).

(** The facts read off the page text (lines 398-450). *)
Definition extract_record (body_txt : pystr) (prev : option Z) : detail_record :=
  let lines := page_lines body_txt in
  let cand := find_agent lines lines 0 in
  let near := match cand with Some (_, i) => office_near lines i | None => [] end in
  let m_max := search (re_period (u "최고")) body_txt in
  let m_min := search (re_period (u "최저")) body_txt in
  let phones := findall re_phone body_txt in
  {| office := match near with [] => office_backup body_txt | _ => near end;
     agent_name := match cand with Some (l, _) => l | None => [] end;
     phone1 := nth 0 phones [];
     phone2 := nth 1 phones [];
     period_years :=
       match m_max, m_min with
       | Some m, _ => Some (py_int (group (m_caps m) 1))
       | None, Some m => Some (py_int (group (m_caps m) 1))
       | None, None => None
       end;
     jeonse_max := m ← m_max; parse_kr_money_to_won (group (m_caps m) 2);
     jeonse_min := m ← m_min; parse_kr_money_to_won (group (m_caps m) 2);
     prev_jeonse := prev |}.

Section Scrape.
Context {P : Type} `{Page : DetailPage P}.
Local Open Scope py_scope.

Definition info_url (article_no : pystr) : pystr :=
  u "https://m.land.naver.com/article/info/" ++ article_no.
Definition view_url (article_no : pystr) : pystr :=
  u "https://m.land.naver.com/article/view/" ++ article_no.

(** [_goto] (lines 348-356): a bounce to fin.land.naver.com is answered
    by one more navigation to the info URL. *)
Definition _goto (article_no url : pystr) : M P unit :=
  goto url;~
  cur <~ gets page_url;
  if contains (u "fin.land.naver.com") cur
  then goto (info_url article_no)
  else ret tt.

(** [try: body_txt = await detail_page.inner_text("body")]
    [except: body_txt = ""] *)
Definition read_body : M P pystr := try_default inner_text_body [].

(** [not prev_jeonse]: absent, or the amount 0. *)
Definition no_amount (v : option Z) : bool :=
  match v with
  | None => true
  | Some z => z =? 0
  end.

Definition scrape_article_detail (cfg : config) (article_no : pystr) : M P detail :=
  _goto article_no (info_url article_no);~
  body_txt <~ read_body;
  body_txt <~ (if contains (u "요청하신 페이지를 찾을 수 없어요") body_txt
                  || (length (strip body_txt) <? 50)%nat
               then _goto article_no (view_url article_no);~ read_body
               else ret body_txt);
  let prev_jeonse_txt := grab re_prev_jeonse body_txt in
  let prev :=
    match prev_jeonse_txt with
    | [] => None
    | _ => parse_kr_money_to_won prev_jeonse_txt
    end in
  if ONLY_WITH_PREV_JEONSE cfg && no_amount prev then ret Skip
  else
    body_txt <~ try_default
                  (click_text (u "실거래가");~ click_text (u "전세");~ inner_text_body)
                  body_txt;
    ret (Detail (extract_record body_txt prev)).

End Scrape.

(** ** GapAnalyzer and the per-listing task: [fetch_one] (lines 812-869) *)

(** A row of the result table (lines 848-869). *)
Record row := {
  r_name : json;                 (* 매물명 *)
  r_article_no : pystr;          (* 매물번호 *)
  r_trade_type : json;           (* 거래유형 *)
  r_sale : option Z;             (* 매매 금액(원) *)
  r_floor : json;                (* 층수 *)
  r_area1 : json;                (* 면적(㎡) *)
  r_area2 : json;                (* 전용면적 *)
  r_direction : json;            (* 방향 *)
  r_feature : json;              (* 특징 *)
  r_confirmed : json;            (* 등록일 *)
  r_detail : detail_record;      (* the eight facts of the detail page *)
  r_gap_amount : option Z;       (* 갭금액(원) *)
  r_gap_ratio : option float     (* 갭비율 *)
}.

Module Gap.
Local Open Scope py_scope.

(** [^\s*매매\s*] *)
Definition re_sale_prefix : regex := (Bol · Star space · Lit (u "매매") · Star space)%re.

(** Lines 824-825: the sale price of the listing. [re.sub] takes a [str]
    only. *)
Definition sale_price (a : json) : outcome (option Z) :=
  v <! get_default a (u "dealOrWarrantPrc") (JStr []);
  match py_or v (JStr []) with
  | JStr s => Ok (parse_kr_money_to_won (strip (sub_del re_sale_prefix s)))
  | _ => Raise TypeError
  end.

(** Line 841: the listing fails the filter "previous lease >= sale". *)
Definition filtered_out (cfg : config) (deal_value_won prev_j : option Z) : bool :=
  ONLY_PREV_GT_SALE cfg
  && match prev_j, deal_value_won with
     | Some p, Some s => p <? s
     | _, _ => true
     end.

(** Line 845 *)
Definition gap_amount_of (deal_value_won prev_j : option Z) : option Z :=
  match deal_value_won, prev_j with
  | Some s, Some p => Some (s - p)
  | _, _ => None
  end.

(** Line 846: the quotient is taken only of a sale price that is known
    and is not 0. *)
Definition gap_ratio_of (gap_amount deal_value_won : option Z) : outcome (option float) :=
  match gap_amount, deal_value_won with
  | Some g, Some s =>
    if s =? 0 then Ok None
    else f <! py_truediv g s; Ok (Some f)
  | _, _ => Ok None
  end.

End Gap.
Export Gap.

Section FetchOne.
Context `{Builtins : PyBuiltins} {P : Type} `{Page : DetailPage P}.
Local Open Scope py_scope.

(** Lines 834-869: what [fetch_one] makes of the scraped facts. *)
Definition gap_row (cfg : config) (a : json) (deal_value_won : option Z)
    (extra : detail) : outcome (option row) :=
  match extra with
  | Skip => Ok None
  | Detail d =>
    let prev_j := prev_jeonse d in
    if filtered_out cfg deal_value_won prev_j then Ok None
    else
      let gap_amount := gap_amount_of deal_value_won prev_j in
      gap_ratio <! gap_ratio_of gap_amount deal_value_won;
      name <! get_default a (u "articleName") (JStr []);
      no <! get_default a (u "articleNo") (JStr []);
      ttype <! get_default a (u "tradeTypeName") (JStr []);
      floor <! get_default a (u "floorInfo") (JStr []);
      area1 <! get_default a (u "area1") (JStr []);
      area2 <! get_default a (u "area2") (JStr []);
      dir <! get_default a (u "direction") (JStr []);
      feat <! get_default a (u "articleFeatureDesc") (JStr []);
      ymd <! get_default a (u "articleConfirmYmd") (JStr []);
      Ok (Some {| r_name := name; r_article_no := py_str no; r_trade_type := ttype;
                  r_sale := deal_value_won; r_floor := floor; r_area1 := area1;
                  r_area2 := area2; r_direction := dir; r_feature := feat;
                  r_confirmed := ymd; r_detail := d;
                  r_gap_amount := gap_amount; r_gap_ratio := gap_ratio |})
  end.

(** Lines 829-832 on the page [dp] the task drew from the pool:
    [try: extra = await scrape_article_detail(dp, ...)]; the [finally]
    hands [dp] back whatever happened, so the page comes out of this
    step in both cases. *)
Definition scrape_with (cfg : config) (a : json) (dp : P) : outcome detail * P :=
  match get_default a (u "articleNo") (JStr []) with
  | Ok no => scrape_article_detail cfg (py_str no) dp
  | Raise e => (Raise e, dp)
  end.

(** [fetch_one] over the pool [page_q], a FIFO queue of idle pages. The
    result is [None] while the pool is empty: the task stays suspended
    in [await page_q.get()]. *)
Definition fetch_one (cfg : config) (a : json) (page_q : list P)
    : option (outcome (option row) * list P) :=
  match sale_price a with
  | Raise e => Some (Raise e, page_q)
  | Ok deal_value_won =>
    match page_q with
    | [] => None
    | dp :: idle =>
      let '(extra, dp') := scrape_with cfg a dp in
      let page_q' := idle ++ [dp'] in
      Some (match extra with
            | Raise e => Raise e
            | Ok x => gap_row cfg a deal_value_won x
            end, page_q')
    end
  end.

(** Lines 876-879: [for coro in asyncio.as_completed(tasks)]
    [row = await coro]; a task that raised raises here, in the run. *)
Fixpoint collect_results (done : list (outcome (option row))) (results : list row)
    : outcome (list row) :=
  match done with
  | [] => Ok results
  | Raise e :: _ => Raise e
  | Ok None :: done' => collect_results done' results
  | Ok (Some r) :: done' => collect_results done' (results ++ [r])
  end.

End FetchOne.

(** ** CoordinateTransform and the sample grid of [grid_sweep] *)

(** Float arithmetic and the functions of [math] the projection uses.
    Their results are the platform's; the grid below is built from them
    without looking inside. *)
Class PyMath (F : Type) := {
  of_int : Z -> F;
  fadd : F -> F -> F;
  fsub : F -> F -> F;
  fmul : F -> F -> F;
  fdiv : F -> F -> F;
  math_pi : F;
  math_sin : F -> F;
  math_log : F -> F;
  math_atan : F -> F;
  math_sinh : F -> F;
  math_radians : F -> F;
  math_degrees : F -> F
}.

(** [range(a, b)] *)
Definition py_range (a b : Z) : list Z :=
  map (fun i => a + Z.of_nat i) (seq 0 (Z.to_nat (b - a))).

Section Projection.
Context {F : Type} `{Math : PyMath F}.

(** [scale = 256 * (2 ** z)] *)
Definition map_scale (z : Z) : F := of_int (256 * 2 ^ z).

(** [ll_to_pixel] (lines 111-125) *)
Definition ll_to_pixel (lat lon : F) (z : Z) : F * F :=
  let scale := map_scale z in
  let x := fmul (fdiv (fadd lon (of_int 180)) (of_int 360)) scale in
  let siny := math_sin (math_radians lat) in
  let half := fdiv (of_int 1) (of_int 2) in
  let y :=
    fmul (fsub half
            (fdiv (math_log (fdiv (fadd (of_int 1) siny) (fsub (of_int 1) siny)))
                  (fmul (of_int 4) math_pi)))
         scale in
  (x, y).

(** [pixel_to_ll] (lines 58-69) *)
Definition pixel_to_ll (x y : F) (z : Z) : F * F :=
  let scale := map_scale z in
  let lon := fsub (fmul (fdiv x scale) (of_int 360)) (of_int 180) in
  let n := fsub math_pi (fdiv (fmul (fmul (of_int 2) math_pi) y) scale) in
  let lat := math_degrees (math_atan (math_sinh n)) in
  (lat, lon).

(** The loops of lines 87-89: ring [r], column [dx], row [dy]. *)
Definition grid_offsets (rings : Z) : list (Z * Z * Z) :=
  r ← py_range 1 (rings + 1);
  dx ← py_range (- r) (r + 1);
  dy ← [- r; r];
  [(r, dx, dy)].

(** Lines 90-91: the sample point of an offset. *)
Definition sample_point (cx cy : F) (zoom step_px : Z) (o : Z * Z * Z) : F * F :=
  let '(_, dx, dy) := o in
  pixel_to_ll (fadd cx (of_int (dx * step_px))) (fadd cy (of_int (dy * step_px))) zoom.

(** [coords] of [grid_sweep] (lines 83-91). *)
Definition grid_coords (center_lat center_lon : F) (zoom rings step_px : Z)
    : list (F * F) :=
  let '(cx, cy) := ll_to_pixel center_lat center_lon zoom in
  r ← py_range 1 (rings + 1);
  dx ← py_range (- r) (r + 1);
  dy ← [- r; r];
  [pixel_to_ll (fadd cx (of_int (dx * step_px))) (fadd cy (of_int (dy * step_px))) zoom].

End Projection.

(** ** CollectionScheduler: the pool of detail pages (lines 518-521, 828-832, 872) *)

Module Scheduler.

Section Pool.
Context `{Builtins : PyBuiltins} {P : Type} `{Page : DetailPage P}.
Variable cfg : config.

(** Where a [fetch_one] task stands. It suspends in [await page_q.get()]
    until a page is idle, and again inside [scrape_article_detail]; from
    the [finally] on it runs to its end without yielding. *)
Inductive task :=
| Waiting (a : json) (deal_value_won : option Z)
| Holding (a : json) (deal_value_won : option Z) (dp : P)
| Done (result : outcome (option row)).

(** [asyncio.create_task(fetch_one(a))]: the task up to its first
    suspension. *)
Definition create_task (a : json) : task :=
  match sale_price a with
  | Raise e => Done (Raise e)
  | Ok deal => Waiting a deal
  end.

Record sched := { page_q : list P; tasks : list task }.

(** Line 872 over the pool of lines 519-521. *)
Definition init (detail_pages : list P) (backlog : list json) : sched :=
  {| page_q := detail_pages; tasks := map create_task backlog |}.

(** What the event loop can observe of a task. *)
Inductive event :=
| Acquire (i : nat)    (* [dp = await page_q.get()] returned *)
| Release (i : nat).   (* [await page_q.put(dp)] in the [finally] *)

(** The task after its page came back: the row, or the exception that
    [scrape_article_detail] raised. *)
Definition finish (a : json) (deal : option Z) (extra : outcome detail)
    : outcome (option row) :=
  match extra with
  | Raise e => Raise e
  | Ok x => gap_row cfg a deal x
  end.

(** One move of the event loop. Which waiting task is served first is
    left open, so what holds of this relation holds of every order in
    which asyncio may serve them. *)
Inductive step : sched -> event -> sched -> Prop :=
| step_acquire i a deal dp idle ts :
    ts !! i = Some (Waiting a deal) ->
    step {| page_q := dp :: idle; tasks := ts |}
         (Acquire i)
         {| page_q := idle; tasks := <[i := Holding a deal dp]> ts |}
| step_release i a deal dp q ts :
    ts !! i = Some (Holding a deal dp) ->
    step {| page_q := q; tasks := ts |}
         (Release i)
         {| page_q := q ++ [snd (scrape_with cfg a dp)];
            tasks := <[i := Done (finish a deal (fst (scrape_with cfg a dp)))]> ts |}.

(** Executions, with the events in the order they happened. *)
Inductive exec_trace : sched -> list event -> sched -> Prop :=
| exec_nil s : exec_trace s [] s
| exec_snoc s tr s' e s'' :
    exec_trace s tr s' -> step s' e s'' -> exec_trace s (tr ++ [e]) s''.

Definition is_holding (t : task) : bool :=
  match t with Holding _ _ _ => true | _ => false end.
Definition is_waiting (t : task) : bool :=
  match t with Waiting _ _ => true | _ => false end.
Definition is_done (t : task) : bool :=
  match t with Done _ => true | _ => false end.

(** The number of fetches that hold a page. *)
Definition holding_count (s : sched) : nat :=
  length (List.filter is_holding (tasks s)).

Definition acquires (i : nat) (tr : list event) : nat :=
  length (List.filter (fun e => match e with Acquire j => Nat.eqb i j | _ => false end) tr).
Definition releases (i : nat) (tr : list event) : nat :=
  length (List.filter (fun e => match e with Release j => Nat.eqb i j | _ => false end) tr).

End Pool.
End Scheduler.

(** ** The start position: [clamp_korea] (lines 102-109) and the zoom
    range (lines 466, 678 and 716) *)

Module Clamp.

(** A [float] as a caller may pass it: a number, or NaN. *)
Inductive pyfloat :=
| Num (f : float)
| NaN.

(** [a < b] on numbers, by exact value. *)
Definition flt (a b : float) : bool :=
  match a, b with
  | Fin m e, Fin m' e' =>
    let e0 := Z.min e e' in
    m * 2 ^ (e - e0) <? m' * 2 ^ (e' - e0)
  | Fin _ _, Inf neg => negb neg
  | Inf neg, Fin _ _ => neg
  | Inf neg, Inf neg' => neg && negb neg'
  end.

(** [a < b]: a comparison with NaN is false. *)
Definition py_lt (a b : pyfloat) : bool :=
  match a, b with
  | Num x, Num y => flt x y
  | _, _ => false
  end.

(** [max(a, b)] and [min(a, b)] keep their first argument unless the
    second one is strictly beyond it. *)
Definition py_max (a b : pyfloat) : pyfloat := if py_lt a b then b else a.
Definition py_min (a b : pyfloat) : pyfloat := if py_lt b a then b else a.

(** [KOR_BOUNDS = (33.0, 39.5, 124.0, 132.1)] *)
Definition KOR_BOUNDS : float * float * float * float :=
  (Fin 33 0, Fin 79 (-1), Fin 124 0, round_pos 1321 10).

Definition clamp_korea (lat lon : pyfloat) : pyfloat * pyfloat :=
  let '(mnLat, mxLat, mnLon, mxLon) := KOR_BOUNDS in
  (py_max (Num mnLat) (py_min lat (Num mxLat)),
   py_max (Num mnLon) (py_min lon (Num mxLon))).

Definition ZOOM_MIN : Z := 15.
Definition ZOOM_MAX : Z := 17.

(** Line 678: [max(ZOOM_MIN, min(ZOOM_MAX, int(zoom)))] for the [int]
    that line 466 made of [zoom]. *)
Definition z_clamped (zoom : Z) : Z := Z.max ZOOM_MIN (Z.min ZOOM_MAX zoom).

End Clamp.
Export Clamp.

(** ** The order of the detail phase (lines 797-808) *)

Module PriceOrder.
Local Open Scope py_scope.

(** [_sale_price_of] (lines 798-800): the sale price, with [10**12]
    for a price that is missing or 0. *)
Definition _sale_price_of (a : json) : outcome Z :=
  v <! sale_price a;
  Ok (match v with
      | Some z => if z =? 0 then 10 ^ 12 else z
      | None => 10 ^ 12
      end).

(** The keys of [list.sort(key=...)]: one call per element, in order,
    before anything is moved. *)
Fixpoint keyed (key : json -> outcome Z) (l : list json) : outcome (list (Z * json)) :=
  match l with
  | [] => Ok []
  | x :: l' =>
    k <! key x;
    kl <! keyed key l';
    Ok ((k, x) :: kl)
  end.

(** The place of an element among those that followed it: in front of
    the first one whose key is not smaller. *)
Fixpoint insert_by (k : Z) (x : json) (l : list (Z * json)) : list (Z * json) :=
  match l with
  | [] => [(k, x)]
  | (k', y) :: l' =>
    if k <=? k' then (k, x) :: l else (k', y) :: insert_by k x l'
  end.

(** The stable ascending order of keyed elements. *)
Definition sort_keyed (kl : list (Z * json)) : list (Z * json) :=
  foldr (fun p acc => insert_by (fst p) (snd p) acc) [] kl.

(** [try: article_list.sort(key=_sale_price_of)  except Exception: pass]:
    a key that raises leaves the list as it was. *)
Definition sort_by_price (article_list : list json) : list json :=
  match keyed _sale_price_of article_list with
  | Ok kl => map snd (sort_keyed kl)
  | Raise _ => article_list
  end.

(** Lines 808 and 872: [article_list[:limit]] with
    [limit = MAX_ARTICLE_DETAIL if MAX_ARTICLE_DETAIL else len(article_list)];
    a negative bound of a slice counts from the end. *)
Definition MAX_ARTICLE_DETAIL : Z := 10000.

Definition backlog (max_detail : Z) (article_list : list json) : list json :=
  let limit := if max_detail =? 0 then Z.of_nat (length article_list) else max_detail in
  if 0 <=? limit then take (Z.to_nat limit) article_list
  else take (length article_list - Z.to_nat (- limit)) article_list.

End PriceOrder.
Export PriceOrder.

(** ** MapNavigator: [get_ms], [wheel_to_zoom], [drag_to_latlon],
    [human_like_recenter], [switch_to_listing_markers] (lines 146-269)
    and the sweep of [grid_sweep] (lines 93-99) *)

(** The float operations of the navigation code, with the exceptions
    Python raises from them. Their results are the platform's. *)
Class PyFloat (F : Type) := {
  f_of_int : Z -> F;                  (* an [int] operand *)
  f_lit : Z -> Z -> F;                (* the literal nearest to [p / q] *)
  f_add : F -> F -> F;
  f_sub : F -> F -> F;
  f_mul : F -> F -> F;
  f_div : F -> F -> outcome F;        (* ZeroDivisionError *)
  f_pow2 : F -> outcome F;            (* [2 ** z]: OverflowError *)
  f_sin : F -> outcome F;             (* ValueError at an infinity *)
  f_radians : F -> F;
  f_log : F -> outcome F;             (* ValueError *)
  f_pi : F;
  f_hypot : F -> F -> F;
  f_lt : F -> F -> bool;
  f_le : F -> F -> bool;
  f_round : F -> outcome Z;           (* [round(z)]: ValueError, OverflowError *)
  f_of_str : pystr -> outcome F       (* [float(s)]: ValueError *)
}.

Module Nav.
Local Open Scope py_scope.

Section Actions.
Context {F : Type}.

(** What the code asks of the map page, and the pauses between. *)
Inductive action :=
| MouseMove (x y : F)                    (* page.mouse.move(x, y) *)
| MouseDrag (x y : F) (steps : Z)        (* page.mouse.move(x, y, steps=...) *)
| MouseDown                              (* page.mouse.down() *)
| MouseUp                                (* page.mouse.up() *)
| MouseWheel (dx dy : Z)                 (* page.mouse.wheel(dx, dy) *)
| Click (selector : pystr)               (* page.locator(selector).first.click() *)
| Sleep.                                 (* asyncio.sleep(...) *)

End Actions.
Arguments action F : clear implicits.

(** The browser behind the page: how it answers an action (any of them
    may fail), the URL it shows, and what
    [parse_qs(urlparse(url).query).get("ms", [None])[0]] reads in it. *)
Class MapPage (F B : Type) := {
  react : action F -> B -> outcome unit * B;
  url_of : B -> pystr;
  query_ms : pystr -> outcome (option pystr)
}.

(** The page with the record of what was asked of it so far. *)
Record nav (F B : Type) := { trace : list (action F); browser : B }.
Arguments trace {F B} _.
Arguments browser {F B} _.

Section Navigator.
Context {F B : Type} `{Float : PyFloat F} `{Page : MapPage F B}.

Definition act (a : action F) : M (nav F B) unit :=
  fun s =>
    let '(o, b') := react a (browser s) in
    (o, {| trace := trace s ++ [a]; browser := b' |}).

(** [s.split(",")] *)
Fixpoint split_on (c : char) (s : pystr) : list pystr :=
  match s with
  | [] => [[]]
  | x :: s' =>
    if (x =? c)%N then [] :: split_on c s'
    else match split_on c s' with
         | w :: ws => (x :: w) :: ws
         | [] => [[x]]
         end
  end.

(** [get_ms] (lines 146-163) *)
Definition get_ms : M (nav F B) (option (F * F * F)) :=
  url <~ gets (fun s => url_of (browser s));
  ms <~ lift (query_ms url);
  match ms with
  | None | Some [] => ret None
  | Some ms =>
    ret (match split_on c_comma ms with
         | [la; lo; zz] =>
           match (a <! f_of_str la; b <! f_of_str lo; c <! f_of_str zz; Ok (a, b, c)) with
           | Ok t => Some t
           | Raise _ => None
           end
         | _ => None
         end)
  end.

(** [wheel_to_zoom] (lines 165-186): [n] rounds of the loop are left. *)
Fixpoint wheel_loop (n : nat) (target_zoom : Z) : M (nav F B) unit :=
  match n with
  | O => ret tt
  | S n' =>
    cur <~ get_ms;
    match cur with
    | None => act Sleep;~ wheel_loop n' target_zoom
    | Some (_, _, z) =>
      z <~ lift (f_round z);
      if z =? target_zoom then ret tt
      else
        act (MouseMove (f_of_int 960) (f_of_int 540));~
        act (MouseWheel 0 (if z <? target_zoom then -300 else 300));~
        act Sleep;~
        wheel_loop n' target_zoom
    end
  end.

Definition wheel_to_zoom (target_zoom : Z) : M (nav F B) unit :=
  wheel_loop 20 target_zoom.

(** [ll_to_pixel] (lines 111-125) at the float zoom of the URL. *)
Definition ll_to_pixel_at (lat lon z : F) : outcome (F * F) :=
  p <! f_pow2 z;
  let scale := f_mul (f_of_int 256) p in
  q <! f_div (f_add lon (f_lit 180 1)) (f_lit 360 1);
  let x := f_mul q scale in
  siny <! f_sin (f_radians lat);
  r <! f_div (f_add (f_of_int 1) siny) (f_sub (f_of_int 1) siny);
  l <! f_log r;
  t <! f_div l (f_mul (f_of_int 4) f_pi);
  Ok (x, f_mul (f_sub (f_lit 1 2) t) scale).

(** [drag_to_latlon] (lines 188-225) *)
Fixpoint drag_loop (n : nat) (lat lon tolerance_px : F) : M (nav F B) unit :=
  match n with
  | O => ret tt
  | S n' =>
    cur <~ get_ms;
    match cur with
    | None => act Sleep;~ drag_loop n' lat lon tolerance_px
    | Some (cur_lat, cur_lon, z) =>
      p1 <~ lift (ll_to_pixel_at cur_lat cur_lon z);
      p2 <~ lift (ll_to_pixel_at lat lon z);
      let dx := f_sub (fst p2) (fst p1) in
      let dy := f_sub (snd p2) (snd p1) in
      let dist := f_hypot dx dy in
      if f_le dist tolerance_px then ret tt
      else
        let step := if f_lt dist (f_lit 800 1) then dist else f_lit 800 1 in
        r <~ lift (f_div step (f_add dist (f_lit 1 1000000000)));
        let mx := f_mul dx r in
        let my := f_mul dy r in
        act (MouseMove (f_of_int 960) (f_of_int 540));~
        act MouseDown;~
        act (MouseDrag (f_sub (f_of_int 960) mx) (f_sub (f_of_int 540) my) 20);~
        act MouseUp;~
        act Sleep;~
        drag_loop n' lat lon tolerance_px
    end
  end.

Definition drag_to_latlon (lat lon : F) : M (nav F B) unit :=
  drag_loop 18 lat lon (f_lit 7 2).

(** [human_like_recenter] (lines 227-243); [rand_out] is what
    [random.randint(9, 12)] drew. *)
Definition human_like_recenter (rand_out : Z) (lat lon : F) (zoom : Z)
    : M (nav F B) unit :=
  wheel_to_zoom rand_out;~
  drag_to_latlon lat lon;~
  wheel_to_zoom zoom;~
  drag_to_latlon lat lon.

(** [try: ...; return True  except: ...] *)
Definition attempt (m : M (nav F B) unit) : M (nav F B) bool :=
  fun s =>
    match m s with
    | (Ok _, s') => (Ok true, s')
    | (Raise _, s') => (Ok false, s')
    end.

(** [switch_to_listing_markers] (lines 245-269) *)
Fixpoint click_first (txts : list pystr) (otherwise : M (nav F B) bool)
    : M (nav F B) bool :=
  match txts with
  | [] => otherwise
  | txt :: rest =>
    clicked <~ attempt (act (Click (u "text=" ++ txt));~ act Sleep);
    if (clicked : bool) then ret true else click_first rest otherwise
  end.

Definition switch_to_listing_markers : M (nav F B) bool :=
  click_first [u "상세매물검색"; u "매물"; u "매물검색"; u "매물 보기"]
    (attempt (act (Click (u "button:has-text(" ++ [34%N] ++ u "단지" ++ [34%N] ++ u ")"));~
              act Sleep;~
              act (Click (u "text=매물"));~
              act Sleep)).

(** Lines 93-99 of [grid_sweep]: every sample point is dragged to, then
    the wheel is nudged and the page is left to load. *)
Definition sweep (coords : list (F * F)) : M (nav F B) unit :=
  for_each coords (fun c =>
    drag_to_latlon (fst c) (snd c);~
    act (MouseWheel 0 (-40));~
    act Sleep).

End Navigator.
End Nav.
Export Nav.

(** [grid_sweep] (lines 71-99) *)
Definition grid_sweep {F B : Type} `{Math : PyMath F} `{Float : PyFloat F}
    `{Page : MapPage F B} (center_lat center_lon : F) (zoom rings step_px : Z)
    : M (nav F B) unit :=
  sweep (grid_coords center_lat center_lon zoom rings step_px).

(** ** The scenarios of phase 1: [_build_scenarios] (lines 42-56) *)

(** [ASSET_TYPES = "APT:VL"] *)
Definition ASSET_TYPES : pystr := u "APT:VL".

Definition c_colon : char := 58%N.

(** [set([s.strip().upper() for s in asset_types.split(":") if s.strip()])],
    as the list of its members. *)
Definition wanted (asset_types : pystr) : list pystr :=
  map (fun s => upper (strip s))
      (List.filter (fun s => match strip s with [] => false | _ => true end)
                   (split_on c_colon asset_types)).

Definition _build_scenarios (asset_types : pystr) : list (pystr * pystr) :=
  let want := wanted asset_types in
  (if bool_decide (u "APT" ∈ want) then [(u "complexes", u "APT")] else [])
  ++ (if bool_decide (u "VL" ∈ want) then [(u "houses", u "VL")] else []).

(** ** Phase 2: the markers to visit (lines 738-787) *)

Module Targets.
Local Open Scope py_scope.

Definition MAX_COMPLEX_DETAIL : nat := 800.
Definition MIN_LISTING_COUNT : Z := 2.
Definition PRIORITIZE_BY_COUNT : bool := false.

(** An entry of [targets]: [(cnt, cno, name, kind)]. *)
Record target := { t_cnt : Z; t_cno : json; t_name : json; t_kind : pystr }.

(** [complex_meta.get(cno, {}).get("count", 0)]. The keys of the store
    are texts: another hashable object finds no entry, and a list or a
    dict cannot be looked up at all. *)
Definition meta_count_of (cm : gmap pystr meta) (cno : json) : outcome Z :=
  match cno with
  | JStr s => Ok (count_of cm s)
  | JList _ | JDict _ => Raise TypeError
  | _ => Ok 0
  end.

(** ['houses' if c.get('houseNo') else 'complexes'] *)
Definition kind_of_marker (c : json) : outcome pystr :=
  h <! get c (u "houseNo");
  Ok (if truthy h then u "houses" else u "complexes").

(** Lines 744-748: the entry of a marker. *)
Definition target_of `{Builtins : PyBuiltins} (cm : gmap pystr meta) (c : json)
    : outcome target :=
  v <! get_or c [u "complexNo"; u "houseNo"; u "markerId"] (JStr []);
  kind <! kind_of_marker c;
  name <! get_or c [u "complexName"; u "houseName"] (JStr []);
  Ok {| t_cnt := count_of cm (py_str v); t_cno := JStr (py_str v);
        t_name := name; t_kind := kind |}.

(** Lines 762-766: the entry of a marker in the fallback list. *)
Definition fallback_target_of (cm : gmap pystr meta) (c : json) : outcome target :=
  cno <! get_or c [u "markerId"; u "complexNo"] (JStr []);
  name <! get_or c [u "complexName"] (JStr []);
  cnt <! meta_count_of cm cno;
  kind <! kind_of_marker c;
  Ok {| t_cnt := cnt; t_cno := cno; t_name := name; t_kind := kind |}.

(** [for c in l: targets.append(f(c))] *)
Fixpoint collect {A} (f : json -> outcome A) (l : list json) : outcome (list A) :=
  match l with
  | [] => Ok []
  | c :: l' =>
    t <! f c;
    ts <! collect f l';
    Ok (t :: ts)
  end.

(** [targets.sort(key=lambda x: x[0], reverse=True)]: descending in the
    count, entries of one count in their old order. *)
Fixpoint insert_desc (t : target) (l : list target) : list target :=
  match l with
  | [] => [t]
  | t' :: l' =>
    if t_cnt t' <=? t_cnt t then t :: l else t' :: insert_desc t l'
  end.

Definition sort_desc (l : list target) : list target := foldr insert_desc [] l.

(** Lines 738-767 *)
Definition phase2_targets `{Builtins : PyBuiltins} (min_count : Z) (max_detail : nat)
    (prioritize : bool) (cm : gmap pystr meta) (complex_list : list json)
    : outcome (list target) :=
  match complex_list with
  | [] => Ok []
  | _ =>
    ts <! collect (target_of cm) complex_list;
    let ts := List.filter (fun t => min_count <=? t_cnt t) ts in
    let ts := if prioritize then sort_desc ts else ts in
    match ts with
    | [] =>
      fb <! collect (fallback_target_of cm) (take (max_detail * 2) complex_list);
      Ok (sort_desc fb)
    | _ => Ok ts
    end
  end.

(** Lines 771-779: the pages the loop means to open, one for each of the
    first [max_detail] entries whose id counts as true. *)
Definition detail_url `{Builtins : PyBuiltins} (t : target) : pystr :=
  u "https://new.land.naver.com/" ++ t_kind t ++ [47%N] ++ py_str (t_cno t).

Definition planned_visits `{Builtins : PyBuiltins} (max_detail : nat)
    (targets : list target) : list pystr :=
  map detail_url (List.filter (fun t => truthy (t_cno t)) (take max_detail targets)).

End Targets.
Export Targets.

(** * Properties *)

(** ** CurrencyParser *)

(** The text the patterns of [parse_kr_money_to_won] see: stripped, and
    without spaces, commas and 원. *)
Definition money_text (s : pystr) : pystr :=
  remove_char c_won (remove_char c_comma (remove_char c_space (strip s))).

Lemma parse_kr_money_to_won_unfold (s : pystr) :
  s <> [] ->
  parse_kr_money_to_won s =
    let t := money_text s in
    let total :=
      match search re_eok t with
      | Some m => eok_total (group (m_caps m) 1)
      | None => 0
      end in
    let man :=
      match search re_eok t with
      | Some _ => man_after_eok t
      | None => man_without_eok t
      end in
    if (total =? 0) && (man =? 0) && bool_decide (is_Some (fullmatch re_digits t))
    then Some (if contains [c_won] (remove_char c_comma (remove_char c_space (strip s)))
               then py_int t else py_int t * 10000)
    else Some (total + man * 10000).
Proof.
  intros Hs. destruct s as [|c s]; [done|].
  unfold parse_kr_money_to_won, money_text.
  destruct (search re_eok _); reflexivity.
Qed.

(** Only the empty string is answered with [None]. *)
Lemma parse_kr_money_to_won_None (s : pystr) :
  parse_kr_money_to_won s = None <-> s = [].
Proof.
  split; [|intros ->; reflexivity].
  intros Hn. destruct s as [|c s]; [done|].
  rewrite parse_kr_money_to_won_unfold in Hn by done.
  cbv zeta in Hn. by case_match.
Qed.

(** C1. The literal cases of the specification: "3억 8,000만원" is
    380,000,000; "8,500" is 85,000,000; "7.5억" is 750,000,000;
    "320000000원" is 320,000,000; "3억2천" is 320,000,000; the empty string
    has no amount. *)
Theorem C1_parse_literal_cases :
  parse_kr_money_to_won (u "3억 8,000만원") = Some 380000000
  /\ parse_kr_money_to_won (u "8,500") = Some 85000000
  /\ parse_kr_money_to_won (u "7.5억") = Some 750000000
  /\ parse_kr_money_to_won (u "320000000원") = Some 320000000
  /\ parse_kr_money_to_won (u "3억2천") = Some 320000000
  /\ parse_kr_money_to_won (u "") = None.
Proof.
  split; [|split; [|split; [|split; [|split]]]].
  - (* 3억 + 8000만 *) vm_compute. reflexivity.
  - (* a bare number counts in 만 *) vm_compute. reflexivity.
  - (* the float 7.5 times 10^8 is exact *) vm_compute. reflexivity.
  - (* with 원 the number is in won already *) vm_compute. reflexivity.
  - (* 3억 + 2천 만 *) vm_compute. reflexivity.
  - (* [if not s: return None] *) reflexivity.
Qed.

(** C3. A text that is not empty and in which, once stripped of spaces,
    commas and 원, there is no 억, 만 or 천 quantity and that is no bare
    integer falls through to the last line and comes back as the number
    0, not as [None]. *)
Theorem C3_unparsable_text_returns_zero (s : pystr) :
  s <> [] ->
  search re_eok (money_text s) = None ->
  search re_man (money_text s) = None ->
  search re_cheon (money_text s) = None ->
  fullmatch re_digits (money_text s) = None ->
  parse_kr_money_to_won s = Some 0.
Proof.
  intros Hs Heok Hman Hcheon Hdigits.
  rewrite parse_kr_money_to_won_unfold by done. cbv zeta.
  unfold man_without_eok. rewrite Heok, Hman, Hcheon, Hdigits.
  reflexivity.
Qed.

Lemma C3_unparsable_text_witness :
  parse_kr_money_to_won (u "abc") = Some 0.
Proof.
  apply C3_unparsable_text_returns_zero; [done | vm_compute; reflexivity ..].
Defined.

(** ** GapAnalyzer *)

(** A [str] of the interpreter for the closed examples: no object is
    printed in them. *)
Definition blank_repr : PyBuiltins := {| py_repr := fun _ => [] |}.

(** The facts of a detail page that shows a previous lease of [p] won
    and nothing else. *)
Definition only_prev (p : Z) : detail_record :=
  {| office := []; agent_name := []; phone1 := []; phone2 := [];
     period_years := None; jeonse_max := None; jeonse_min := None;
     prev_jeonse := Some p |}.

Section GapProps.
Context `{Builtins : PyBuiltins}.

Lemma gap_row_dict cfg fields deal d :
  gap_row cfg (JDict fields) deal (Detail d) =
    if filtered_out cfg deal (prev_jeonse d) then Ok None
    else
      match gap_ratio_of (gap_amount_of deal (prev_jeonse d)) deal with
      | Raise e => Raise e
      | Ok ratio =>
        Ok (Some
          {| r_name := default (JStr []) (assoc (u "articleName") fields);
             r_article_no := py_str (default (JStr []) (assoc (u "articleNo") fields));
             r_trade_type := default (JStr []) (assoc (u "tradeTypeName") fields);
             r_sale := deal;
             r_floor := default (JStr []) (assoc (u "floorInfo") fields);
             r_area1 := default (JStr []) (assoc (u "area1") fields);
             r_area2 := default (JStr []) (assoc (u "area2") fields);
             r_direction := default (JStr []) (assoc (u "direction") fields);
             r_feature := default (JStr []) (assoc (u "articleFeatureDesc") fields);
             r_confirmed := default (JStr []) (assoc (u "articleConfirmYmd") fields);
             r_detail := d;
             r_gap_amount := gap_amount_of deal (prev_jeonse d);
             r_gap_ratio := ratio |})
      end.
Proof.
  unfold gap_row. destruct (filtered_out _ _ _); [done|].
  destruct (gap_ratio_of _ _); reflexivity.
Qed.


End GapProps.



(** ** Failure handling in the detail phase *)

(** A computation that never raises. *)
Record never_raises {S A} (m : M S A) : Prop :=
  { returns : forall s, exists a, fst (m s) = Ok a }.
Arguments returns {S A m} _ s.

Lemma never_raises_ret {S A} (a : A) : never_raises (ret (S:=S) a).
Proof. split. intros s. by exists a. Qed.

Lemma never_raises_gets {S A} (f : S -> A) : never_raises (gets f).
Proof. split. intros s. by exists (f s). Qed.

Lemma never_raises_bind {S A B} (m : M S A) (k : A -> M S B) :
  never_raises m -> (forall a, never_raises (k a)) -> never_raises (bind m k).
Proof.
  intros Hm Hk. split. intros s. unfold bind. destruct (returns Hm s) as [a Ha].
  destruct (m s) as [o s']. simpl in Ha. subst o. apply (returns (Hk a)).
Qed.

(** [try]/[except] absorbs whatever the body raises. *)
Lemma never_raises_try_default {S A} (m : M S A) (d : A) :
  never_raises (try_default m d).
Proof.
  split. intros s. unfold try_default. destruct (m s) as [[a|e] s']; eauto.
Qed.

(** A tab whose every navigation fails (the site is unreachable, the
    navigation times out). *)
Definition unreachable_tab : DetailPage unit :=
  {| goto := fun _ => lift (Raise PlaywrightError);
     page_url := fun _ => [];
     inner_text_body := lift (Raise PlaywrightError);
     click_text := fun _ => lift (Raise PlaywrightError) |}.

(** A tab that navigates, but whose text cannot be read and on which no
    element is found. *)
Definition unreadable_tab : DetailPage unit :=
  {| goto := fun _ => ret tt;
     page_url := fun _ => [];
     inner_text_body := lift (Raise PlaywrightError);
     click_text := fun _ => lift (Raise PlaywrightError) |}.

(** A listing as the listing channel stores it. *)
Definition listing_1 : json :=
  JDict [(u "articleNo", JStr (u "2401")); (u "dealOrWarrantPrc", JStr (u "3억"))].

Section DetailFailures.
Context {P : Type} `{Page : DetailPage P}.

Lemma never_raises_goto_redirect article_no url :
  (forall url', never_raises (goto url')) ->
  never_raises (_goto article_no url).
Proof.
  intros Hgoto. unfold _goto.
  apply never_raises_bind; [apply Hgoto|]. intros _.
  apply never_raises_bind; [apply never_raises_gets|]. intros cur.
  destruct (contains _ cur); [apply Hgoto | apply never_raises_ret].
Qed.


End DetailFailures.



(** ** ResponseIngestor *)

(** Induction over a payload and everything nested in it. *)
Lemma json_nested_ind (Q : json -> Prop) :
  Q JNull ->
  (forall b, Q (JBool b)) ->
  (forall z, Q (JInt z)) ->
  (forall f, Q (JFloat f)) ->
  (forall s, Q (JStr s)) ->
  (forall l, Forall Q l -> Q (JList l)) ->
  (forall d, Forall (fun kv => Q (snd kv)) d -> Q (JDict d)) ->
  forall v, Q v.
Proof.
  intros Hnull Hbool Hint Hfloat Hstr Hlist Hdict.
  fix IH 1. intros [ |b|z|f|s|l|d].
  - exact Hnull.
  - apply Hbool.
  - apply Hint.
  - apply Hfloat.
  - apply Hstr.
  - apply Hlist. induction l as [|x l IHl]; constructor; [apply IH | exact IHl].
  - apply Hdict. induction d as [|[k x] d IHd]; constructor; [apply IH | exact IHd].
Qed.

(** *** A small program logic: relations every step maintains *)

(** [m] takes every state to one that [R] relates to it, whether it
    returns or raises. *)
Record preserves {S A} (R : relation S) (m : M S A) : Prop :=
  { preserved : forall s, R s (exec m s) }.
Arguments preserved {S A R m} _ s.

Section Preserves.
Context {S : Type} (R : relation S) `{!PreOrder R}.

Lemma preserves_ret {A} (a : A) : preserves R (ret a).
Proof. split. intros s. reflexivity. Qed.

Lemma preserves_lift {A} (o : outcome A) : preserves R (lift o).
Proof. split. intros s. reflexivity. Qed.

Lemma preserves_gets {A} (f : S -> A) : preserves R (gets f).
Proof. split. intros s. reflexivity. Qed.

Lemma preserves_modify (f : S -> S) :
  (forall s, R s (f s)) -> preserves R (modify f).
Proof. intros Hf. split. intros s. apply Hf. Qed.

Lemma preserves_bind {A B} (m : M S A) (k : A -> M S B) :
  preserves R m -> (forall a, preserves R (k a)) -> preserves R (bind m k).
Proof.
  intros Hm Hk. split. intros s. pose proof (preserved Hm s) as Hs.
  unfold exec, bind in *.
  destruct (m s) as [[a|e] s']; simpl in *; [|done].
  etrans; [exact Hs | apply (preserved (Hk a))].
Qed.

Lemma preserves_try_pass (m : M S unit) :
  preserves R m -> preserves R (try_pass m).
Proof. intros Hm. split. intros s. apply (preserved Hm). Qed.

Lemma preserves_try_default {A} (m : M S A) (d : A) :
  preserves R m -> preserves R (try_default m d).
Proof.
  intros Hm. split. intros s. pose proof (preserved Hm s) as Hs.
  unfold exec, try_default in *.
  by destruct (m s) as [[a|e] s'].
Qed.

Lemma preserves_for_each {A} (l : list A) (body : A -> M S unit) :
  (forall x, preserves R (body x)) -> preserves R (for_each l body).
Proof.
  intros Hbody. induction l as [|x l IH]; simpl.
  - apply preserves_ret.
  - apply preserves_bind; [apply Hbody | intros _; exact IH].
Qed.

End Preserves.

(** The responses of a session, handled one after the other. *)
Definition ingest `{Builtins : PyBuiltins} (rs : list response) (st : session) : session :=
  fold_left (fun st r => exec (handle_response r) st) rs st.

(** Line 540: [if not flags["capture"]: return]. *)
Lemma handle_response_not_capturing `{Builtins : PyBuiltins} (r : response)
    (st : session) :
  capture st = false -> handle_response r st = (Ok tt, st).
Proof.
  intros Hcap. unfold handle_response, bind, gets. rewrite Hcap. reflexivity.
Qed.

(** C10. While the capture flag is unset, a response changes nothing:
    the three lists, the three seen-sets and the metadata store are as
    they were before it arrived. *)
Theorem C10_no_capture_no_change `{Builtins : PyBuiltins} (r : response) (st : session) :
  capture st = false ->
  handle_response r st = (Ok tt, st)
  /\ bufs (exec (handle_response r) st) = bufs st
  /\ complex_meta (exec (handle_response r) st) = complex_meta st.
Proof.
  intros Hcap. unfold exec.
  rewrite handle_response_not_capturing by exact Hcap. done.
Qed.

Lemma C10_no_capture_witness :
  handle_response (Builtins:=blank_repr)
    {| url := u "https://new.land.naver.com/api/complexes/single-markers/2.0";
       body := Ok (JList [JDict [(u "markerId", JStr (u "1101")); (u "count", JInt 7)]]) |}
    {| bufs := empty_buffers; capture := false; complex_meta := ∅ |}
  = (Ok tt, {| bufs := empty_buffers; capture := false; complex_meta := ∅ |}).
Proof. apply C10_no_capture_no_change. reflexivity. Defined.

(** *** Listing counts never go down *)

(** Every marker's count in [st'] is at least its count in [st]. *)
Definition counts_le (st st' : session) : Prop :=
  forall cno, count_of (complex_meta st) cno <= count_of (complex_meta st') cno.

#[local] Instance counts_le_preorder : PreOrder counts_le.
Proof.
  split.
  - intros st cno. lia.
  - intros st1 st2 st3 H12 H23 cno. specialize (H12 cno). specialize (H23 cno). lia.
Qed.

Lemma count_of_insert (cno cno' : pystr) (m : meta) (cm : gmap pystr meta) :
  count_of (<[cno := m]> cm) cno' =
    if decide (cno = cno') then meta_count m else count_of cm cno'.
Proof.
  unfold count_of. rewrite lookup_insert. by destruct (decide (cno = cno')).
Qed.

Lemma count_of_setdefault (cno cno' : pystr) (name : json) (cm : gmap pystr meta) :
  count_of (setdefault cno {| meta_name := name; meta_count := 0 |} cm) cno'
    = count_of cm cno'.
Proof.
  unfold setdefault. destruct (cm !! cno) as [m|] eqn:Hm; [done|].
  rewrite count_of_insert. destruct (decide (cno = cno')) as [<-|]; [|done].
  unfold count_of. by rewrite Hm.
Qed.

(** The marker channel leaves the largest count seen so far. *)
Lemma count_of_update_marker_meta (cno cno' : pystr) (name cnt : json)
    (cm : gmap pystr meta) :
  count_of (update_marker_meta cno name cnt cm) cno' =
    if decide (cno = cno')
    then match as_int cnt with
         | Some c => Z.max (count_of cm cno) c
         | None => count_of cm cno
         end
    else count_of cm cno'.
Proof.
  unfold update_marker_meta. rewrite count_of_insert.
  destruct (decide (cno = cno')) as [<-|Hne]; [|apply count_of_setdefault].
  cbn. rewrite count_of_setdefault.
  destruct (as_int cnt) as [c|]; [|done].
  destruct (Z.ltb_spec (count_of cm cno) c); lia.
Qed.

(** Truncation is never below an integer that the float exceeds. *)
Lemma py_int_of_gt (total : json) (cur n : Z) :
  py_gt_int total cur = Ok true -> py_int_of total = Ok n -> cur <= n.
Proof.
  destruct total as [ |b|z|[m e|neg]|s|l|d]; simpl; try done.
  - intros [= Hlt%Z.ltb_lt] [= <-]. lia.
  - intros [= Hlt%Z.ltb_lt] [= <-]. lia.
  - destruct (Z.leb_spec 0 e) as [He|He].
    + intros [= Hlt%Z.ltb_lt] [= <-]. lia.
    + intros [= Hlt%Z.ltb_lt] [= <-].
      assert (Hpos : 0 < 2 ^ (- e)) by (apply Z.pow_pos_nonneg; lia).
      destruct (Z.le_gt_cases 0 m) as [Hm|Hm].
      * rewrite Z.quot_div_nonneg by lia.
        apply Z.div_le_lower_bound; lia.
      * (* a negative float: the quotient rounds up, towards zero *)
        assert (Hq : m <= 2 ^ (- e) * (m ÷ 2 ^ (- e))).
        { apply Z.mul_quot_ge; lia. }
        nia.
Qed.

Lemma update_total_counts_le cno total : preserves counts_le (update_total cno total).
Proof.
  split. intros st cno'. unfold update_total, exec, bind, modify, gets, lift, ret, on_meta. cbn.
  rewrite count_of_setdefault.
  destruct (py_gt_int total _) as [[|]|e] eqn:Hgt; cbn;
    rewrite ?count_of_setdefault; try lia.
  destruct (py_int_of total) as [n|e] eqn:Hn; cbn;
    rewrite ?count_of_setdefault; try lia.
  unfold set_count. rewrite count_of_insert.
  destruct (decide (cno = cno')) as [<-|]; cbn; rewrite ?count_of_setdefault; [|lia].
  by eapply py_int_of_gt.
Qed.

Lemma on_bufs_counts_le f : preserves counts_le (modify (on_bufs f)).
Proof. apply preserves_modify. intros st cno. cbn [on_bufs complex_meta]. lia. Qed.

(** One rule of the program logic for the relation [R], chosen by the
    shape of the program. *)
Ltac preserves_rule R :=
  lazymatch goal with
  | |- preserves _ (ret _) => apply (preserves_ret R)
  | |- preserves _ (lift _) => apply (preserves_lift R)
  | |- preserves _ (gets _) => apply (preserves_gets R)
  | |- preserves _ (try_pass _) => apply (preserves_try_pass R)
  | |- preserves _ (try_default _ _) => apply (preserves_try_default R)
  | |- preserves _ (for_each _ _) => apply (preserves_for_each R); intros ?
  | |- preserves _ (bind _ _) => apply (preserves_bind R); [|intros ?]
  | |- preserves _ (match _ with _ => _ end) => case_match
  | |- preserves _ (if _ then _ else _) => case_match
  end.

Section CountsMonotone.
Context `{Builtins : PyBuiltins}.

Lemma marker_meta_counts_le cno name cnt :
  preserves counts_le (modify (on_meta (update_marker_meta cno name cnt))).
Proof.
  apply preserves_modify. intros st cno'. cbn [on_meta complex_meta].
  rewrite count_of_update_marker_meta.
  destruct (decide _) as [<-|]; [destruct (as_int _)|]; lia.
Qed.

Local Ltac step_counts :=
  repeat lazymatch goal with
         | |- preserves _ (modify (on_bufs _)) => apply on_bufs_counts_le
         | |- preserves _ (modify (on_meta (update_marker_meta _ _ _))) =>
           apply marker_meta_counts_le
         | |- _ => preserves_rule counts_le
         end.

Lemma marker_item_counts_le url it : preserves counts_le (marker_item url it).
Proof. unfold marker_item. step_counts. Qed.

Lemma article_item_counts_le url a : preserves counts_le (article_item url a).
Proof. unfold article_item, add_article. step_counts. Qed.

Lemma trade_item_counts_le t : preserves counts_le (trade_item t).
Proof. unfold trade_item. step_counts. Qed.

Lemma collect_item_counts_le it : preserves counts_le (collect_item it).
Proof. unfold collect_item. step_counts. Qed.

Lemma collect_from_counts_le obj : preserves counts_le (collect_from obj).
Proof.
  induction obj as [ | | | | |l IH|d IH] using json_nested_ind;
    try apply (preserves_ret counts_le).
  - (* a list: dicts are looked at, the rest is searched *)
    simpl. induction IH as [|it l Hit _ IHl]; [apply (preserves_ret counts_le)|].
    apply (preserves_bind counts_le); [|intros _; exact IHl].
    destruct it; try exact Hit. apply collect_item_counts_le.
  - (* a dict: its "articleList", or else all its values *)
    simpl.
    match goal with
    | |- preserves _ (match ?found with Some _ => _ | None => ?values end) =>
      assert (Hfound : forall m, found = Some m -> preserves counts_le m);
      [|assert (Hvalues : preserves counts_le values)]
    end.
    { induction IH as [|[k v] d Hv _ IHd]; [done|].
      intros m. case_decide; [|apply IHd].
      destruct v; try done. intros [= <-]. exact Hv. }
    { clear Hfound.
      induction IH as [|[k v] d Hv _ IHd]; [apply (preserves_ret counts_le)|].
      apply (preserves_bind counts_le); [exact Hv|intros _; exact IHd]. }
    case_match; [by apply Hfound | exact Hvalues].
Qed.

Lemma handle_response_counts_le r : preserves counts_le (handle_response r).
Proof.
  unfold handle_response, classify.
  repeat lazymatch goal with
         | |- preserves _ (marker_item _ _) => apply marker_item_counts_le
         | |- preserves _ (article_item _ _) => apply article_item_counts_le
         | |- preserves _ (trade_item _) => apply trade_item_counts_le
         | |- preserves _ (collect_from _) => apply collect_from_counts_le
         | |- preserves _ (update_total _ _) => apply update_total_counts_le
         | |- _ => preserves_rule counts_le
         end.
Qed.


End CountsMonotone.

(** *** First seen wins *)

(** The three insertions a response can perform on the buffers. *)
Inductive insertion :=
| InsComplex (cno : pystr) (it : json)
| InsArticle (k : pykey) (a : json)
| InsTrade (k : trade_key) (t : json).

Definition insert1 (i : insertion) (b : buffers) : buffers :=
  match i with
  | InsComplex cno it => ins_complex cno it b
  | InsArticle k a => ins_article k a b
  | InsTrade k t => ins_trade k t b
  end.

Definition insert_all (ins : list insertion) (b : buffers) : buffers :=
  fold_left (fun b i => insert1 i b) ins b.

(** The key of an insertion is in its seen-set already. *)
Definition seen (i : insertion) (b : buffers) : Prop :=
  match i with
  | InsComplex cno _ => cno ∈ seen_complex b
  | InsArticle k _ => k ∈ seen_article b
  | InsTrade k _ => k ∈ seen_trade b
  end.

(** A later sighting of a key is dropped: neither the seen-set nor the
    list changes. *)
Lemma insert1_seen i b : seen i b -> insert1 i b = b.
Proof.
  destruct i; simpl; intros Hin;
    unfold ins_complex, ins_article, ins_trade; by rewrite decide_True.
Qed.

Lemma seen_insert1 i b : seen i (insert1 i b).
Proof.
  destruct i; simpl; unfold ins_complex, ins_article, ins_trade;
    case_decide; simpl; set_solver.
Qed.

(** Seen-sets only grow. *)
Lemma seen_insert1_mono i j b : seen i b -> seen i (insert1 j b).
Proof.
  destruct i, j; simpl; unfold ins_complex, ins_article, ins_trade;
    case_decide; simpl; set_solver.
Qed.

Lemma seen_insert_all_mono i ins b : seen i b -> seen i (insert_all ins b).
Proof.
  revert b. induction ins as [|j ins IH]; intros b Hi; [done|].
  simpl. apply IH. by apply seen_insert1_mono.
Qed.

Lemma insert_all_seen ins b : Forall (fun i => seen i b) ins -> insert_all ins b = b.
Proof.
  induction 1 as [|i ins Hi _ IH]; [done|].
  simpl. by rewrite insert1_seen.
Qed.

Lemma seen_after_insert_all ins b : Forall (fun i => seen i (insert_all ins b)) ins.
Proof.
  revert b. induction ins as [|i ins IH]; intros b; constructor.
  - simpl. apply seen_insert_all_mono, seen_insert1.
  - apply IH.
Qed.

Lemma insert_all_app ins1 ins2 b :
  insert_all (ins1 ++ ins2) b = insert_all ins2 (insert_all ins1 b).
Proof. apply fold_left_app. Qed.

(** Performing the same insertions again changes nothing. *)
Lemma insert_all_idempotent ins b :
  insert_all ins (insert_all ins b) = insert_all ins b.
Proof. apply insert_all_seen, seen_after_insert_all. Qed.

(** A computation is [regular] when its outcome and the insertions it
    performs are fixed by the response alone: whatever the state, it
    answers [res] after performing [ins] on the buffers, and it leaves the
    capture flag alone. *)
Inductive regular {A} (m : M session A) : Prop :=
| regular_intro (res : outcome A) (ins : list insertion) :
    (forall st, fst (m st) = res
                /\ bufs (exec m st) = insert_all ins (bufs st)
                /\ capture (exec m st) = capture st) ->
    regular m.

Lemma regular_idempotent {A} (m : M session A) st :
  regular m -> bufs (exec m (exec m st)) = bufs (exec m st).
Proof.
  intros [res ins Hm].
  destruct (Hm (exec m st)) as (_ & -> & _).
  destruct (Hm st) as (_ & -> & _).
  apply insert_all_idempotent.
Qed.

Lemma regular_ret {A} (a : A) : regular (ret a).
Proof. by apply (regular_intro _ (Ok a) []). Qed.

Lemma regular_lift {A} (o : outcome A) : regular (lift o).
Proof. by apply (regular_intro _ o []). Qed.

Lemma regular_on_meta f : regular (modify (on_meta f)).
Proof. by apply (regular_intro _ (Ok tt) []). Qed.

Lemma regular_insert i :
  regular (modify (on_bufs (insert1 i))).
Proof. by apply (regular_intro _ (Ok tt) [i]). Qed.

Lemma regular_bind {A B} (m : M session A) (k : A -> M session B) :
  regular m -> (forall a, regular (k a)) -> regular (bind m k).
Proof.
  intros [res ins Hm] Hk. destruct res as [a|e].
  - destruct (Hk a) as [res' ins' Hka].
    apply (regular_intro _ res' (ins ++ ins')). intros st.
    destruct (Hm st) as (Hres & Hb & Hc). unfold exec, bind in *.
    destruct (m st) as [o st1]. simpl in *. subst o.
    destruct (Hka st1) as (Hres' & Hb' & Hc').
    rewrite insert_all_app, <- Hb. split; [done|]. split; [done|]. congruence.
  - apply (regular_intro _ (Raise e) ins). intros st.
    destruct (Hm st) as (Hres & Hb & Hc). unfold exec, bind in *.
    destruct (m st) as [o st1]. simpl in *. by subst o.
Qed.

Lemma regular_try_pass (m : M session unit) : regular m -> regular (try_pass m).
Proof.
  intros [res ins Hm]. apply (regular_intro _ (Ok tt) ins). intros st.
  destruct (Hm st) as (_ & Hb & Hc). done.
Qed.

Lemma regular_try_default {A} (m : M session A) (d : A) :
  regular m -> regular (try_default m d).
Proof.
  intros [res ins Hm].
  apply (regular_intro _ (match res with Ok a => Ok a | Raise _ => Ok d end) ins).
  intros st.
  destruct (Hm st) as (Hres & Hb & Hc). unfold exec, try_default in *.
  destruct (m st) as [[a|e] st1]; simpl in *; by subst res.
Qed.

Lemma regular_for_each {A} (l : list A) (body : A -> M session unit) :
  (forall x, regular (body x)) -> regular (for_each l body).
Proof.
  intros Hbody. induction l as [|x l IH]; simpl.
  - apply regular_ret.
  - apply regular_bind; [apply Hbody | intros _; exact IH].
Qed.

(** The total count of a listing list raises or fails the same way in
    every state: a number goes through, an infinite total overflows in
    [int], anything else cannot be compared. *)
Lemma regular_update_total cno total : regular (update_total cno total).
Proof.
  apply (regular_intro _
           (match total with
            | JInt _ | JBool _ | JFloat (Fin _ _) | JFloat (Inf true) => Ok tt
            | JFloat (Inf false) => Raise OverflowError
            | _ => Raise TypeError
            end) []).
  intros st. unfold update_total, exec, bind, modify, gets, lift, ret. cbn.
  destruct total as [ |b|z|[m e|[|]]|s|l|d]; cbn; try done;
    by repeat case_match.
Qed.

Ltac regular_rule :=
  lazymatch goal with
  | |- regular (ret _) => apply regular_ret
  | |- regular (lift _) => apply regular_lift
  | |- regular (modify (on_meta _)) => apply regular_on_meta
  | |- regular (modify (on_bufs (ins_complex ?k ?v))) =>
    apply (regular_insert (InsComplex k v))
  | |- regular (modify (on_bufs (ins_article ?k ?v))) =>
    apply (regular_insert (InsArticle k v))
  | |- regular (modify (on_bufs (ins_trade ?k ?v))) =>
    apply (regular_insert (InsTrade k v))
  | |- regular (update_total _ _) => apply regular_update_total
  | |- regular (try_pass _) => apply regular_try_pass
  | |- regular (try_default _ _) => apply regular_try_default
  | |- regular (for_each _ _) => apply regular_for_each; intros ?
  | |- regular (bind _ _) => apply regular_bind; [|intros ?]
  | |- regular (match _ with _ => _ end) => case_match
  | |- regular (if _ then _ else _) => case_match
  end.

Section Dedup.
Context `{Builtins : PyBuiltins}.

Lemma regular_marker_item url it : regular (marker_item url it).
Proof. unfold marker_item. repeat regular_rule. Qed.

Lemma regular_article_item url a : regular (article_item url a).
Proof. unfold article_item, add_article. repeat regular_rule. Qed.

Lemma regular_trade_item t : regular (trade_item t).
Proof. unfold trade_item. repeat regular_rule. Qed.

Lemma regular_collect_item it : regular (collect_item it).
Proof. unfold collect_item. repeat regular_rule. Qed.

Lemma regular_collect_from obj : regular (collect_from obj).
Proof.
  induction obj as [ | | | | |l IH|d IH] using json_nested_ind;
    try apply regular_ret.
  - simpl. induction IH as [|it l Hit _ IHl]; [apply regular_ret|].
    apply regular_bind; [|intros _; exact IHl].
    destruct it; try exact Hit. apply regular_collect_item.
  - simpl.
    match goal with
    | |- regular (match ?found with Some _ => _ | None => ?values end) =>
      assert (Hfound : forall m, found = Some m -> regular m);
      [|assert (Hvalues : regular values)]
    end.
    { induction IH as [|[k v] d Hv _ IHd]; [done|].
      intros m. case_decide; [|apply IHd].
      destruct v; try done. intros [= <-]. exact Hv. }
    { clear Hfound.
      induction IH as [|[k v] d Hv _ IHd]; [apply regular_ret|].
      apply regular_bind; [exact Hv|intros _; exact IHd]. }
    case_match; [by apply Hfound | exact Hvalues].
Qed.

Lemma handle_response_classify r st :
  capture st = true -> handle_response r st = classify r st.
Proof.
  intros Hcap. unfold handle_response, bind, gets. by rewrite Hcap.
Qed.

Lemma regular_classify r : regular (classify r).
Proof.
  unfold classify.
  repeat lazymatch goal with
         | |- regular (marker_item _ _) => apply regular_marker_item
         | |- regular (article_item _ _) => apply regular_article_item
         | |- regular (trade_item _) => apply regular_trade_item
         | |- regular (collect_from _) => apply regular_collect_from
         | |- _ => regular_rule
         end.
Qed.

(** C6. Handling a response a second time leaves the three seen-sets and
    the three accumulation lists as the first handling left them, in
    every state of the session; and an insertion whose marker id, listing
    id or (date, area, floor, price) tuple is in its seen-set already
    changes neither the set nor the list. *)
Theorem C6_dedup_idempotent (r : response) (st : session) :
  bufs (exec (handle_response r) (exec (handle_response r) st))
    = bufs (exec (handle_response r) st)
  /\ (forall cno it b, cno ∈ seen_complex b -> ins_complex cno it b = b)
  /\ (forall k a b, k ∈ seen_article b -> ins_article k a b = b)
  /\ (forall k t b, k ∈ seen_trade b -> ins_trade k t b = b).
Proof.
  split; [|split; [|split]].
  - destruct (capture st) eqn:Hcap.
    + pose proof (regular_classify r) as Hreg.
      assert (Hcap' : capture (exec (classify r) st) = true).
      { destruct Hreg as [res ins Hr]. destruct (Hr st) as (_ & _ & ->). done. }
      unfold exec at 2 3. rewrite (handle_response_classify r st Hcap).
      fold (exec (classify r) st).
      unfold exec at 1. rewrite (handle_response_classify r _ Hcap').
      fold (exec (classify r) (exec (classify r) st)).
      by apply regular_idempotent.
    + unfold exec. rewrite (handle_response_not_capturing r st Hcap).
      cbn [snd]. by rewrite (handle_response_not_capturing r st Hcap).
  - intros cno it b Hin. apply (insert1_seen (InsComplex cno it)), Hin.
  - intros k a b Hin. apply (insert1_seen (InsArticle k a)), Hin.
  - intros k t b Hin. apply (insert1_seen (InsTrade k t)), Hin.
Qed.

End Dedup.

(** ** The sample grid *)

Lemma elem_of_py_range (a b x : Z) : x ∈ py_range a b <-> a <= x < b.
Proof.
  unfold py_range. rewrite list_elem_of_fmap. split.
  - intros (i & -> & Hi%elem_of_seq). lia.
  - intros Hx. exists (Z.to_nat (x - a)). split; [lia|].
    apply elem_of_seq. lia.
Qed.

Lemma length_py_range (a b : Z) : length (py_range a b) = Z.to_nat (b - a).
Proof. unfold py_range. by rewrite length_fmap, length_seq. Qed.

Lemma py_range_snoc (a b : Z) : a <= b -> py_range a (b + 1) = py_range a b ++ [b].
Proof.
  intros Hab. unfold py_range.
  replace (Z.to_nat (b + 1 - a)) with (S (Z.to_nat (b - a))) by lia.
  rewrite seq_S, fmap_app. simpl. do 3 f_equal. lia.
Qed.

(** The points of one ring: two rows of [2 r + 1] columns. *)
Definition ring_offsets (r : Z) : list (Z * Z * Z) :=
  dx ← py_range (- r) (r + 1);
  dy ← [- r; r];
  [(r, dx, dy)].

Lemma length_ring_offsets (r : Z) :
  length (ring_offsets r) = (2 * Z.to_nat (2 * r + 1))%nat.
Proof.
  unfold ring_offsets.
  replace (Z.to_nat (2 * r + 1)) with (length (py_range (- r) (r + 1)))
    by (rewrite length_py_range; lia).
  induction (py_range (- r) (r + 1)) as [|dx l IH]; [done|].
  cbn in *. rewrite IH. lia.
Qed.

Lemma grid_offsets_succ (n : nat) :
  grid_offsets (Z.of_nat (S n)) =
    grid_offsets (Z.of_nat n) ++ ring_offsets (Z.of_nat (S n)).
Proof.
  unfold grid_offsets.
  replace (Z.of_nat (S n) + 1) with (Z.of_nat n + 1 + 1) by lia.
  rewrite py_range_snoc by lia.
  rewrite bind_app. f_equal. cbn [mbind list_bind].
  rewrite app_nil_r. unfold ring_offsets.
  by replace (Z.of_nat n + 1) with (Z.of_nat (S n)) by lia.
Qed.

(** A sweep of [rings] rings has [2 * rings * (rings + 2)] points. *)
Lemma length_grid_offsets (n : nat) :
  length (grid_offsets (Z.of_nat n)) = (2 * n * (n + 2))%nat.
Proof.
  induction n as [|n IH]; [done|].
  rewrite grid_offsets_succ, length_app, IH, length_ring_offsets. lia.
Qed.

Lemma fmap_bind_list {A B C} (f : B -> C) (g : A -> list B) (l : list A) :
  f <$> (l ≫= g) = l ≫= (fun x => f <$> g x).
Proof.
  induction l as [|x l IH]; [done|].
  by rewrite !bind_cons, fmap_app, IH.
Qed.

Section GridProps.
Context {F : Type} `{Math : PyMath F}.

(** The coordinates of a sweep are the sample points of its offsets. *)
Lemma grid_coords_offsets (center_lat center_lon : F) (zoom rings step_px : Z) :
  grid_coords center_lat center_lon zoom rings step_px =
    map (sample_point (fst (ll_to_pixel center_lat center_lon zoom))
                      (snd (ll_to_pixel center_lat center_lon zoom)) zoom step_px)
        (grid_offsets rings).
Proof.
  unfold grid_coords, grid_offsets.
  destruct (ll_to_pixel center_lat center_lon zoom) as [cx cy]. cbn [fst snd].
  rewrite fmap_bind_list. apply list_bind_ext; [|done]. intros r.
  rewrite fmap_bind_list. apply list_bind_ext; [|done]. intros dx.
  reflexivity.
Qed.

(** C8. [grid_sweep] samples the top and the bottom row of each ring and
    nothing between them: every offset of ring [r] has [dy = -r] or
    [dy = r], with [dx] from [-r] to [r]; one ring gives exactly 6 sample
    points and two rings give exactly 16 ([2 * rings * (rings + 2)] in
    general). *)
Theorem C8_grid_sweep_point_count (center_lat center_lon : F) (zoom step_px : Z) :
  length (grid_coords center_lat center_lon zoom 1 step_px) = 6%nat
  /\ length (grid_coords center_lat center_lon zoom 2 step_px) = 16%nat
  /\ (forall n : nat,
        length (grid_coords center_lat center_lon zoom (Z.of_nat n) step_px)
          = (2 * n * (n + 2))%nat)
  /\ (forall rings r dx dy,
        (r, dx, dy) ∈ grid_offsets rings <->
        1 <= r <= rings /\ - r <= dx <= r /\ (dy = - r \/ dy = r)).
Proof.
  assert (Hlen : forall n : nat,
            length (grid_coords center_lat center_lon zoom (Z.of_nat n) step_px)
              = (2 * n * (n + 2))%nat).
  { intros n. by rewrite grid_coords_offsets, length_fmap, length_grid_offsets. }
  split; [apply (Hlen 1%nat)|]. split; [apply (Hlen 2%nat)|]. split; [exact Hlen|].
  intros rings r dx dy. unfold grid_offsets.
  rewrite list_elem_of_bind. split.
  - intros (r' & Hin & Hr%elem_of_py_range).
    apply list_elem_of_bind in Hin as (dx' & Hin & Hdx%elem_of_py_range).
    apply list_elem_of_bind in Hin as (dy' & Hin & Hdy).
    apply list_elem_of_singleton in Hin. injection Hin as -> -> ->.
    split; [lia|]. split; [lia|].
    apply elem_of_cons in Hdy as [->|Hdy]; [by left|].
    apply list_elem_of_singleton in Hdy. by right.
  - intros (Hr & Hdx & Hdy). exists r. split; [|apply elem_of_py_range; lia].
    apply list_elem_of_bind. exists dx. split; [|apply elem_of_py_range; lia].
    apply list_elem_of_bind. exists dy. split; [apply list_elem_of_singleton; done|].
    destruct Hdy as [->| ->]; [left|right; left].
Qed.

End GridProps.

(** ** CollectionScheduler *)

Import Scheduler.

(** How many moves a task still has to make: acquire and release. *)
Definition work_left {P : Type} (t : task (P:=P)) : nat :=
  match t with
  | Waiting _ _ => 2
  | Holding _ _ _ => 1
  | Done _ => 0
  end.

Definition holds {P : Type} (t : task (P:=P)) : nat :=
  if is_holding t then 1%nat else 0%nat.

(** What the trace must show of a task in a given state: a waiting task
    has neither acquired nor released, a holding task has acquired once
    and not released, a finished task has released as often as it
    acquired, at most once. *)
Definition task_events {P : Type} (t : option (task (P:=P))) (acq rel : nat) : Prop :=
  match t with
  | Some (Holding _ _ _) => acq = 1%nat /\ rel = 0%nat
  | Some (Done _) => acq = rel /\ (rel <= 1)%nat
  | Some (Waiting _ _) | None => acq = 0%nat /\ rel = 0%nat
  end.

Section PoolProps.
Context `{Builtins : PyBuiltins} {P : Type} `{Page : DetailPage P}.
Variable cfg : config.

Implicit Types (ts : list (task (P:=P))) (s : sched (P:=P)).

Lemma sum_insert (w : task -> nat) ts (i : nat) (t t' : task) :
  ts !! i = Some t ->
  (sum_list_with w (<[i := t']> ts) + w t = sum_list_with w ts + w t')%nat.
Proof.
  revert i. induction ts as [|x ts IH]; intros [|i] Hi; simplify_eq/=; [lia|].
  specialize (IH i Hi). lia.
Qed.

Lemma holding_count_sum s : holding_count s = sum_list_with holds (tasks s).
Proof.
  unfold holding_count. induction (tasks s) as [|t ts IH]; [done|].
  cbn [List.filter sum_list_with]. unfold holds at 1.
  destruct (is_holding t); cbn [length]; lia.
Qed.

Lemma acquires_snoc (i : nat) (tr : list event) (e : event) :
  acquires i (tr ++ [e]) =
    (acquires i tr + match e with Acquire j => if Nat.eqb i j then 1 else 0 | _ => 0 end)%nat.
Proof.
  unfold acquires. rewrite List.filter_app, length_app. f_equal.
  destruct e as [j|j]; simpl; [|done]. by destruct (Nat.eqb i j).
Qed.

Lemma releases_snoc (i : nat) (tr : list event) (e : event) :
  releases i (tr ++ [e]) =
    (releases i tr + match e with Release j => if Nat.eqb i j then 1 else 0 | _ => 0 end)%nat.
Proof.
  unfold releases. rewrite List.filter_app, length_app. f_equal.
  destruct e as [j|j]; simpl; [done|]. by destruct (Nat.eqb i j).
Qed.

(** The invariant of the pool: idle and held pages add up to the pool
    size, every move uses up one unit of work, and the trace of every
    task fits its state. *)
Definition pool_inv (W work0 : nat) (tr : list event) s : Prop :=
  (length (page_q s) + holding_count s = W)%nat
  /\ (length tr + sum_list_with work_left (tasks s) = work0)%nat
  /\ forall i, task_events (tasks s !! i) (acquires i tr) (releases i tr).

Lemma create_task_not_holding (a : json) : is_holding (create_task (P:=P) a) = false.
Proof. unfold create_task. by destruct (sale_price a). Qed.

Lemma pool_inv_init (detail_pages : list P) (backlog : list json) :
  pool_inv (length detail_pages)
    (sum_list_with work_left (tasks (init detail_pages backlog)))
    [] (init detail_pages backlog).
Proof.
  split; [|split; [done|]].
  - rewrite holding_count_sum. simpl.
    induction backlog as [|a l IH]; simpl; [lia|].
    unfold holds at 1. rewrite create_task_not_holding. simpl in *. lia.
  - intros i. simpl. rewrite list_lookup_fmap.
    destruct (backlog !! i) as [a|]; [|done]. simpl.
    unfold create_task. destruct (sale_price a); cbn; split; (done || lia).
Qed.

Lemma pool_inv_step W work0 tr s e s' :
  pool_inv W work0 tr s -> step cfg s e s' -> pool_inv W work0 (tr ++ [e]) s'.
Proof.
  intros (Hpool & Hwork & Hev) Hstep.
  destruct Hstep as [i a deal dp idle ts Hi | i a deal dp q ts Hi].
  - (* a waiting task draws the first idle page *)
    rewrite holding_count_sum in *. simpl in *.
    pose proof (sum_insert holds ts i _ (Holding a deal dp) Hi) as Hh.
    pose proof (sum_insert work_left ts i _ (Holding a deal dp) Hi) as Hw.
    cbn in Hh, Hw.
    split; [rewrite holding_count_sum; simpl; lia|].
    split; [rewrite length_app; simpl; lia|].
    intros j. rewrite acquires_snoc, releases_snoc. specialize (Hev j).
    cbn [tasks].
    destruct (Nat.eqb_spec j i) as [->|Hne].
    + rewrite Hi in Hev. simpl in Hev.
      rewrite list_lookup_insert_eq by (by eapply lookup_lt_Some). simpl. lia.
    + rewrite list_lookup_insert_ne by done.
      destruct (ts !! j) as [[]|]; simpl in *; lia.
  - (* a holding task hands its page back, whatever came of the scrape *)
    rewrite holding_count_sum in *. simpl in *.
    pose proof (sum_insert holds ts i _
                  (Done (finish cfg a deal (fst (scrape_with cfg a dp)))) Hi) as Hh.
    pose proof (sum_insert work_left ts i _
                  (Done (finish cfg a deal (fst (scrape_with cfg a dp)))) Hi) as Hw.
    cbn in Hh, Hw.
    split; [rewrite holding_count_sum; cbn [page_q tasks]; rewrite length_app; simpl; lia|].
    split; [rewrite length_app; simpl; lia|].
    intros j. rewrite acquires_snoc, releases_snoc. specialize (Hev j).
    cbn [tasks].
    destruct (Nat.eqb_spec j i) as [->|Hne].
    + rewrite Hi in Hev. simpl in Hev.
      rewrite list_lookup_insert_eq by (by eapply lookup_lt_Some). simpl. lia.
    + rewrite list_lookup_insert_ne by done.
      destruct (ts !! j) as [[]|]; simpl in *; lia.
Qed.

Lemma pool_inv_exec (detail_pages : list P) (backlog : list json) tr s :
  exec_trace cfg (init detail_pages backlog) tr s ->
  pool_inv (length detail_pages)
    (sum_list_with work_left (tasks (init detail_pages backlog))) tr s.
Proof.
  intros Hexec. remember (init detail_pages backlog) as s0 eqn:Hs0.
  induction Hexec as [s0|s0 tr s1 e s2 _ IH Hstep]; subst s0.
  - apply pool_inv_init.
  - eapply pool_inv_step; [by apply IH | exact Hstep].
Qed.

Lemma work_left_init (detail_pages : list P) (backlog : list json) :
  (sum_list_with work_left (tasks (init detail_pages backlog)) <= 2 * length backlog)%nat.
Proof.
  simpl. induction backlog as [|a l IH]; simpl; [lia|].
  unfold create_task at 1. destruct (sale_price a); simpl; lia.
Qed.

(** A task that holds a page can always hand it back. *)
Lemma release_enabled s (i : nat) a deal dp :
  tasks s !! i = Some (Holding a deal dp) ->
  exists s', step cfg s (Release i) s'
             /\ length (page_q s') = S (length (page_q s)).
Proof.
  intros Hi. destruct s as [q ts]. simpl in Hi.
  eexists. split; [by apply step_release|].
  simpl. rewrite length_app. simpl. lia.
Qed.

(** While a task is unfinished and the pool was not created empty, the
    event loop can move. *)
Lemma pool_progress (W work0 : nat) tr s (i : nat) (t : task) :
  pool_inv W work0 tr s -> (0 < W)%nat ->
  tasks s !! i = Some t -> is_done t = false ->
  exists e s', step cfg s e s'.
Proof.
  intros (Hpool & _ & _) HW Hi Hdone.
  destruct (decide (holding_count s = 0%nat)) as [Hnone|Hsome].
  - (* nobody holds a page: the pool is full, so a waiting task gets one *)
    destruct t as [a deal|a deal dp|res]; [| |done].
    + destruct s as [[|dp idle] ts]; simpl in *; [lia|].
      do 2 eexists. by apply step_acquire.
    + exfalso. rewrite holding_count_sum in Hnone.
      pose proof (sum_insert holds (tasks s) i _ (Done (Ok None)) Hi) as Hh.
      cbn in Hh. lia.
  - (* somebody holds a page and can release it *)
    assert (exists j a deal dp, tasks s !! j = Some (Holding a deal dp))
      as (j & a & deal & dp & Hj).
    { unfold holding_count in Hsome.
      destruct (List.filter is_holding (tasks s)) as [|h hs] eqn:Hf; [done|].
      assert (Hin : In h (List.filter is_holding (tasks s))) by (rewrite Hf; by left).
      apply filter_In in Hin as [Hin Hh]. destruct h; try done.
      apply list_elem_of_In, list_elem_of_lookup in Hin as [j Hj]. eauto. }
    destruct (release_enabled s j a deal dp Hj) as (s' & Hstep & _). eauto.
Qed.

(** The two moves of a task alone on the pool are [fetch_one] itself:
    the same result, the same pool afterwards. *)
Lemma fetch_one_two_moves (a : json) (deal : option Z) (dp : P) (idle : list P) :
  sale_price a = Ok deal ->
  fetch_one cfg a (dp :: idle)
    = Some (finish cfg a deal (fst (scrape_with cfg a dp)),
            idle ++ [snd (scrape_with cfg a dp)])
  /\ exec_trace cfg {| page_q := dp :: idle; tasks := [create_task a] |}
       [Acquire 0%nat; Release 0%nat]
       {| page_q := idle ++ [snd (scrape_with cfg a dp)];
          tasks := [Done (finish cfg a deal (fst (scrape_with cfg a dp)))] |}.
Proof.
  intros Hprice. split.
  - unfold fetch_one, finish. rewrite Hprice.
    by destruct (scrape_with cfg a dp) as [[x|e] dp'].
  - unfold create_task. rewrite Hprice.
    change [Acquire 0%nat; Release 0%nat] with (([] ++ [Acquire 0%nat]) ++ [Release 0%nat]).
    eapply exec_snoc; [eapply exec_snoc; [apply exec_nil|]|].
    + by apply (step_acquire cfg 0%nat a deal dp idle [Waiting a deal]).
    + by apply (step_release cfg 0%nat a deal dp idle [Holding a deal dp]).
Qed.

(** C9. In every execution of the pool, from [W] pages and any backlog:
    no more than [W] fetches hold a page at a time (held and idle pages
    always add up to [W]); no task acquires twice, releases twice or
    releases what it did not acquire; a task that holds a page has
    acquired once and can always hand it back, the release step being
    the same whether the scrape returned or raised; a finished task has
    released exactly what it acquired; an execution takes at most two
    moves per listing and can go on until every task is finished, and
    then all [W] pages are idle again. *)
Theorem C9_pool_bound_and_release (detail_pages : list P) (backlog : list json)
    (tr : list event) (s : sched) :
  exec_trace cfg (init detail_pages backlog) tr s ->
  (holding_count s <= length detail_pages)%nat
  /\ (length (page_q s) + holding_count s = length detail_pages)%nat
  /\ (forall i, (releases i tr <= acquires i tr <= 1)%nat)
  /\ (forall i a deal dp, tasks s !! i = Some (Holding a deal dp) ->
        acquires i tr = 1%nat /\ releases i tr = 0%nat
        /\ exists s', step cfg s (Release i) s'
                      /\ tasks s' !! i
                         = Some (Done (finish cfg a deal (fst (scrape_with cfg a dp))))
                      /\ length (page_q s') = S (length (page_q s)))
  /\ (forall i res, tasks s !! i = Some (Done res) -> releases i tr = acquires i tr)
  /\ (length tr <= 2 * length backlog)%nat
  /\ (detail_pages <> [] ->
      forall i t, tasks s !! i = Some t -> is_done t = false ->
      exists e s', step cfg s e s')
  /\ (Forall (fun t => is_done t = true) (tasks s) ->
      length (page_q s) = length detail_pages).
Proof.
  intros Hexec. pose proof (pool_inv_exec _ _ _ _ Hexec) as Hinv.
  pose proof Hinv as (Hpool & Hwork & Hev).
  split; [lia|]. split; [exact Hpool|]. split; [|split; [|split; [|split; [|split]]]].
  - intros i. specialize (Hev i).
    destruct (tasks s !! i) as [[]|]; simpl in Hev; lia.
  - intros i a deal dp Hi. specialize (Hev i). rewrite Hi in Hev.
    destruct Hev as [-> ->]. split; [done|]. split; [done|].
    destruct s as [q ts]. simpl in Hi. eexists.
    split; [by apply step_release|]. simpl.
    rewrite list_lookup_insert_eq by (by eapply lookup_lt_Some).
    split; [done|]. rewrite length_app. simpl. lia.
  - intros i res Hi. specialize (Hev i). rewrite Hi in Hev. simpl in Hev. lia.
  - pose proof (work_left_init detail_pages backlog). lia.
  - intros Hne i t Hi Hdone. eapply pool_progress; [exact Hinv| |exact Hi|exact Hdone].
    destruct detail_pages; [done|simpl; lia].
  - intros Hall. rewrite <- Hpool.
    assert (Hzero : holding_count s = 0%nat); [|lia].
    unfold holding_count. clear -Hall.
    induction Hall as [|t ts Ht _ IH]; [done|].
    simpl. destruct t; try done.
Qed.

End PoolProps.

(** One page, two listings on a site that cannot be reached: the first
    task draws the page while the second one waits. *)
Lemma C9_pool_witness :
  exists s : sched (P:=unit),
    exec_trace (Builtins:=blank_repr) (Page:=unreachable_tab) default_config
      (init [tt] [listing_1; listing_1]) [Acquire 0%nat] s
    /\ (holding_count s <= 1)%nat.
Proof.
  assert (Hexec :
    exec_trace (Builtins:=blank_repr) (Page:=unreachable_tab) default_config
      (init [tt] [listing_1; listing_1]) ([] ++ [Acquire 0%nat])
      {| page_q := [];
         tasks := <[0%nat := Holding listing_1 (Some 300000000) tt]>
                    [Waiting listing_1 (Some 300000000);
                     Waiting listing_1 (Some 300000000)] |}).
  { eapply exec_snoc; [apply exec_nil|].
    change (init [tt] [listing_1; listing_1])
      with {| page_q := [tt];
              tasks := [create_task (P:=unit) listing_1; create_task listing_1] |}.
    assert (Hc : create_task (P:=unit) listing_1 = Waiting listing_1 (Some 300000000))
      by (vm_compute; reflexivity).
    rewrite Hc. by apply step_acquire. }
  eexists. split; [exact Hexec|].
  apply (C9_pool_bound_and_release (Builtins:=blank_repr) (Page:=unreachable_tab)
           default_config [tt] [listing_1; listing_1] _ _ Hexec).
Defined.


(** * Further properties of the code *)

(** ** What a successful match tells *)

(** When the matcher succeeds, its continuation succeeded on a suffix of
    the input: the pattern consumed the prefix [pre] before it. *)
Lemma rmatch_continues {R : Type} (r : regex) :
  forall (s : pystr) (pos : nat) (caps : captures)
         (k : pystr -> nat -> captures -> option R) (x : R),
    rmatch r s pos caps k = Some x ->
    exists pre s' caps',
      s = pre ++ s' /\ k s' (pos + length pre)%nat caps' = Some x.
Proof.
  induction r as [ |c|p|r1 IH1 r2 IH2|r1 IH1 r2 IH2|r0 IH|lo hi r0 IH|i r0 IH| | ];
    intros s pos caps k x Hm.
  - exists [], s, caps. by rewrite Nat.add_0_r.
  - destruct s as [|y s']; [done|]. simpl in Hm.
    destruct (y =? c)%N; [|done].
    exists [y], s', caps. by rewrite Nat.add_1_r.
  - destruct s as [|y s']; [done|]. simpl in Hm.
    destruct (p y); [|done].
    exists [y], s', caps. by rewrite Nat.add_1_r.
  - simpl in Hm. apply IH1 in Hm as (pre1 & s1 & caps1 & -> & Hm).
    apply IH2 in Hm as (pre2 & s2 & caps2 & -> & Hm).
    exists (pre1 ++ pre2), s2, caps2.
    by rewrite <- app_assoc, length_app, Nat.add_assoc.
  - simpl in Hm. destruct (rmatch r1 s pos caps k) eqn:H1.
    + injection Hm as ->. by apply IH1 in H1.
    + by apply IH2 in Hm.
  - simpl in Hm. revert Hm. generalize (length s) at 1. intros fuel.
    revert s pos caps. induction fuel as [|fuel IHf]; intros s pos caps Hm.
    + exists [], s, caps. by rewrite Nat.add_0_r.
    + match type of Hm with match ?m with _ => _ end = _ => destruct m eqn:Hb end.
      * injection Hm as ->.
        apply IH in Hb as (pre1 & s1 & caps1 & -> & Hb).
        destruct (Nat.ltb pos (pos + length pre1)); [|done].
        apply IHf in Hb as (pre2 & s2 & caps2 & -> & Hb).
        exists (pre1 ++ pre2), s2, caps2.
        by rewrite <- app_assoc, length_app, Nat.add_assoc.
      * exists [], s, caps. by rewrite Nat.add_0_r.
  - simpl in Hm. revert lo s pos caps Hm.
    induction hi as [|hi IHh]; intros lo s pos caps Hm.
    + destruct lo; [|done]. exists [], s, caps. by rewrite Nat.add_0_r.
    + destruct lo as [|lo].
      * match type of Hm with match ?m with _ => _ end = _ => destruct m eqn:Hb end.
        -- injection Hm as ->.
           apply IH in Hb as (pre1 & s1 & caps1 & -> & Hb).
           apply IHh in Hb as (pre2 & s2 & caps2 & -> & Hb).
           exists (pre1 ++ pre2), s2, caps2.
           by rewrite <- app_assoc, length_app, Nat.add_assoc.
        -- exists [], s, caps. by rewrite Nat.add_0_r.
      * apply IH in Hm as (pre1 & s1 & caps1 & -> & Hb).
        apply IHh in Hb as (pre2 & s2 & caps2 & -> & Hb).
        exists (pre1 ++ pre2), s2, caps2.
        by rewrite <- app_assoc, length_app, Nat.add_assoc.
  - simpl in Hm. apply IH in Hm as (pre & s' & caps' & -> & Hm). eauto.
  - simpl in Hm. destruct (Nat.eqb pos 0); [|done].
    exists [], s, caps. by rewrite Nat.add_0_r.
  - simpl in Hm. exists [], s, caps. rewrite Nat.add_0_r.
    destruct s as [|c [|c' s']]; [done| |done]. by destruct (c =? c_newline)%N.
Qed.

Lemma rmatch_Cat {R : Type} (r1 r2 : regex) (s : pystr) (pos : nat)
    (caps : captures) (k : pystr -> nat -> captures -> option R) :
  rmatch (Cat r1 r2) s pos caps k =
    rmatch r1 s pos caps (fun s' pos' caps' => rmatch r2 s' pos' caps' k).
Proof. reflexivity. Qed.

(** A pattern that ends in a literal character cannot match a text
    without that character. *)
Lemma rmatch_literal_absent {R : Type} (r : regex) (c : char) (s : pystr)
    (pos : nat) (caps : captures) (k : pystr -> nat -> captures -> option R) :
  c ∉ s -> rmatch (Cat r (Chr c)) s pos caps k = None.
Proof.
  intros Hc. destruct (rmatch _ _ _ _ _) as [x|] eqn:Hm; [|done].
  simpl in Hm. apply rmatch_continues in Hm as (pre & s' & caps' & -> & Hm).
  destruct s' as [|y s']; [done|]. simpl in Hm.
  destruct (N.eqb_spec y c) as [->|]; [|done].
  exfalso. apply Hc. set_solver.
Qed.

Lemma search_from_absent (r : regex) (c : char) (s : pystr) (pos : nat) :
  (forall s' pos', c ∉ s' -> match_at r s' pos' = None) ->
  c ∉ s -> search_from r s pos = None.
Proof.
  intros Hr. revert pos. induction s as [|y s IH]; intros pos Hc; simpl.
  - by rewrite Hr.
  - rewrite Hr by done. apply IH. set_solver.
Qed.

(** Without 억, 만 or 천 in the text the three unit patterns find nothing. *)
Lemma search_re_eok_absent (t : pystr) : c_eok ∉ t -> search re_eok t = None.
Proof.
  apply (search_from_absent _ c_eok). intros s' pos' Hc.
  by apply rmatch_literal_absent.
Qed.

Lemma search_re_man_absent (t : pystr) : c_man ∉ t -> search re_man t = None.
Proof.
  apply (search_from_absent _ c_man). intros s' pos' Hc.
  by apply rmatch_literal_absent.
Qed.

Lemma search_re_cheon_absent (t : pystr) : c_cheon ∉ t -> search re_cheon t = None.
Proof.
  apply (search_from_absent _ c_cheon). intros s' pos' Hc.
  unfold match_at, re_cheon. rewrite rmatch_Cat.
  by apply rmatch_literal_absent.
Qed.

(** A greedy [p*] on a text made of [p] characters only runs to its end. *)
Lemma rmatch_star_all {R : Type} (p : char -> bool) (s : pystr) (pos : nat)
    (caps : captures) (k : pystr -> nat -> captures -> option R) (x : R) :
  Forall (fun c => p c = true) s ->
  k [] (pos + length s)%nat caps = Some x ->
  rmatch (Star (Cls p)) s pos caps k = Some x.
Proof.
  intros Hs. cbn [rmatch].
  assert (Hfuel : (length s <= length s)%nat) by lia. revert Hfuel.
  generalize (length s) at 2 4. intros fuel. revert fuel pos.
  induction Hs as [|c s Hc Hs IH]; intros fuel pos Hfuel Hk.
  - rewrite Nat.add_0_r in Hk. by destruct fuel.
  - destruct fuel as [|fuel]; [simpl in Hfuel; lia|].
    cbn [rmatch]. rewrite Hc.
    assert (Hlt : Nat.ltb pos (S pos) = true) by (apply Nat.ltb_lt; lia).
    rewrite Hlt. rewrite IH; [done| simpl in Hfuel; lia |].
    rewrite <- Hk. f_equal. simpl. lia.
Qed.

(** What a greedy [p*] consumed is made of [p] characters. *)
Lemma rmatch_star_consumed {R : Type} (p : char -> bool) (s : pystr) (pos : nat)
    (caps : captures) (k : pystr -> nat -> captures -> option R) (x : R) :
  rmatch (Star (Cls p)) s pos caps k = Some x ->
  exists pre s', s = pre ++ s' /\ Forall (fun c => p c = true) pre
                 /\ k s' (pos + length pre)%nat caps = Some x.
Proof.
  cbn [rmatch]. generalize (length s) at 1. intros fuel. revert s pos.
  induction fuel as [|fuel IH]; intros s pos Hm.
  - exists [], s. by rewrite Nat.add_0_r.
  - destruct s as [|c s]; cbn [rmatch] in Hm.
    + exists [], []. by rewrite Nat.add_0_r.
    + destruct (p c) eqn:Hc; [|exists [], (c :: s); by rewrite Nat.add_0_r].
      assert (Hlt : Nat.ltb pos (S pos) = true) by (apply Nat.ltb_lt; lia).
      rewrite Hlt in Hm.
      match type of Hm with match ?m with _ => _ end = _ => destruct m eqn:Hb end.
      * injection Hm as ->. apply IH in Hb as (pre & s' & -> & Hpre & Hk).
        exists (c :: pre), s'. split; [done|]. split; [by constructor|].
        rewrite <- Hk. f_equal. simpl. lia.
      * exists [], (c :: s). by rewrite Nat.add_0_r.
Qed.

(** [\d+] matches a whole text exactly when the text is one or more
    digits. *)
Lemma fullmatch_digits (t : pystr) :
  is_Some (fullmatch re_digits t) <->
  t <> [] /\ Forall (fun c => py_isdigit c = true) t.
Proof.
  unfold fullmatch, re_digits, Plus, digit. split.
  - intros [caps Hm]. destruct t as [|c t]; [done|]. split; [done|].
    cbn [rmatch] in Hm. destruct (py_isdigit c) eqn:Hc; [|done].
    apply rmatch_star_consumed in Hm as (pre & s' & -> & Hpre & Hk).
    destruct s'; [|done]. rewrite app_nil_r. by constructor.
  - intros [Hne Ht]. destruct Ht as [|c t Hc Ht]; [done|].
    cbn [rmatch]. rewrite Hc. exists []. by apply rmatch_star_all.
Qed.

(** ** CurrencyParser: the sign and the bare number *)

Lemma py_decimal_nonneg (c : char) (z : Z) : py_decimal c = Some z -> 0 <= z.
Proof.
  unfold py_decimal. destruct (List.find _ _); [intros [= <-]; lia | done].
Qed.

Lemma py_int_nonneg (s : pystr) : 0 <= py_int s.
Proof.
  unfold py_int.
  assert (Hacc : forall acc, 0 <= acc ->
            0 <= fold_left (fun acc c => 10 * acc + default 0 (py_decimal c)) s acc);
    [|by apply Hacc].
  induction s as [|c s IH]; intros acc Hacc; [done|].
  simpl. apply IH. destruct (py_decimal c) as [z|] eqn:Hz; simpl; [|lia].
  apply py_decimal_nonneg in Hz. lia.
Qed.

Lemma round_half_even_nonneg (p q : Z) : 0 <= p -> 0 < q -> 0 <= round_half_even p q.
Proof.
  intros Hp Hq. unfold round_half_even.
  assert (0 <= p / q) by (apply Z.div_pos; lia).
  repeat case_match; lia.
Qed.

(** Rounding a quotient that is not negative gives a float that is not
    negative. *)
Lemma round_pos_nonneg (p q : Z) :
  0 <= p -> 0 < q ->
  match round_pos p q with
  | Fin m _ => 0 <= m
  | Inf neg => neg = false
  end.
Proof.
  intros Hp Hq. unfold round_pos. destruct (p =? 0); [lia|]. cbv zeta.
  set (e := Z.max _ _). clearbody e.
  destruct (Z.leb_spec 0 e) as [He|He]; cbn [andb].
  - destruct (2 ^ 1024 <=? _); [done|].
    apply round_half_even_nonneg; [lia|].
    apply Z.mul_pos_pos; [lia | apply Z.pow_pos_nonneg; lia].
  - apply round_half_even_nonneg; [|lia].
    apply Z.mul_nonneg_nonneg; [lia | apply Z.pow_nonneg; lia].
Qed.

Lemma eok_total_nonneg (g : pystr) : 0 <= eok_total g.
Proof.
  unfold eok_total, py_float. destruct (split_dot g) as [ip fp].
  pose proof (round_pos_nonneg (py_int (ip ++ fp)) (10 ^ Z.of_nat (length fp))
                (py_int_nonneg _)) as H1.
  destruct (round_pos _ _) as [m e|neg].
  - specialize (H1 ltac:(apply Z.pow_pos_nonneg; lia)).
    unfold fmul_int, round_q.
    assert (Hpow : forall n, 0 <= n -> 0 < 2 ^ n) by (intros; apply Z.pow_pos_nonneg; lia).
    destruct (Z.leb_spec 0 e) as [He|He].
    + pose proof (Hpow e He).
      destruct (Z.ltb_spec (m * 100000000 * 2 ^ e) 0) as [Hneg|_]; [nia|].
      pose proof (round_pos_nonneg (m * 100000000 * 2 ^ e) 1 ltac:(nia) ltac:(lia)) as H2.
      destruct (round_pos _ _) as [m' e'|]; simpl; [|lia].
      destruct (Z.leb_spec 0 e'); [pose proof (Hpow e'); nia|].
      apply Z.quot_pos; [lia|]. pose proof (Hpow (- e')). lia.
    + pose proof (Hpow (- e) ltac:(lia)).
      destruct (Z.ltb_spec (m * 100000000) 0) as [Hneg|_]; [nia|].
      pose proof (round_pos_nonneg (m * 100000000) (2 ^ (- e)) ltac:(nia) ltac:(lia)) as H2.
      destruct (round_pos _ _) as [m' e'|]; simpl; [|lia].
      destruct (Z.leb_spec 0 e'); [pose proof (Hpow e'); nia|].
      apply Z.quot_pos; [lia|]. pose proof (Hpow (- e')). lia.
  - simpl. lia.
Qed.

Lemma man_after_eok_nonneg (t : pystr) : 0 <= man_after_eok t.
Proof.
  unfold man_after_eok.
  repeat case_match; try lia;
    match goal with |- context [py_int ?g] => pose proof (py_int_nonneg g); lia end.
Qed.

Lemma man_without_eok_nonneg (t : pystr) : 0 <= man_without_eok t.
Proof.
  unfold man_without_eok.
  repeat case_match; try lia;
    match goal with |- context [py_int ?g] => pose proof (py_int_nonneg g); lia end.
Qed.

Lemma parse_kr_money_to_won_nonneg (s : pystr) (v : Z) :
  parse_kr_money_to_won s = Some v -> 0 <= v.
Proof.
  intros Hv. destruct s as [|c0 s0]; [done|].
  rewrite parse_kr_money_to_won_unfold in Hv by done. cbv zeta in Hv.
  pose proof (py_int_nonneg (money_text (c0 :: s0))) as Hint.
  pose proof (man_after_eok_nonneg (money_text (c0 :: s0))) as Hman1.
  pose proof (man_without_eok_nonneg (money_text (c0 :: s0))) as Hman2.
  destruct (search re_eok _) as [m|].
  - pose proof (eok_total_nonneg (group (m_caps m) 1)) as Htot.
    repeat case_match; simplify_eq; lia.
  - repeat case_match; simplify_eq; lia.
Qed.

(** X1. [parse_kr_money_to_won] answers [None] to the empty string and
    to nothing else, and an amount it returns is never negative. *)
Theorem parse_kr_money_to_won_amount (s : pystr) :
  (parse_kr_money_to_won s = None <-> s = [])
  /\ (forall v, parse_kr_money_to_won s = Some v -> 0 <= v).
Proof.
  split; [apply parse_kr_money_to_won_None | apply parse_kr_money_to_won_nonneg].
Qed.

(** The digits 0-9. *)
Definition ascii_digit (c : char) : Prop := (48 <= c <= 57)%N.

(** Characters that [money_text] leaves in place: no white space, no
    comma, no 원. *)
Definition plain_char (c : char) : Prop :=
  py_isspace c = false /\ c <> c_comma /\ c <> c_won.

Lemma ascii_digit_isdigit (c : char) : ascii_digit c -> py_isdigit c = true.
Proof.
  intros [Hlo Hhi]. unfold py_isdigit, py_decimal, decimal_zeros. cbn [List.find].
  assert (H : ((48 <=? c) && (c <? 48 + 10))%N = true); [|by rewrite H].
  apply andb_true_intro. split; [apply N.leb_le | apply N.ltb_lt]; lia.
Qed.

Lemma ascii_digit_plain (c : char) : ascii_digit c -> plain_char c.
Proof.
  intros [Hlo Hhi]. unfold plain_char, py_isspace, c_comma, c_won.
  split; [|lia].
  repeat match goal with
         | |- context [(?a <=? ?b)%N] => destruct (N.leb_spec a b); try lia
         | |- context [(?a =? ?b)%N] => destruct (N.eqb_spec a b); try lia
         end; reflexivity.
Qed.

Lemma lstrip_plain (t : pystr) :
  match t with [] => True | c :: _ => py_isspace c = false end -> lstrip t = t.
Proof. destruct t as [|c t]; [done|]. simpl. by intros ->. Qed.

Lemma strip_plain (t : pystr) :
  Forall (fun c => py_isspace c = false) t -> strip t = t.
Proof.
  intros Ht. unfold strip, rstrip.
  rewrite (lstrip_plain t) by (by destruct Ht).
  rewrite lstrip_plain; [apply rev_involutive|].
  apply Forall_rev in Ht. by destruct Ht.
Qed.

Lemma remove_char_absent (c : char) (t : pystr) :
  Forall (fun x => x <> c) t -> remove_char c t = t.
Proof.
  induction 1 as [|x t Hx _ IH]; [done|].
  unfold remove_char in *. simpl.
  destruct (N.eqb_spec x c); [done|]. by rewrite IH.
Qed.

Lemma remove_char_app (c : char) (a b : pystr) :
  remove_char c (a ++ b) = remove_char c a ++ remove_char c b.
Proof. apply List.filter_app. Qed.

Lemma contains_char_absent (c : char) (t : pystr) :
  Forall (fun x => x <> c) t -> contains [c] t = false.
Proof.
  induction 1 as [|x t Hx _ IH]; [done|].
  simpl in *. destruct (N.eqb_spec c x); [done|]. by rewrite IH.
Qed.

Lemma plain_not_space (t : pystr) :
  Forall plain_char t -> Forall (fun c => py_isspace c = false) t.
Proof. intros Ht. eapply Forall_impl; [exact Ht|]. by intros c (? & _). Qed.

Lemma plain_no_space_char (t : pystr) :
  Forall plain_char t -> Forall (fun c => c <> c_space) t.
Proof. intros Ht. eapply Forall_impl; [exact Ht|]. intros c (Hs & _) ->. done. Qed.

Lemma plain_no_comma (t : pystr) :
  Forall plain_char t -> Forall (fun c => c <> c_comma) t.
Proof. intros Ht. eapply Forall_impl; [exact Ht|]. by intros c (_ & ? & _). Qed.

Lemma plain_no_won (t : pystr) :
  Forall plain_char t -> Forall (fun c => c <> c_won) t.
Proof. intros Ht. eapply Forall_impl; [exact Ht|]. by intros c (_ & _ & ?). Qed.

(** A text of plain characters reaches the patterns as it is; with a
    final 원 the mark is noted and taken off. *)
Lemma money_text_plain (t : pystr) : Forall plain_char t -> money_text t = t.
Proof.
  intros Ht. unfold money_text.
  rewrite strip_plain by (by apply plain_not_space).
  rewrite (remove_char_absent c_space) by (by apply plain_no_space_char).
  rewrite (remove_char_absent c_comma) by (by apply plain_no_comma).
  by apply remove_char_absent, plain_no_won.
Qed.

Lemma money_text_plain_won (t : pystr) :
  Forall plain_char t ->
  money_text (t ++ [c_won]) = t
  /\ contains [c_won]
       (remove_char c_comma (remove_char c_space (strip (t ++ [c_won])))) = true.
Proof.
  intros Ht. unfold money_text.
  assert (Hsp : Forall (fun c => py_isspace c = false) (t ++ [c_won])).
  { apply Forall_app. split; [by apply plain_not_space | by repeat constructor]. }
  rewrite strip_plain by done.
  rewrite (remove_char_absent c_space).
  2:{ eapply Forall_impl; [exact Hsp|]. by intros c Hc ->. }
  rewrite (remove_char_absent c_comma).
  2:{ apply Forall_app. split; [by apply plain_no_comma | by repeat constructor]. }
  split.
  - rewrite remove_char_app, remove_char_absent by (by apply plain_no_won).
    apply app_nil_r.
  - clear. induction t as [|x t IH]; [done|]. simpl in *. rewrite IH. apply orb_true_r.
Qed.

Lemma digits_plain (t : pystr) : Forall ascii_digit t -> Forall plain_char t.
Proof. intros Ht. eapply Forall_impl; [exact Ht | apply ascii_digit_plain]. Qed.

Lemma digits_without (c : char) (t : pystr) :
  py_isdigit c = false -> Forall ascii_digit t -> c ∉ t.
Proof.
  intros Hc Ht Hin. rewrite Forall_forall in Ht.
  apply Ht, ascii_digit_isdigit in Hin. congruence.
Qed.

(** [int] refuses a text of more digits than this (the interpreter's
    default limit); the model's [py_int] converts any text, so a theorem
    that says what a call returns keeps its texts within the limit. *)
Definition int_max_str_digits : nat := 4300.

(** X2. A bare number counts in units of 만 (10,000 won); written with 원
    it is in won already: for a non-empty text [t] of the digits 0-9,
    [parse_kr_money_to_won t] is [int(t) * 10000] and
    [parse_kr_money_to_won (t + "원")] is [int(t)]. *)
Theorem parse_bare_number (t : pystr) :
  t <> [] -> Forall ascii_digit t -> (length t <= int_max_str_digits)%nat ->
  parse_kr_money_to_won t = Some (py_int t * 10000)
  /\ parse_kr_money_to_won (t ++ [c_won]) = Some (py_int t).
Proof.
  intros Hne Ht _.
  assert (Hfull : bool_decide (is_Some (fullmatch re_digits t)) = true).
  { apply bool_decide_eq_true, fullmatch_digits. split; [done|].
    eapply Forall_impl; [exact Ht | apply ascii_digit_isdigit]. }
  assert (Heok : search re_eok t = None)
    by (apply search_re_eok_absent, digits_without; done).
  assert (Hman : search re_man t = None)
    by (apply search_re_man_absent, digits_without; done).
  assert (Hcheon : search re_cheon t = None)
    by (apply search_re_cheon_absent, digits_without; done).
  split.
  - rewrite parse_kr_money_to_won_unfold by done. cbv zeta.
    rewrite (money_text_plain t) by (by apply digits_plain).
    unfold man_without_eok. rewrite Heok, Hman, Hcheon, Hfull.
    rewrite strip_plain by (by apply plain_not_space, digits_plain).
    rewrite (remove_char_absent c_space) by (by apply plain_no_space_char, digits_plain).
    rewrite (remove_char_absent c_comma) by (by apply plain_no_comma, digits_plain).
    by rewrite contains_char_absent by (by apply plain_no_won, digits_plain).
  - rewrite parse_kr_money_to_won_unfold by (by destruct t). cbv zeta.
    destruct (money_text_plain_won t (digits_plain t Ht)) as [-> ->].
    unfold man_without_eok. by rewrite Heok, Hman, Hcheon, Hfull.
Qed.

Lemma parse_bare_number_witness :
  parse_kr_money_to_won (u "8500") = Some 85000000
  /\ parse_kr_money_to_won (u "8500" ++ [c_won]) = Some 8500.
Proof.
  apply (parse_bare_number (u "8500")); [done| |].
  - repeat constructor; vm_compute; done.
  - apply Nat.leb_le. vm_compute. reflexivity.
Defined.

(** ** Amounts written with 억 *)

Lemma rmatch_Grp {R : Type} (i : nat) (r : regex) (s : pystr) (pos : nat)
    (caps : captures) (k : pystr -> nat -> captures -> option R) :
  rmatch (Grp i r) s pos caps k =
    rmatch r s pos caps
      (fun s' pos' caps' => k s' pos' ((i, take (pos' - pos) s) :: caps')).
Proof. reflexivity. Qed.

Lemma rmatch_Chr_eq {R : Type} (c : char) (s : pystr) (pos : nat)
    (caps : captures) (k : pystr -> nat -> captures -> option R) :
  rmatch (Chr c) (c :: s) pos caps k = k s (S pos) caps.
Proof. simpl. by rewrite N.eqb_refl. Qed.

Lemma rmatch_Chr_ne {R : Type} (c x : char) (s : pystr) (pos : nat)
    (caps : captures) (k : pystr -> nat -> captures -> option R) :
  x <> c -> rmatch (Chr c) (x :: s) pos caps k = None.
Proof. intros Hx. simpl. by destruct (N.eqb_spec x c). Qed.

Lemma rmatch_Opt_skip {R : Type} (r : regex) (s : pystr) (pos : nat)
    (caps : captures) (k : pystr -> nat -> captures -> option R) :
  rmatch r s pos caps k = None -> rmatch (Opt r) s pos caps k = k s pos caps.
Proof. intros Hr. unfold Opt. cbn [rmatch]. by rewrite Hr. Qed.

(** A greedy [p*] in front of a character that is not a [p] takes the
    whole run, when what follows accepts that. *)
Lemma rmatch_star_prefix {R : Type} (p : char -> bool) (pre rest : pystr) (pos : nat)
    (caps : captures) (k : pystr -> nat -> captures -> option R) (x : R) :
  Forall (fun c => p c = true) pre ->
  match rest with [] => True | c :: _ => p c = false end ->
  k rest (pos + length pre)%nat caps = Some x ->
  rmatch (Star (Cls p)) (pre ++ rest) pos caps k = Some x.
Proof.
  intros Hpre Hrest. cbn [rmatch].
  assert (Hfuel : (length pre <= length (pre ++ rest))%nat)
    by (rewrite length_app; lia).
  revert Hfuel. generalize (length (pre ++ rest)). intros fuel. revert fuel pos.
  induction Hpre as [|c pre Hc Hpre IH]; intros fuel pos Hfuel Hk.
  - rewrite Nat.add_0_r in Hk. destruct fuel; [done|].
    destruct rest as [|c rest]; simpl; [done|]. by rewrite Hrest.
  - destruct fuel as [|fuel]; [simpl in Hfuel; lia|].
    simpl app. cbn [rmatch]. rewrite Hc.
    assert (Hlt : Nat.ltb pos (S pos) = true) by (apply Nat.ltb_lt; lia).
    rewrite Hlt. rewrite IH; [done| simpl in Hfuel; lia |].
    rewrite <- Hk. f_equal. simpl. lia.
Qed.

(** [(\d+)] in front of a character that is no digit captures the run. *)
Lemma rmatch_group_digits {R : Type} (i : nat) (pre rest : pystr) (pos : nat)
    (caps : captures) (k : pystr -> nat -> captures -> option R) (x : R) :
  pre <> [] ->
  Forall (fun c => py_isdigit c = true) pre ->
  match rest with [] => True | c :: _ => py_isdigit c = false end ->
  k rest (pos + length pre)%nat ((i, pre) :: caps) = Some x ->
  rmatch (Grp i (Plus digit)) (pre ++ rest) pos caps k = Some x.
Proof.
  intros Hne Hpre Hrest Hk. destruct Hpre as [|c pre Hc Hpre]; [done|].
  rewrite rmatch_Grp. unfold Plus. rewrite rmatch_Cat.
  simpl app. unfold digit at 1. cbn [rmatch]. rewrite Hc.
  apply (rmatch_star_prefix py_isdigit); [done..|].
  cbv beta.
  replace (S pos + length pre - pos)%nat with (length (c :: pre)) by (simpl; lia).
  change (c :: pre ++ rest) with ((c :: pre) ++ rest).
  rewrite take_app_length. rewrite <- Hk. f_equal. simpl. lia.
Qed.

(** The search moves over characters at which the pattern cannot start. *)
Lemma search_from_skip (r : regex) (pre rest : pystr) (pos : nat) :
  Forall (fun c => forall s p, match_at r (c :: s) p = None) pre ->
  search_from r (pre ++ rest) pos = search_from r rest (pos + length pre)%nat.
Proof.
  intros Hpre. revert pos.
  induction Hpre as [|c pre Hc _ IH]; intros pos; simpl app.
  - by rewrite Nat.add_0_r.
  - cbn [search_from]. rewrite Hc, IH. f_equal. simpl. lia.
Qed.

Lemma search_from_start (r : regex) (s : pystr) (pos : nat) (m : rmatched) :
  match_at r s pos = Some m -> search_from r s pos = Some m.
Proof. intros Hm. destruct s; simpl; by rewrite Hm. Qed.

(** [(\d+(?:\.\d+)?)억] finds the digits in front of the first 억. *)
Lemma search_re_eok_digits (a rest : pystr) :
  a <> [] -> Forall (fun c => py_isdigit c = true) a ->
  exists m, search re_eok (a ++ c_eok :: rest) = Some m /\ group (m_caps m) 1 = a.
Proof.
  intros Hne Ha. destruct Ha as [|c a Hc Ha]; [done|]. eexists. split.
  - apply search_from_start. unfold match_at, re_eok.
    rewrite rmatch_Cat, rmatch_Grp, rmatch_Cat.
    unfold Plus at 1. rewrite rmatch_Cat. simpl app. unfold digit at 1.
    cbn [rmatch]. rewrite Hc.
    apply (rmatch_star_prefix py_isdigit); [done..|].
    cbv beta.
    rewrite rmatch_Opt_skip by (rewrite rmatch_Cat; by apply rmatch_Chr_ne).
    cbv beta. rewrite N.eqb_refl. reflexivity.
  - cbn [m_caps group List.find fst snd Nat.eqb].
    replace (1 + length a - 0)%nat with (length (c :: a)) by (simpl; lia).
    change (c :: a ++ c_eok :: rest) with ((c :: a) ++ c_eok :: rest).
    apply take_app_length.
Qed.

(** The patterns that start at 억 find the digits after the first 억
    when what follows them is accepted: [tail] stands for 만, 천 or [$]. *)
Lemma search_after_eok (tail : regex) (a b rest rest' : pystr) (n : nat) :
  Forall (fun c => c <> c_eok) a ->
  b <> [] -> Forall (fun c => py_isdigit c = true) b ->
  match rest with [] => True | c :: _ => py_isdigit c = false end ->
  (forall pos caps (k : pystr -> nat -> captures -> option rmatched),
      rmatch tail rest pos caps k = k rest' (pos + n)%nat caps) ->
  exists m,
    search (Cat (Cat (Chr c_eok) (Grp 1 (Plus digit))) tail)
           (a ++ c_eok :: b ++ rest) = Some m
    /\ group (m_caps m) 1 = b.
Proof.
  intros Ha Hne Hb Hrest Htail. eexists. split.
  - unfold search. rewrite search_from_skip.
    2:{ eapply Forall_impl; [exact Ha|]. intros c Hc s p.
        unfold match_at. rewrite !rmatch_Cat. by apply rmatch_Chr_ne. }
    apply search_from_start. unfold match_at.
    rewrite !rmatch_Cat, rmatch_Chr_eq.
    apply rmatch_group_digits; [done..|].
    rewrite Htail. reflexivity.
  - reflexivity.
Qed.

(** [억(\d+)$] matches only where the text ends in a digit, or in a line
    break after one. *)
Lemma match_at_re_eok_bare (s : pystr) (pos : nat) (m : rmatched) :
  match_at re_eok_bare s pos = Some m ->
  exists x, last s = Some x /\ (py_isdigit x = true \/ x = c_newline).
Proof.
  unfold match_at, re_eok_bare, Plus, digit. intros Hm.
  destruct s as [|y [|c s]]; [done| |]; cbn [rmatch] in Hm.
  - by destruct (y =? c_eok)%N.
  - destruct (y =? c_eok)%N; [|done].
    destruct (py_isdigit c) eqn:Hc; [|done].
    apply rmatch_star_consumed in Hm as (pre & s' & -> & Hpre & Hm).
    destruct s' as [|z [|z' s']]; [| |done].
    + rewrite app_nil_r, last_cons_cons.
      destruct (last (c :: pre)) as [x|] eqn:Hl; [|by apply last_None in Hl].
      exists x. split; [done|]. left.
      apply last_Some_elem_of in Hl.
      assert (Hall : Forall (fun c => py_isdigit c = true) (c :: pre)) by by constructor.
      rewrite Forall_forall in Hall. by apply Hall.
    + destruct (N.eqb_spec z c_newline) as [->|]; [|done].
      exists c_newline. split; [|by right].
      change (y :: c :: pre ++ [c_newline]) with ((y :: c :: pre) ++ [c_newline]).
      apply last_snoc.
Qed.

Lemma search_re_eok_bare_none (t : pystr) (x : char) :
  py_isdigit x = false -> x <> c_newline ->
  search re_eok_bare (t ++ [x]) = None.
Proof.
  intros Hd Hn. unfold search.
  assert (Hl : t ++ [x] = [] \/ last (t ++ [x]) = Some x)
    by (right; apply last_snoc).
  revert Hl. generalize (t ++ [x]) 0%nat. clear t.
  intros s. induction s as [|y s IH]; intros pos Hl.
  - reflexivity.
  - cbn [search_from].
    destruct (match_at re_eok_bare (y :: s) pos) as [m|] eqn:Hm.
    + apply match_at_re_eok_bare in Hm as (x' & Hx' & Hcase).
      destruct Hl as [|Hl]; [done|]. rewrite Hl in Hx'. injection Hx' as <-.
      destruct Hcase; congruence.
    + apply IH. destruct Hl as [|Hl]; [done|].
      destruct s as [|z s]; [by left | right]. by rewrite last_cons_cons in Hl.
Qed.

(** *** Exact products *)

Lemma round_half_even_exact (v q : Z) : 0 < q -> round_half_even (v * q) q = v.
Proof.
  intros Hq. unfold round_half_even. cbv zeta.
  rewrite Z.div_mul, Z.mod_mul by lia.
  destruct (Z.ltb_spec (2 * 0) q); [done | lia].
Qed.

(** A quotient that is an integer below [2^53] is a float: rounding
    leaves it as it is. *)
Lemma round_pos_exact (v q : Z) :
  0 < v < 2 ^ 53 -> 0 < q ->
  exists m e, round_pos (v * q) q = Fin m e /\ e <= 0 /\ m = v * 2 ^ (- e).
Proof.
  intros [Hv Hlt] Hq. unfold round_pos.
  destruct (Z.eqb_spec (v * q) 0) as [E|_]; [nia|].
  cbv zeta.
  set (e0 := Z.log2 (v * q) - Z.log2 q).
  set (below := if 0 <=? e0 then _ else _).
  set (e1 := if below then e0 - 1 else e0).
  assert (Hlog : Z.log2 v <= 52).
  { apply Z.lt_succ_r. apply Z.log2_lt_pow2; lia. }
  assert (He1 : e1 <= Z.log2 v).
  { subst e1. destruct below eqn:Hb.
    - subst e0. pose proof (Z.log2_mul_above v q). lia.
    - subst below. destruct (Z.leb_spec 0 e0) as [H0|H0].
      + apply Z.ltb_ge in Hb. apply Z.log2_le_pow2; [lia|].
        assert (0 < 2 ^ e0) by (apply Z.pow_pos_nonneg; lia). nia.
      + pose proof (Z.log2_nonneg v). lia. }
  set (e := Z.max (e1 - 52) (-1074)).
  assert (He : e <= 0) by lia. clearbody e. clear He1 e1 below e0.
  destruct (Z.leb_spec 0 e) as [H0|H0].
  - assert (e = 0) by lia. subst e. change (2 ^ 0) with 1. rewrite !Z.mul_1_r.
    rewrite round_half_even_exact by done.
    assert (Hbig : 2 ^ 53 <= 2 ^ 1024) by (apply Z.pow_le_mono_r; lia).
    destruct (Z.leb_spec (2 ^ 1024) v) as [Hover|_]; [lia|].
    exists v, 0. simpl. split; [done|]. split; lia.
  - replace (v * q * 2 ^ (- e)) with (v * 2 ^ (- e) * q) by ring.
    rewrite round_half_even_exact by done. simpl andb. eauto.
Qed.

Lemma py_int_of_float_exact (v e : Z) :
  e <= 0 -> py_int_of_float (Fin (v * 2 ^ (- e)) e) = Ok v.
Proof.
  intros He. unfold py_int_of_float. f_equal.
  destruct (Z.leb_spec 0 e).
  - assert (e = 0) by lia. subst e. simpl. lia.
  - apply Z.quot_mul. assert (0 < 2 ^ (- e)) by (apply Z.pow_pos_nonneg; lia). lia.
Qed.

Lemma split_dot_no_dot (g : pystr) : c_dot ∉ g -> split_dot g = (g, []).
Proof.
  induction g as [|c g IH]; [done|]. intros Hg. simpl.
  destruct (N.eqb_spec c c_dot) as [->|]; [set_solver|].
  rewrite IH by set_solver. done.
Qed.

(** For digits without a decimal point, [int(float(g) * 100_000_000)] is
    the exact product as long as it stays below [2^53]. *)
Lemma eok_total_exact (g : pystr) :
  c_dot ∉ g -> py_int g * 100000000 < 2 ^ 53 ->
  eok_total g = py_int g * 100000000.
Proof.
  intros Hg Hlt. unfold eok_total, py_float.
  rewrite split_dot_no_dot, app_nil_r by done.
  change (10 ^ Z.of_nat (length [])) with 1.
  pose proof (py_int_nonneg g) as Hn.
  destruct (Z.eq_dec (py_int g) 0) as [->|Hnz]; [reflexivity|].
  destruct (round_pos_exact (py_int g) 1) as (m & e & Hr & He & ->); [lia..|].
  rewrite Z.mul_1_r in Hr. rewrite Hr. unfold fmul_int, round_q.
  assert (Hpow : 0 < 2 ^ (- e)) by (apply Z.pow_pos_nonneg; lia).
  destruct (Z.leb_spec 0 e) as [H0|H0].
  - assert (e = 0) by lia. subst e. simpl (2 ^ _). rewrite !Z.mul_1_r.
    destruct (Z.ltb_spec (py_int g * 100000000) 0); [lia|].
    destruct (round_pos_exact (py_int g * 100000000) 1) as (m' & e' & Hr' & He' & ->);
      [lia..|].
    rewrite Z.mul_1_r in Hr'. rewrite Hr'.
    by rewrite py_int_of_float_exact.
  - destruct (Z.ltb_spec (py_int g * 2 ^ (- e) * 100000000) 0); [nia|].
    replace (py_int g * 2 ^ (- e) * 100000000)
      with (py_int g * 100000000 * 2 ^ (- e)) by ring.
    destruct (round_pos_exact (py_int g * 100000000) (2 ^ (- e)))
      as (m' & e' & Hr' & He' & ->); [lia..|].
    rewrite Hr'. by rewrite py_int_of_float_exact.
Qed.

(** *** The shapes N억, N억M만, N억M and N억M천 *)

Lemma not_digit_without (c : char) (t : pystr) :
  ~ ascii_digit c -> Forall ascii_digit t -> c ∉ t.
Proof. intros Hc Ht Hin. rewrite Forall_forall in Ht. by apply Hc, Ht. Qed.

Lemma digits_isdigit (t : pystr) :
  Forall ascii_digit t -> Forall (fun c => py_isdigit c = true) t.
Proof. intros Ht. eapply Forall_impl; [exact Ht | apply ascii_digit_isdigit]. Qed.

Lemma digits_no_eok (t : pystr) :
  Forall ascii_digit t -> Forall (fun c => c <> c_eok) t.
Proof.
  intros Ht. eapply Forall_impl; [exact Ht|]. intros c [Hlo Hhi] ->. done.
Qed.

Lemma search_re_eok_man_absent (t : pystr) :
  c_man ∉ t -> search re_eok_man t = None.
Proof.
  apply (search_from_absent _ c_man). intros s' pos' Hc.
  by apply rmatch_literal_absent.
Qed.

Lemma search_re_eok_cheon_absent (t : pystr) :
  c_cheon ∉ t -> search re_eok_cheon t = None.
Proof.
  apply (search_from_absent _ c_cheon). intros s' pos' Hc.
  by apply rmatch_literal_absent.
Qed.

(** With 억 after the leading digits the amount is the 억 part plus what
    the patterns after 억 give, in units of 만. *)
Lemma parse_with_eok (a rest : pystr) :
  a <> [] -> Forall ascii_digit a -> Forall plain_char rest ->
  parse_kr_money_to_won (a ++ c_eok :: rest) =
    Some (eok_total a + man_after_eok (a ++ c_eok :: rest) * 10000).
Proof.
  intros Hne Ha Hrest.
  assert (Hplain : Forall plain_char (a ++ c_eok :: rest)).
  { apply Forall_app. split; [by apply digits_plain|].
    constructor; [|done]. by repeat split. }
  rewrite parse_kr_money_to_won_unfold by (by destruct a). cbv zeta.
  rewrite money_text_plain by done.
  destruct (search_re_eok_digits a rest) as (m & -> & ->);
    [done | by apply digits_isdigit |].
  rewrite (bool_decide_eq_false_2 (is_Some (fullmatch re_digits _))).
  2:{ rewrite fullmatch_digits. intros [_ Hall].
      apply Forall_app in Hall as [_ Hall]. inversion Hall as [|? ? Heok _].
      by vm_compute in Heok. }
  by rewrite andb_false_r.
Qed.

Lemma man_after_eok_alone (a : pystr) :
  Forall ascii_digit a -> man_after_eok (a ++ [c_eok]) = 0.
Proof.
  intros Ha. unfold man_after_eok.
  rewrite search_re_eok_man_absent.
  2:{ intros [H|H%list_elem_of_singleton]%elem_of_app; [|done].
      revert H. apply not_digit_without; [|done]. intros [? ?]. done. }
  rewrite search_re_eok_bare_none by done.
  rewrite search_re_eok_cheon_absent; [done|].
  intros [H|H%list_elem_of_singleton]%elem_of_app; [|done].
  revert H. apply not_digit_without; [|done]. intros [? ?]. done.
Qed.

Lemma man_after_eok_man (a b : pystr) :
  b <> [] -> Forall ascii_digit a -> Forall ascii_digit b ->
  man_after_eok (a ++ c_eok :: b ++ [c_man]) = py_int b.
Proof.
  intros Hne Ha Hb. unfold man_after_eok.
  destruct (search_after_eok (Chr c_man) a b [c_man] [] 1) as (m & Hm & Hg);
    [by apply digits_no_eok | done | by apply digits_isdigit | done | |].
  { intros pos caps k. by rewrite rmatch_Chr_eq, Nat.add_1_r. }
  change (search re_eok_man (a ++ c_eok :: b ++ [c_man]) = Some m) in Hm.
  by rewrite Hm, Hg.
Qed.

Lemma eok_digits_without (c : char) (a b : pystr) :
  ~ ascii_digit c -> c <> c_eok ->
  Forall ascii_digit a -> Forall ascii_digit b -> c ∉ a ++ c_eok :: b.
Proof.
  intros Hc Hne Ha Hb [H|[H|H]%elem_of_cons]%elem_of_app; [|done|].
  - by apply (not_digit_without c a).
  - by apply (not_digit_without c b).
Qed.

Lemma man_after_eok_bare (a b : pystr) :
  b <> [] -> Forall ascii_digit a -> Forall ascii_digit b ->
  man_after_eok (a ++ c_eok :: b) = py_int b.
Proof.
  intros Hne Ha Hb. unfold man_after_eok.
  rewrite search_re_eok_man_absent.
  2:{ apply eok_digits_without; [|done..]. intros [? ?]. done. }
  destruct (search_after_eok Eol a b [] [] 0) as (m & Hm & Hg);
    [by apply digits_no_eok | done | by apply digits_isdigit | done | |].
  { intros pos caps k. by rewrite Nat.add_0_r. }
  rewrite app_nil_r in Hm.
  change (search re_eok_bare (a ++ c_eok :: b) = Some m) in Hm.
  by rewrite Hm, Hg.
Qed.

Lemma man_after_eok_cheon (a b : pystr) :
  b <> [] -> Forall ascii_digit a -> Forall ascii_digit b ->
  man_after_eok (a ++ c_eok :: b ++ [c_cheon]) = py_int b * 1000.
Proof.
  intros Hne Ha Hb. unfold man_after_eok.
  rewrite search_re_eok_man_absent.
  2:{ change (a ++ c_eok :: b ++ [c_cheon]) with (a ++ (c_eok :: b) ++ [c_cheon]).
      rewrite app_assoc.
      intros [H|H%list_elem_of_singleton]%elem_of_app; [|done].
      revert H. apply eok_digits_without; [|done..]. intros [? ?]. done. }
  change (a ++ c_eok :: b ++ [c_cheon]) with (a ++ (c_eok :: b) ++ [c_cheon]) at 1.
  rewrite app_assoc, search_re_eok_bare_none by done.
  destruct (search_after_eok (Chr c_cheon) a b [c_cheon] [] 1) as (m & Hm & Hg);
    [by apply digits_no_eok | done | by apply digits_isdigit | done | |].
  { intros pos caps k. by rewrite rmatch_Chr_eq, Nat.add_1_r. }
  change (search re_eok_cheon (a ++ c_eok :: b ++ [c_cheon]) = Some m) in Hm.
  by rewrite Hm, Hg.
Qed.

(** X3. Amounts in 억, for non-empty texts [a] and [b] of the digits 0-9:
    "a억" is the 억 part alone; in "a억b만" and "a억b" the digits after 억
    count 만 (10,000 won); in "a억b천" they count thousands of 만. The 억
    part [int(float(a) * 100_000_000)] is the exact product whenever that
    is below [2^53]. *)
Theorem parse_eok_amount (a b : pystr) :
  a <> [] -> b <> [] -> Forall ascii_digit a -> Forall ascii_digit b ->
  (length a + length b <= int_max_str_digits)%nat ->
  parse_kr_money_to_won (a ++ [c_eok]) = Some (eok_total a)
  /\ parse_kr_money_to_won (a ++ [c_eok] ++ b ++ [c_man])
     = Some (eok_total a + py_int b * 10000)
  /\ parse_kr_money_to_won (a ++ [c_eok] ++ b)
     = Some (eok_total a + py_int b * 10000)
  /\ parse_kr_money_to_won (a ++ [c_eok] ++ b ++ [c_cheon])
     = Some (eok_total a + py_int b * 1000 * 10000)
  /\ (py_int a * 100000000 < 2 ^ 53 -> eok_total a = py_int a * 100000000).
Proof.
  intros Ha0 Hb0 Ha Hb _.
  assert (Hpb : Forall plain_char b) by (by apply digits_plain).
  repeat split.
  - rewrite parse_with_eok, man_after_eok_alone by done. by rewrite Z.add_0_r.
  - change (a ++ [c_eok] ++ b ++ [c_man]) with (a ++ c_eok :: b ++ [c_man]).
    rewrite parse_with_eok, man_after_eok_man; [done..|].
    apply Forall_app. split; [done|]. by repeat constructor.
  - change (a ++ [c_eok] ++ b) with (a ++ c_eok :: b).
    by rewrite parse_with_eok, man_after_eok_bare.
  - change (a ++ [c_eok] ++ b ++ [c_cheon]) with (a ++ c_eok :: b ++ [c_cheon]).
    rewrite parse_with_eok, man_after_eok_cheon; [done..|].
    apply Forall_app. split; [done|]. by repeat constructor.
  - apply eok_total_exact. apply not_digit_without; [|done]. intros [? ?]. done.
Qed.

Lemma parse_eok_amount_witness :
  parse_kr_money_to_won (u "3" ++ [c_eok]) = Some (eok_total (u "3"))
  /\ parse_kr_money_to_won (u "3" ++ [c_eok] ++ u "5000" ++ [c_man])
     = Some (eok_total (u "3") + py_int (u "5000") * 10000)
  /\ parse_kr_money_to_won (u "3" ++ [c_eok] ++ u "5000")
     = Some (eok_total (u "3") + py_int (u "5000") * 10000)
  /\ parse_kr_money_to_won (u "3" ++ [c_eok] ++ u "5000" ++ [c_cheon])
     = Some (eok_total (u "3") + py_int (u "5000") * 1000 * 10000)
  /\ (py_int (u "3") * 100000000 < 2 ^ 53 ->
      eok_total (u "3") = py_int (u "3") * 100000000).
Proof.
  apply (parse_eok_amount (u "3") (u "5000"));
    [done | done | repeat constructor; vm_compute; done.. |].
  apply Nat.leb_le. vm_compute. reflexivity.
Defined.

(** ** What a response does to the buffers *)

(** The key under which the handler files a record. A marker goes by its
    id as text (line 571), a listing by its number (lines 617, 655), a
    trade by date, area, floor and price (line 630). *)
Definition marker_id `{Builtins : PyBuiltins} (it : json) : outcome pystr :=
  (v <! get_or it [u "markerId"; u "complexNo"; u "houseNo"] (JStr []);
   Ok (py_str v))%py.

Definition listing_no (a : json) : outcome json :=
  (k1 <! get a (u "articleNo"); k2 <! get a (u "atclNo"); Ok (py_or k1 k2))%py.

Definition listing_key (a : json) : outcome pykey :=
  (k <! listing_no a; key_of k)%py.

Definition trade_key_of (t : json) : outcome trade_key :=
  (d <! get t (u "dealDate");
   a <! get t (u "area");
   f <! get t (u "floor");
   p <! get t (u "dealPrice");
   kd <! key_of d;
   ka <! key_of a;
   kf <! key_of f;
   kp <! key_of p;
   Ok (kd, ka, kf, kp))%py.

(** The trade type of a listing, read from the fields [ks], and its trade
    name; the listing counts as a sale when the type is A1 or the name is
    매매 or SALE (lines 612-615 and 657-660). *)
Definition trade_code (ks : list pystr) (a : json) : outcome pystr :=
  (v <! get_or a ks (JStr []); str_upper v)%py.

Definition trade_name (a : json) : outcome pystr :=
  (v <! get a (u "tradeTypeName"); str_strip (py_or v (JStr [])))%py.

Definition sale_by (ks : list pystr) (a : json) : bool :=
  match trade_code ks a, trade_name a with
  | Ok c, Ok n => negb (not_a_sale c n)
  | _, _ => false
  end.

Definition is_sale (a : json) : bool :=
  sale_by [u "tradeType"] a || sale_by [u "tradeType"; u "tradTp"] a.

(** An insertion as the handler makes them: the record is filed under its
    own key, a marker id is not empty, and a listing has a number that
    counts as true and is a sale. *)
Definition well_keyed `{Builtins : PyBuiltins} (i : insertion) : Prop :=
  match i with
  | InsComplex cno it => marker_id it = Ok cno /\ cno <> []
  | InsArticle k a =>
    (exists v, listing_no a = Ok v /\ truthy v = true /\ key_of v = Ok k)
    /\ is_sale a = true
  | InsTrade k t => trade_key_of t = Ok k
  end.

(** The buffer an insertion goes to. *)
Inductive kind := KComplex | KArticle | KTrade.

Definition kind_of (i : insertion) : kind :=
  match i with
  | InsComplex _ _ => KComplex
  | InsArticle _ _ => KArticle
  | InsTrade _ _ => KTrade
  end.

Definition filed_as `{Builtins : PyBuiltins} (k : kind) (i : insertion) : Prop :=
  well_keyed i /\ kind_of i = k.

(** [m] answers [res] after performing the insertions [ins], all of them
    of the kind [G], and leaves the capture flag alone. *)
Inductive performs (G : insertion -> Prop) {A} (m : M session A) : Prop :=
| performs_intro (res : outcome A) (ins : list insertion) :
    Forall G ins ->
    (forall st, fst (m st) = res
                /\ bufs (exec m st) = insert_all ins (bufs st)
                /\ capture (exec m st) = capture st) ->
    performs G m.

Section Performs.
Context (G : insertion -> Prop).

Lemma performs_ret {A} (a : A) : performs G (ret a).
Proof. by apply (performs_intro _ _ (Ok a) []). Qed.

Lemma performs_lift {A} (o : outcome A) : performs G (lift o).
Proof. by apply (performs_intro _ _ o []). Qed.

Lemma performs_on_meta f : performs G (modify (on_meta f)).
Proof. by apply (performs_intro _ _ (Ok tt) []). Qed.

Lemma performs_insert i : G i -> performs G (modify (on_bufs (insert1 i))).
Proof. intros Hi. apply (performs_intro _ _ (Ok tt) [i]); [by constructor | done]. Qed.

Lemma performs_bind {A B} (m : M session A) (k : A -> M session B) :
  performs G m -> (forall a, performs G (k a)) -> performs G (bind m k).
Proof.
  intros [res ins Hins Hm] Hk. destruct res as [a|e].
  - destruct (Hk a) as [res' ins' Hins' Hka].
    apply (performs_intro _ _ res' (ins ++ ins')); [by apply Forall_app|].
    intros st. destruct (Hm st) as (Hres & Hb & Hc). unfold exec, bind in *.
    destruct (m st) as [o st1]. simpl in *. subst o.
    destruct (Hka st1) as (Hres' & Hb' & Hc').
    rewrite insert_all_app, <- Hb. split; [done|]. split; [done|]. congruence.
  - apply (performs_intro _ _ (Raise e) ins); [done|]. intros st.
    destruct (Hm st) as (Hres & Hb & Hc). unfold exec, bind in *.
    destruct (m st) as [o st1]. simpl in *. by subst o.
Qed.

(** After a pure step the rest runs on the value the step gave. *)
Lemma performs_bind_lift {A B} (o : outcome A) (k : A -> M session B) :
  (forall a, o = Ok a -> performs G (k a)) -> performs G (bind (lift o) k).
Proof.
  intros Hk. destruct o as [a|e].
  - destruct (Hk a eq_refl) as [res ins Hins Hka].
    by apply (performs_intro _ _ res ins).
  - by apply (performs_intro _ _ (Raise e) []).
Qed.

Lemma performs_try_pass (m : M session unit) : performs G m -> performs G (try_pass m).
Proof.
  intros [res ins Hins Hm]. apply (performs_intro _ _ (Ok tt) ins); [done|].
  intros st. destruct (Hm st) as (_ & Hb & Hc). done.
Qed.

Lemma performs_try_default {A} (m : M session A) (d : A) :
  performs G m -> performs G (try_default m d).
Proof.
  intros [res ins Hins Hm].
  apply (performs_intro _ _ (match res with Ok a => Ok a | Raise _ => Ok d end) ins);
    [done|].
  intros st.
  destruct (Hm st) as (Hres & Hb & Hc). unfold exec, try_default in *.
  destruct (m st) as [[a|e] st1]; simpl in *; by subst res.
Qed.

Lemma performs_for_each {A} (l : list A) (body : A -> M session unit) :
  (forall x, performs G (body x)) -> performs G (for_each l body).
Proof.
  intros Hbody. induction l as [|x l IH]; simpl.
  - apply performs_ret.
  - apply performs_bind; [apply Hbody | intros _; exact IH].
Qed.

Lemma performs_mono {A} (G' : insertion -> Prop) (m : M session A) :
  (forall i, G i -> G' i) -> performs G m -> performs G' m.
Proof.
  intros HG [res ins Hins Hm]. apply (performs_intro _ _ res ins); [|done].
  eapply Forall_impl; [exact Hins | exact HG].
Qed.

Lemma performs_regular {A} (m : M session A) :
  regular m -> (forall i, G i) -> performs G m.
Proof.
  intros [res ins Hm] HG. apply (performs_intro _ _ res ins); [|done].
  apply Forall_forall. auto.
Qed.

Lemma performs_update_total cno total : performs G (update_total cno total).
Proof.
  destruct (regular_update_total cno total) as [res ins Hm].
  assert (Hnone : ins = []); [|subst ins; by apply (performs_intro _ _ res [])].
  (* the buffers of an empty session stay empty *)
  pose (st0 := {| bufs := empty_buffers; capture := false; complex_meta := ∅ |}).
  destruct (Hm st0) as (_ & Hb & _).
  assert (Hsame : bufs (exec (update_total cno total) st0) = bufs st0).
  { unfold update_total, exec, bind, modify, gets, lift, ret. cbn.
    by repeat case_match. }
  rewrite Hsame in Hb. clear -Hb.
  destruct ins as [|i ins]; [done|]. exfalso.
  assert (Hseen : seen i (insert_all (i :: ins) (bufs st0))).
  { simpl. apply seen_insert_all_mono, seen_insert1. }
  rewrite <- Hb in Hseen. destruct i; simpl in Hseen; set_solver.
Qed.

End Performs.

Ltac performs_rule :=
  lazymatch goal with
  | |- performs _ (ret _) => apply performs_ret
  | |- performs _ (lift _) => apply performs_lift
  | |- performs _ (modify (on_meta _)) => apply performs_on_meta
  | |- performs _ (modify (on_bufs (ins_complex ?k ?v))) =>
    apply (performs_insert _ (InsComplex k v))
  | |- performs _ (modify (on_bufs (ins_article ?k ?v))) =>
    apply (performs_insert _ (InsArticle k v))
  | |- performs _ (modify (on_bufs (ins_trade ?k ?v))) =>
    apply (performs_insert _ (InsTrade k v))
  | |- performs _ (update_total _ _) => apply performs_update_total
  | |- performs _ (try_pass _) => apply performs_try_pass
  | |- performs _ (try_default _ _) => apply performs_try_default
  | |- performs _ (for_each _ _) => apply performs_for_each; intros ?
  | |- performs _ (bind (lift _) _) => apply performs_bind_lift; intros ? ?
  | |- performs _ (bind _ _) => apply performs_bind; [|intros ?]
  | |- performs _ (match _ with _ => _ end) => case_match
  | |- performs _ (if _ then _ else _) => case_match
  end.

Lemma get_dict_total (a : json) (k k' : pystr) (v : json) :
  get a k = Ok v -> exists v', get a k' = Ok v'.
Proof. destruct a; try done. intros _. eexists. reflexivity. Qed.

Lemma get_or_single (a : json) (k : pystr) (d : json) :
  get_or a [k] d = (v <! get a k; Ok (py_or v d))%py.
Proof.
  unfold get_or, py_or. destruct (get a k) as [v|e]; [|done]. simpl.
  by destruct (truthy v).
Qed.

(** [collect_from] is built from [collect_item] by sequencing alone. *)
Lemma collect_from_ind (Q : forall A, M session A -> Prop) :
  Q unit (ret tt) ->
  (forall A (m : M session unit) (k : unit -> M session A),
      Q unit m -> (forall a, Q A (k a)) -> Q A (bind m k)) ->
  (forall it, Q unit (collect_item it)) ->
  forall obj, Q unit (collect_from obj).
Proof.
  intros Hret Hbind Hitem.
  induction obj as [ | | | | |l IH|d IH] using json_nested_ind;
    try exact Hret.
  - simpl. induction IH as [|it l Hit _ IHl]; [exact Hret|].
    apply Hbind; [|intros _; exact IHl].
    destruct it; try exact Hit. apply Hitem.
  - simpl.
    match goal with
    | |- Q _ (match ?found with Some _ => _ | None => ?values end) =>
      assert (Hfound : forall m, found = Some m -> Q unit m);
      [|assert (Hvalues : Q unit values)]
    end.
    { induction IH as [|[k v] d Hv _ IHd]; [done|].
      intros m. case_decide; [|apply IHd].
      destruct v; try done. intros [= <-]. exact Hv. }
    { clear Hfound.
      induction IH as [|[k v] d Hv _ IHd]; [exact Hret|].
      apply Hbind; [exact Hv|intros _; exact IHd]. }
    case_match; [by apply Hfound | exact Hvalues].
Qed.

Section WellKeyed.
Context `{Builtins : PyBuiltins}.

Lemma performs_marker_item url it : performs (filed_as KComplex) (marker_item url it).
Proof.
  unfold marker_item. repeat performs_rule.
  all: split; [|done]; split; [|done]; unfold marker_id.
  all: match goal with
       | H : get_or _ (u "markerId" :: _) _ = Ok _ |- _ => rewrite H
       end.
  all: simpl; congruence.
Qed.

Lemma performs_article_item url a : performs (filed_as KArticle) (article_item url a).
Proof.
  unfold article_item, add_article. repeat performs_rule.
  all: split; [|done].
  all: match goal with
  | Hk : get ?a (u "articleNo") = Ok ?k, Ht : truthy ?k = true,
    Hkey : key_of ?k = Ok _ |- _ =>
    split;
    [ exists k; split; [|done]; unfold listing_no; rewrite Hk;
      destruct (get_dict_total a _ (u "atclNo") _ Hk) as [k2 ->]; simpl;
      unfold py_or; by rewrite Ht
    | ]
  end.
  all: unfold is_sale; apply orb_true_intro; left.
  all: unfold sale_by, trade_code, trade_name; rewrite get_or_single.
  all: repeat match goal with
         | H : (_ <! get ?a ?f; _)%py = Ok _ |- _ =>
           destruct (get a f) as [?v|?e] eqn:?; [simpl in H|done]
         end.
  all: simpl.
  all: repeat match goal with H : _ = Ok _ |- _ => rewrite H end.
  all: by match goal with H : not_a_sale _ _ = false |- _ => rewrite H end.
Qed.

Lemma performs_trade_item t : performs (filed_as KTrade) (trade_item t).
Proof. unfold trade_item. repeat performs_rule. done. Qed.

Lemma performs_collect_item it : performs (filed_as KArticle) (collect_item it).
Proof.
  unfold collect_item. repeat performs_rule.
  split; [|done]. split.
  - eexists. split; [|split]; [unfold listing_no; eassumption | done | done].
  - unfold is_sale. apply orb_true_intro. right.
    unfold sale_by. unfold trade_code, trade_name.
    repeat match goal with H : _ = Ok _ |- _ => rewrite H end.
    by match goal with H : not_a_sale _ _ = false |- _ => rewrite H end.
Qed.

Lemma performs_collect_from obj : performs (filed_as KArticle) (collect_from obj).
Proof.
  apply (collect_from_ind (fun A m => performs (filed_as KArticle) m)).
  - apply performs_ret.
  - intros A m k. apply performs_bind.
  - apply performs_collect_item.
Qed.

(** The channel a URL selects (lines 562, 589, 625 and 638), and the
    buffer each channel feeds. *)
Inductive channel := Markers | Listings | Prices | Generic | Ignored.

Definition channel_of (url : pystr) : channel :=
  if contains (u "complexes/single-markers") url
     || contains (u "houses/single-markers") url then Markers
  else if contains (u "/api/articles/complex/") url
          || contains (u "/api/articles/house/") url then Listings
  else if contains (u "/api/complexes/") url && contains (u "/prices") url then Prices
  else if contains (u "/api/") url then Generic
  else Ignored.

Definition feeds (c : channel) : option kind :=
  match c with
  | Markers => Some KComplex
  | Listings | Generic => Some KArticle
  | Prices => Some KTrade
  | Ignored => None
  end.

Definition of_channel (c : channel) (i : insertion) : Prop :=
  well_keyed i /\ feeds c = Some (kind_of i).

Lemma filed_as_of_channel (c : channel) (k : kind) (i : insertion) :
  feeds c = Some k -> filed_as k i -> of_channel c i.
Proof. intros Hc [Hi <-]. by split. Qed.

Lemma performs_classify r : performs (of_channel (channel_of (url r))) (classify r).
Proof.
  unfold classify, channel_of.
  destruct (contains (u "complexes/single-markers") (url r)
            || contains (u "houses/single-markers") (url r)).
  { apply (performs_mono (filed_as KComplex));
      [intros i; by apply filed_as_of_channel|].
    repeat lazymatch goal with
           | |- performs _ (marker_item _ _) => apply performs_marker_item
           | |- _ => performs_rule
           end. }
  destruct (contains (u "/api/articles/complex/") (url r)
            || contains (u "/api/articles/house/") (url r)).
  { apply (performs_mono (filed_as KArticle));
      [intros i; by apply filed_as_of_channel|].
    repeat lazymatch goal with
           | |- performs _ (article_item _ _) => apply performs_article_item
           | |- _ => performs_rule
           end. }
  destruct (contains (u "/api/complexes/") (url r) && contains (u "/prices") (url r)).
  { apply (performs_mono (filed_as KTrade));
      [intros i; by apply filed_as_of_channel|].
    repeat lazymatch goal with
           | |- performs _ (trade_item _) => apply performs_trade_item
           | |- _ => performs_rule
           end. }
  destruct (contains (u "/api/") (url r)).
  { apply (performs_mono (filed_as KArticle));
      [intros i; by apply filed_as_of_channel|].
    repeat lazymatch goal with
           | |- performs _ (collect_from _) => apply performs_collect_from
           | |- _ => performs_rule
           end. }
  apply performs_ret.
Qed.

(** Whatever the state, a response makes insertions of its channel's
    kind and nothing else to the buffers. *)
Lemma handle_response_insertions r st :
  exists ins, Forall (of_channel (channel_of (url r))) ins
    /\ bufs (exec (handle_response r) st) = insert_all ins (bufs st)
    /\ capture (exec (handle_response r) st) = capture st.
Proof.
  destruct (capture st) eqn:Hcap.
  - destruct (performs_classify r) as [res ins Hins Hm].
    exists ins. split; [done|]. unfold exec.
    rewrite (handle_response_classify r st Hcap).
    destruct (Hm st) as (_ & Hb & Hc). unfold exec in Hb, Hc. by rewrite Hb, Hc.
  - exists []. unfold exec. by rewrite (handle_response_not_capturing r st Hcap).
Qed.

End WellKeyed.

(** *** The buffers only grow *)

(** [b'] continues [b]: each list of [b'] begins with the list of [b],
    and each seen-set of [b'] holds the one of [b]. *)
Definition extends (b b' : buffers) : Prop :=
  complex_list b `prefix_of` complex_list b'
  /\ article_list b `prefix_of` article_list b'
  /\ trade_history b `prefix_of` trade_history b'
  /\ seen_complex b ⊆ seen_complex b'
  /\ seen_article b ⊆ seen_article b'
  /\ seen_trade b ⊆ seen_trade b'.

#[local] Instance extends_preorder : PreOrder extends.
Proof.
  split.
  - intros b. by repeat split.
  - intros b1 b2 b3 (?&?&?&?&?&?) (?&?&?&?&?&?).
    repeat split; by etrans.
Qed.

Lemma insert1_extends (i : insertion) (b : buffers) : extends b (insert1 i b).
Proof.
  destruct i; simpl; unfold ins_complex, ins_article, ins_trade;
    case_decide; try reflexivity;
    repeat split; simpl; try done; try (by apply prefix_app_r); set_solver.
Qed.

Lemma insert_all_extends (ins : list insertion) (b : buffers) :
  extends b (insert_all ins b).
Proof.
  revert b. induction ins as [|i ins IH]; intros b; [reflexivity|].
  simpl. etrans; [apply insert1_extends | apply IH].
Qed.

(** The parts of the buffers that insertions of another kind leave as
    they are. *)
Definition untouched (k : kind) (b b' : buffers) : Prop :=
  match k with
  | KComplex => complex_list b' = complex_list b /\ seen_complex b' = seen_complex b
  | KArticle => article_list b' = article_list b /\ seen_article b' = seen_article b
  | KTrade => trade_history b' = trade_history b /\ seen_trade b' = seen_trade b
  end.

Lemma insert1_untouched (k : kind) (i : insertion) (b : buffers) :
  kind_of i <> k -> untouched k b (insert1 i b).
Proof.
  destruct i, k; simpl; try done; intros _;
    unfold ins_complex, ins_article, ins_trade; by case_decide.
Qed.

Lemma insert_all_untouched (k : kind) (ins : list insertion) (b : buffers) :
  Forall (fun i => kind_of i <> k) ins -> untouched k b (insert_all ins b).
Proof.
  intros Hins. revert b. induction Hins as [|i ins Hi _ IH]; intros b.
  - by destruct k.
  - simpl. specialize (IH (insert1 i b)).
    pose proof (insert1_untouched k i b Hi) as H1.
    destruct k; simpl in *; destruct IH as [-> ->]; exact H1.
Qed.

(** *** Each list is filed under distinct keys *)

(** The records of [l] have keys, no two the same, and [seen] is the set
    of these keys. *)
Definition filed {K} `{Countable K} (key : json -> outcome K) (l : list json)
    (seen : gset K) : Prop :=
  exists ks, Forall2 (fun x k => key x = Ok k) l ks
             /\ NoDup ks /\ list_to_set ks = seen.

Lemma filed_nil {K} `{Countable K} (key : json -> outcome K) : filed key [] ∅.
Proof. exists []. split; [constructor|]. split; [constructor|done]. Qed.

Lemma filed_snoc {K} `{Countable K} (key : json -> outcome K) (l : list json)
    (seen : gset K) (x : json) (k : K) :
  filed key l seen -> key x = Ok k -> k ∉ seen ->
  filed key (l ++ [x]) ({[k]} ∪ seen).
Proof.
  intros (ks & Hks & Hnd & <-) Hx Hk. exists (ks ++ [k]). split; [|split].
  - apply Forall2_app; [done|]. by repeat constructor.
  - apply NoDup_app. split; [done|]. split; [|apply NoDup_singleton].
    intros y Hy ->%list_elem_of_singleton. apply Hk. by apply elem_of_list_to_set.
  - rewrite list_to_set_app_L. simpl.
    rewrite (right_id_L ∅ (∪)). apply (comm_L (∪)).
Qed.

Lemma filed_length {K} `{Countable K} (key : json -> outcome K) (l : list json)
    (seen : gset K) :
  filed key l seen -> length l = size seen.
Proof.
  intros (ks & Hks & Hnd & <-).
  rewrite size_list_to_set by done. by eapply Forall2_length.
Qed.

Section Consistent.
Context `{Builtins : PyBuiltins}.

Definition consistent (b : buffers) : Prop :=
  filed marker_id (complex_list b) (seen_complex b)
  /\ filed listing_key (article_list b) (seen_article b)
  /\ filed trade_key_of (trade_history b) (seen_trade b).

Lemma consistent_empty : consistent empty_buffers.
Proof. repeat split; apply filed_nil. Qed.

Lemma insert1_consistent (i : insertion) (b : buffers) :
  well_keyed i -> consistent b -> consistent (insert1 i b).
Proof.
  intros Hi (Hc & Ha & Ht).
  destruct i as [cno it|k a|k t]; simpl in *;
    unfold ins_complex, ins_article, ins_trade; case_decide; try done;
    repeat split; simpl; try done.
  - apply filed_snoc; [done| |done]. by destruct Hi.
  - apply filed_snoc; [done| |done].
    destruct Hi as [(v & Hv & _ & Hk) _]. unfold listing_key. by rewrite Hv.
  - by apply filed_snoc.
Qed.

Lemma insert_all_consistent (ins : list insertion) (b : buffers) :
  Forall well_keyed ins -> consistent b -> consistent (insert_all ins b).
Proof.
  intros Hins. revert b. induction Hins as [|i ins Hi _ IH]; intros b Hb; [done|].
  simpl. by apply IH, insert1_consistent.
Qed.

(** Everything in [article_list] is a sale with a listing number. *)
Definition sales_only (b : buffers) : Prop :=
  Forall (fun a => is_sale a = true
                   /\ exists v, listing_no a = Ok v /\ truthy v = true)
         (article_list b).

Lemma insert1_sales_only (i : insertion) (b : buffers) :
  well_keyed i -> sales_only b -> sales_only (insert1 i b).
Proof.
  intros Hi Hb.
  destruct i as [cno it|k a|k t]; simpl in *;
    unfold ins_complex, ins_article, ins_trade; case_decide; try done.
  unfold sales_only. simpl. apply Forall_app. split; [done|].
  constructor; [|done]. destruct Hi as [(v & Hv & Ht & _) Hs]. eauto.
Qed.

Lemma insert_all_sales_only (ins : list insertion) (b : buffers) :
  Forall well_keyed ins -> sales_only b -> sales_only (insert_all ins b).
Proof.
  intros Hins. revert b. induction Hins as [|i ins Hi _ IH]; intros b Hb; [done|].
  simpl. by apply IH, insert1_sales_only.
Qed.

(** A whole session makes insertions of the handler's kind and nothing
    else to the buffers. *)
Lemma ingest_insertions (rs : list response) (st : session) :
  exists ins, Forall well_keyed ins
    /\ bufs (ingest rs st) = insert_all ins (bufs st)
    /\ capture (ingest rs st) = capture st.
Proof.
  revert st. induction rs as [|r rs IH]; intros st; [by exists []|].
  destruct (handle_response_insertions r st) as (ins1 & H1 & Hb1 & Hc1).
  destruct (IH (exec (handle_response r) st)) as (ins2 & H2 & Hb2 & Hc2).
  change (ingest (r :: rs) st) with (ingest rs (exec (handle_response r) st)).
  exists (ins1 ++ ins2). split; [|split].
  - apply Forall_app. split; [|done].
    eapply Forall_impl; [exact H1|]. by intros i [? _].
  - rewrite Hb2, Hb1. symmetry. apply insert_all_app.
  - by rewrite Hc2.
Qed.

(** X4. Handling a response only appends: each of the three lists keeps
    what it held as its beginning, each seen-set keeps its members, and
    the capture flag is left alone; the same holds over any sequence of
    responses. *)
Theorem handle_response_only_appends (r : response) (st : session) :
  extends (bufs st) (bufs (exec (handle_response r) st))
  /\ capture (exec (handle_response r) st) = capture st
  /\ (forall rs, extends (bufs st) (bufs (ingest rs st))
                 /\ capture (ingest rs st) = capture st).
Proof.
  destruct (handle_response_insertions r st) as (ins & _ & -> & ->).
  split; [apply insert_all_extends|]. split; [done|].
  intros rs. destruct (ingest_insertions rs st) as (ins' & _ & -> & ->).
  split; [apply insert_all_extends | done].
Qed.

(** X5. The seen-sets and the lists stay in step: when every list is
    filed under pairwise distinct keys and its seen-set is the set of
    these keys (as in the empty buffers the crawl starts with), the same
    holds after any sequence of responses; in particular each list is as
    long as its seen-set is large. *)
Theorem ingest_keeps_buffers_consistent (rs : list response) (st : session) :
  consistent (bufs st) ->
  consistent (bufs (ingest rs st))
  /\ length (complex_list (bufs (ingest rs st))) = size (seen_complex (bufs (ingest rs st)))
  /\ length (article_list (bufs (ingest rs st))) = size (seen_article (bufs (ingest rs st)))
  /\ length (trade_history (bufs (ingest rs st))) = size (seen_trade (bufs (ingest rs st))).
Proof.
  intros Hst. destruct (ingest_insertions rs st) as (ins & Hins & Hb & _).
  assert (Hc : consistent (bufs (ingest rs st))).
  { rewrite Hb. by apply insert_all_consistent. }
  split; [exact Hc|]. destruct Hc as (Hc & Ha & Ht).
  repeat split; by eapply filed_length.
Qed.

(** X6. Only sales are collected: when every entry of [article_list] is a
    sale that carries a listing number (as in the empty buffers), the same
    holds after any sequence of responses. *)
Theorem ingest_collects_sales_only (rs : list response) (st : session) :
  sales_only (bufs st) -> sales_only (bufs (ingest rs st)).
Proof.
  intros Hst. destruct (ingest_insertions rs st) as (ins & Hins & -> & _).
  by apply insert_all_sales_only.
Qed.

End Consistent.

(** *** Channels keep to their buffers *)

(** The metadata store is as it was. *)
Definition meta_kept (st st' : session) : Prop := complex_meta st' = complex_meta st.

#[local] Instance meta_kept_preorder : PreOrder meta_kept.
Proof.
  split.
  - by intros st.
  - intros st1 st2 st3 H12 H23. unfold meta_kept in *. congruence.
Qed.

Lemma on_bufs_meta_kept f : preserves meta_kept (modify (on_bufs f)).
Proof. by apply preserves_modify. Qed.

Local Ltac step_meta_kept :=
  repeat lazymatch goal with
         | |- preserves _ (modify (on_bufs _)) => apply on_bufs_meta_kept
         | |- _ => preserves_rule meta_kept
         end.

Lemma trade_item_meta_kept t : preserves meta_kept (trade_item t).
Proof. unfold trade_item. step_meta_kept. Qed.

Lemma collect_item_meta_kept it : preserves meta_kept (collect_item it).
Proof. unfold collect_item. step_meta_kept. Qed.

Lemma collect_from_meta_kept obj : preserves meta_kept (collect_from obj).
Proof.
  apply (collect_from_ind (fun A m => preserves meta_kept m)).
  - apply (preserves_ret meta_kept).
  - intros A m k. apply (preserves_bind meta_kept).
  - apply collect_item_meta_kept.
Qed.

Section Channels.
Context `{Builtins : PyBuiltins}.

Lemma classify_meta_kept r :
  channel_of (url r) <> Markers -> channel_of (url r) <> Listings ->
  preserves meta_kept (classify r).
Proof.
  unfold classify, channel_of. intros Hm Hl.
  destruct (contains (u "complexes/single-markers") (url r)
            || contains (u "houses/single-markers") (url r)); [done|].
  destruct (contains (u "/api/articles/complex/") (url r)
            || contains (u "/api/articles/house/") (url r)); [done|].
  repeat lazymatch goal with
         | |- preserves _ (trade_item _) => apply trade_item_meta_kept
         | |- preserves _ (collect_from _) => apply collect_from_meta_kept
         | |- _ => preserves_rule meta_kept
         end.
Qed.

Lemma classify_ignored r st :
  channel_of (url r) = Ignored -> classify r st = (Ok tt, st).
Proof.
  unfold classify, channel_of.
  destruct (contains (u "complexes/single-markers") (url r)
            || contains (u "houses/single-markers") (url r)); [done|].
  destruct (contains (u "/api/articles/complex/") (url r)
            || contains (u "/api/articles/house/") (url r)); [done|].
  destruct (contains (u "/api/complexes/") (url r) && contains (u "/prices") (url r));
    [done|].
  by destruct (contains (u "/api/") (url r)).
Qed.

(** X7. A response reaches only the buffer of its channel: with the
    channel read off the URL as the handler does, the list and seen-set
    of every other kind are left as they were; the metadata store changes
    on the marker and listing-list channels only; and a URL of no channel
    changes nothing at all. *)
Theorem handle_response_channel_frame (r : response) (st : session) :
  (forall k, feeds (channel_of (url r)) <> Some k ->
             untouched k (bufs st) (bufs (exec (handle_response r) st)))
  /\ (channel_of (url r) <> Markers -> channel_of (url r) <> Listings ->
      complex_meta (exec (handle_response r) st) = complex_meta st)
  /\ (channel_of (url r) = Ignored -> handle_response r st = (Ok tt, st)).
Proof.
  split; [|split].
  - intros k Hk.
    destruct (handle_response_insertions r st) as (ins & Hins & -> & _).
    apply insert_all_untouched.
    eapply Forall_impl; [exact Hins|]. intros i [_ Hi] <-. by apply Hk.
  - intros Hm Hl. destruct (capture st) eqn:Hcap.
    + unfold exec. rewrite (handle_response_classify r st Hcap).
      apply (preserved (classify_meta_kept r Hm Hl) st).
    + unfold exec. by rewrite (handle_response_not_capturing r st Hcap).
  - intros Hi. destruct (capture st) eqn:Hcap.
    + rewrite (handle_response_classify r st Hcap). by apply classify_ignored.
    + by apply handle_response_not_capturing.
Qed.

(** X8. On the marker, listing-list and price channels, and for a URL of
    no channel, the handler returns whatever the payload is: what goes
    wrong while reading it is swallowed. *)
Theorem handle_response_guarded (r : response) (st : session) :
  channel_of (url r) <> Generic -> fst (handle_response r st) = Ok tt.
Proof.
  intros Hg. destruct (capture st) eqn:Hcap.
  - rewrite (handle_response_classify r st Hcap).
    revert Hg. unfold classify, channel_of.
    destruct (contains (u "complexes/single-markers") (url r)
              || contains (u "houses/single-markers") (url r)); [done|].
    destruct (contains (u "/api/articles/complex/") (url r)
              || contains (u "/api/articles/house/") (url r)); [done|].
    destruct (contains (u "/api/complexes/") (url r) && contains (u "/prices") (url r));
      [done|].
    by destruct (contains (u "/api/") (url r)).
  - by rewrite (handle_response_not_capturing r st Hcap).
Qed.

Lemma classify_generic r st :
  channel_of (url r) = Generic ->
  classify r st = bind (try_default (lift (body r)) JNull) collect_from st.
Proof.
  unfold classify, channel_of.
  destruct (contains (u "complexes/single-markers") (url r)
            || contains (u "houses/single-markers") (url r)); [done|].
  destruct (contains (u "/api/articles/complex/") (url r)
            || contains (u "/api/articles/house/") (url r)); [done|].
  destruct (contains (u "/api/complexes/") (url r) && contains (u "/prices") (url r));
    [done|].
  by destruct (contains (u "/api/") (url r)).
Qed.

(** X9. The generic channel is not guarded: when the payload is a list
    that starts with a record carrying a listing number and a trade type
    that is no text (so that [.upper()] fails), the error leaves the
    handler. *)
Theorem handle_response_generic_raises (r : response) (st : session)
    (d : list (pystr * json)) (rest : list json) (v : json) (e : exn) :
  capture st = true ->
  channel_of (url r) = Generic ->
  body r = Ok (JList (JDict d :: rest)) ->
  listing_no (JDict d) = Ok v -> truthy v = true ->
  trade_code [u "tradeType"; u "tradTp"] (JDict d) = Raise e ->
  fst (handle_response r st) = Raise e.
Proof.
  intros Hcap Hch Hbody Hno Hv He.
  rewrite (handle_response_classify r st Hcap), (classify_generic r st Hch).
  unfold bind at 1, try_default, lift. rewrite Hbody.
  cbn [collect_from]. unfold bind at 1, collect_item.
  unfold listing_no in Hno. unfold trade_code in He.
  unfold bind at 1, lift at 1. rewrite Hno, Hv.
  unfold bind at 1, lift at 1. rewrite He. reflexivity.
Qed.

End Channels.

Definition empty_session : session :=
  {| bufs := empty_buffers; capture := true; complex_meta := ∅ |}.

Definition markers_url : pystr :=
  u "https://new.land.naver.com/api/complexes/single-markers/2.0".

Definition generic_url : pystr := u "https://new.land.naver.com/api/regions/list".

Lemma ingest_keeps_buffers_consistent_witness :
  consistent (Builtins:=blank_repr)
    (bufs (ingest (Builtins:=blank_repr)
             [{| url := markers_url;
                 body := Ok (JList [JDict [(u "markerId", JStr (u "1101"))]]) |}]
             empty_session)).
Proof.
  apply (ingest_keeps_buffers_consistent (Builtins:=blank_repr)).
  apply consistent_empty.
Defined.

Lemma ingest_collects_sales_only_witness :
  sales_only
    (bufs (ingest (Builtins:=blank_repr)
             [{| url := generic_url;
                 body := Ok (JList [JDict [(u "articleNo", JStr (u "2301"));
                                           (u "tradeType", JStr (u "A1"))]]) |}]
             empty_session)).
Proof.
  apply (ingest_collects_sales_only (Builtins:=blank_repr)). constructor.
Defined.

Lemma handle_response_guarded_witness :
  fst (handle_response (Builtins:=blank_repr)
         {| url := markers_url; body := Raise JSONDecodeError |} empty_session) = Ok tt.
Proof.
  apply (handle_response_guarded (Builtins:=blank_repr)). vm_compute. done.
Defined.

Lemma handle_response_generic_raises_witness :
  fst (handle_response (Builtins:=blank_repr)
         {| url := generic_url;
            body := Ok (JList [JDict [(u "articleNo", JInt 2301);
                                      (u "tradeType", JInt 1)]]) |}
         empty_session) = Raise AttributeError.
Proof.
  eapply (handle_response_generic_raises (Builtins:=blank_repr));
    [reflexivity | vm_compute; reflexivity | reflexivity
    | vm_compute; reflexivity | reflexivity | vm_compute; reflexivity].
Defined.

(** ** The detail record *)

(** What [p{lo,hi}] consumed: between [lo] and [hi] characters, all of
    them [p] characters. *)
Lemma rmatch_rep_consumed {R : Type} (p : char -> bool) (lo hi : nat) (s : pystr)
    (pos : nat) (caps : captures) (k : pystr -> nat -> captures -> option R) (x : R) :
  rmatch (Rep lo hi (Cls p)) s pos caps k = Some x ->
  exists pre s', s = pre ++ s' /\ Forall (fun c => p c = true) pre
                 /\ (lo <= length pre <= hi)%nat
                 /\ k s' (pos + length pre)%nat caps = Some x.
Proof.
  cbn [rmatch]. revert lo s pos.
  induction hi as [|hi IH]; intros lo s pos Hm.
  - destruct lo; [|done]. exists [], s. rewrite Nat.add_0_r. by repeat split.
  - assert (Hstep : forall lo',
      match s with
      | c :: s1 =>
        if p c then
          (fix rep (hi lo : nat) (s : pystr) (pos : nat) (caps : captures)
               {struct hi} : option R :=
             match hi with
             | O => match lo with O => k s pos caps | S _ => None end
             | S hi' =>
               match lo with
               | S lo' =>
                 rmatch (Cls p) s pos caps
                   (fun s' pos' caps' => rep hi' lo' s' pos' caps')
               | O =>
                 match rmatch (Cls p) s pos caps
                         (fun s' pos' caps' => rep hi' O s' pos' caps') with
                 | Some x => Some x
                 | None => k s pos caps
                 end
               end
             end) hi lo' s1 (S pos) caps
        else None
      | [] => None
      end = Some x ->
      exists pre s', s = pre ++ s' /\ Forall (fun c => p c = true) pre
                     /\ (S lo' <= length pre <= S hi)%nat
                     /\ k s' (pos + length pre)%nat caps = Some x).
    { intros lo' Hs. destruct s as [|c s1]; [done|].
      destruct (p c) eqn:Hc; [|done].
      apply IH in Hs as (pre & s' & -> & Hpre & Hlen & Hk).
      exists (c :: pre), s'. split; [done|]. split; [by constructor|].
      split; [simpl; lia|]. rewrite <- Hk. f_equal. simpl. lia. }
    destruct lo as [|lo].
    + match type of Hm with match ?m with _ => _ end = _ => destruct m eqn:Hb end.
      * injection Hm as ->.
        apply (Hstep O) in Hb as (pre & s' & -> & Hpre & Hlen & Hk).
        exists pre, s'. repeat split; try done; lia.
      * exists [], s. rewrite Nat.add_0_r. repeat split; try done; simpl; lia.
    + apply (Hstep lo) in Hm as (pre & s' & -> & Hpre & Hlen & Hk).
      exists pre, s'. repeat split; try done; lia.
Qed.

Definition hangul (c : char) : bool := ((44032 <=? c) && (c <=? 55203))%N.

Lemma fullmatch_hangul_name (l : pystr) :
  is_Some (fullmatch re_hangul_name l) ->
  (2 <= length l <= 4)%nat /\ Forall (fun c => hangul c = true) l.
Proof.
  intros [caps Hm]. unfold fullmatch, re_hangul_name in Hm.
  apply (rmatch_rep_consumed hangul) in Hm as (pre & s' & -> & Hpre & Hlen & Hk).
  destruct s'; [|done]. by rewrite app_nil_r.
Qed.

Lemma find_agent_line (lines rest : list pystr) (i : nat) (l : pystr) (j : nat) :
  find_agent lines rest i = Some (l, j) -> is_agent_line lines j l = true.
Proof.
  revert i. induction rest as [|l' rest IH]; intros i; [done|].
  simpl. destruct (is_agent_line lines i l') eqn:Hl.
  - by intros [= <- <-].
  - apply IH.
Qed.

(** A match found by [search] is a match at some position. *)
Lemma search_from_match (r : regex) (s : pystr) (pos : nat) (m : rmatched) :
  search_from r s pos = Some m -> exists s' pos', match_at r s' pos' = Some m.
Proof.
  revert pos. induction s as [|c s IH]; intros pos; simpl.
  - destruct (match_at r [] pos) eqn:Hm; [|done]. intros [= <-]. eauto.
  - destruct (match_at r (c :: s) pos) eqn:Hm.
    + intros [= <-]. eauto.
    + apply IH.
Qed.

(** The amount after 최고 or 최저 is captured with at least one character. *)
Lemma re_period_amount (label body_txt : pystr) (m : rmatched) :
  search (re_period label) body_txt = Some m -> group (m_caps m) 2 <> [].
Proof.
  intros Hs. apply search_from_match in Hs as (s & pos & Hm).
  unfold match_at, re_period in Hm. rewrite rmatch_Cat in Hm.
  apply rmatch_continues in Hm as (pre & s' & caps' & -> & Hm).
  rewrite rmatch_Grp in Hm. unfold Plus in Hm. rewrite rmatch_Cat in Hm.
  destruct s' as [|c s']; [done|]. cbn [rmatch] in Hm.
  destruct (money_char c); [|done].
  apply rmatch_star_consumed in Hm as (run & s'' & -> & Hrun & Hm).
  injection Hm as <-. cbn [m_caps group List.find fst snd Nat.eqb].
  replace (S (pos + length pre + length run) - (pos + length pre))%nat
    with (S (length run)) by lia.
  done.
Qed.

(** One of 이미지, 상세보기, 중개사, 중개소: text of the page that is no name. *)
Definition ui_word (l : pystr) : Prop :=
  l ∈ [u "이미지"; u "상세보기"; u "중개사"; u "중개소"].

(** X10. The record read off a detail page: the broker's name is empty
    or two to four Hangul syllables that are none of the page's own
    words; the lease period is present exactly when a highest or a lowest
    lease is; the amounts are never negative; and the previous lease is
    the one found by the pre-check. *)
Theorem extract_record_fields (body_txt : pystr) (prev : option Z) :
  let d := extract_record body_txt prev in
  (agent_name d = []
   \/ ((2 <= length (agent_name d) <= 4)%nat
       /\ Forall (fun c => hangul c = true) (agent_name d)
       /\ ~ ui_word (agent_name d)))
  /\ (period_years d = None <-> jeonse_max d = None /\ jeonse_min d = None)
  /\ (forall v, jeonse_max d = Some v -> 0 <= v)
  /\ (forall v, jeonse_min d = Some v -> 0 <= v)
  /\ prev_jeonse d = prev.
Proof.
  intros d. subst d. unfold extract_record. cbv zeta. cbn [agent_name period_years
    jeonse_max jeonse_min prev_jeonse].
  split; [|split; [|split; [|split]]].
  - destruct (find_agent _ _ _) as [[l j]|] eqn:Hf; [|by left].
    right. apply find_agent_line in Hf. unfold is_agent_line in Hf.
    apply andb_prop in Hf as [Hf _]. apply andb_prop in Hf as [Hname Hword].
    apply bool_decide_eq_true in Hname. apply fullmatch_hangul_name in Hname as [? ?].
    apply negb_true_iff, bool_decide_eq_false in Hword. done.
  - destruct (search (re_period (u "최고")) body_txt) as [m1|] eqn:H1;
      destruct (search (re_period (u "최저")) body_txt) as [m2|] eqn:H2; simpl.
    + split; [done|]. intros [Hn _]. apply parse_kr_money_to_won_None in Hn.
      by apply re_period_amount in H1.
    + split; [done|]. intros [Hn _]. apply parse_kr_money_to_won_None in Hn.
      by apply re_period_amount in H1.
    + split; [done|]. intros [_ Hn]. apply parse_kr_money_to_won_None in Hn.
      by apply re_period_amount in H2.
    + done.
  - intros v. destruct (search _ _) as [m|]; [|done]. simpl.
    apply parse_kr_money_to_won_nonneg.
  - intros v. destruct (search (re_period (u "최저")) _) as [m|]; [|done]. simpl.
    apply parse_kr_money_to_won_nonneg.
  - reflexivity.
Qed.

(** ** The detail phase end to end *)

Lemma bind_Ok {S A B} (m : M S A) (k : A -> M S B) (s : S) (b : B) :
  fst (bind m k s) = Ok b -> exists a s', m s = (Ok a, s') /\ fst (k a s') = Ok b.
Proof. unfold bind. destruct (m s) as [[a|e] s']; [eauto|done]. Qed.

Section ScrapeProps.
Context {P : Type} `{Page : DetailPage P}.

Lemma scrape_article_detail_inv (cfg : config) (article_no : pystr) (dp : P)
    (d : detail_record) :
  fst (scrape_article_detail cfg article_no dp) = Ok (Detail d) ->
  (exists body_txt, d = extract_record body_txt (prev_jeonse d))
  /\ (forall v, prev_jeonse d = Some v -> 0 <= v)
  /\ (ONLY_WITH_PREV_JEONSE cfg = true -> exists v, prev_jeonse d = Some v /\ 0 < v).
Proof.
  unfold scrape_article_detail. intros Hd.
  apply bind_Ok in Hd as (_ & p1 & _ & Hd).
  apply bind_Ok in Hd as (body0 & p2 & _ & Hd).
  apply bind_Ok in Hd as (body1 & p3 & _ & Hd).
  cbv zeta in Hd.
  set (prev := match grab re_prev_jeonse body1 with
               | [] => None
               | _ => parse_kr_money_to_won (grab re_prev_jeonse body1)
               end) in *.
  assert (Hnonneg : forall v, prev = Some v -> 0 <= v).
  { intros v. subst prev. destruct (grab re_prev_jeonse body1); [done|].
    apply parse_kr_money_to_won_nonneg. }
  destruct (ONLY_WITH_PREV_JEONSE cfg && no_amount prev) eqn:Hskip; [done|].
  apply bind_Ok in Hd as (body2 & p4 & _ & Hd).
  injection Hd as <-. cbn [prev_jeonse extract_record].
  split; [by eexists|]. split; [done|].
  intros Hcfg. rewrite Hcfg in Hskip. simpl in Hskip.
  destruct prev as [v|]; [|done]. exists v. split; [done|].
  simpl in Hskip. apply Z.eqb_neq in Hskip. specialize (Hnonneg v eq_refl). lia.
Qed.

(** X11. A record that [scrape_article_detail] returns is read off some
    text of the page together with the previous lease of the pre-check;
    that amount is never negative, and when listings without a previous
    lease are skipped it is present and positive. *)
Theorem scrape_article_detail_record (cfg : config) (article_no : pystr) (dp : P)
    (d : detail_record) :
  fst (scrape_article_detail cfg article_no dp) = Ok (Detail d) ->
  (exists body_txt, d = extract_record body_txt (prev_jeonse d))
  /\ (forall v, prev_jeonse d = Some v -> 0 <= v)
  /\ (ONLY_WITH_PREV_JEONSE cfg = true -> exists v, prev_jeonse d = Some v /\ 0 < v).
Proof. apply scrape_article_detail_inv. Qed.

End ScrapeProps.

(** A quotient of a non-positive by a positive integer is a float that
    is not positive. *)
Lemma py_truediv_nonpos (g s : Z) (f : float) :
  g <= 0 -> 0 < s -> py_truediv g s = Ok f ->
  match f with Fin m _ => m <= 0 | Inf _ => False end.
Proof.
  intros Hg Hs. unfold py_truediv, round_q.
  destruct (Z.ltb_spec s 0); [lia|].
  destruct (Z.ltb_spec g 0).
  - pose proof (round_pos_nonneg (- g) s) as Hr.
    destruct (round_pos (- g) s) as [m e|neg]; simpl; [|done].
    intros [= <-]. lia.
  - assert (g = 0) as -> by lia.
    destruct (round_pos 0 s) as [m e|neg] eqn:Hr; [|done].
    intros [= <-]. unfold round_pos in Hr. simpl in Hr. injection Hr as <- _. lia.
Qed.

Section FetchOneProps.
Context `{Builtins : PyBuiltins} {P : Type} `{Page : DetailPage P}.

Lemma sale_price_dict (a : json) (v : option Z) :
  sale_price a = Ok v ->
  (exists fields, a = JDict fields) /\ (forall s, v = Some s -> 0 <= s).
Proof.
  unfold sale_price. destruct a as [ | | | | | |fields]; try done.
  simpl. intros Hv. split; [by eexists|].
  destruct (py_or _ _) as [ | | | |txt| | ]; try done. injection Hv as <-.
  intros z. apply parse_kr_money_to_won_nonneg.
Qed.

(** X12. A row that [fetch_one] returns under the two policies of the
    source compares a known sale price [s] with a known previous lease
    [p]: [0 <= s <= p] and [0 < p], the gap amount is [s - p], the gap
    ratio is absent when [s] is 0 and is otherwise a finite float that is
    not positive; and the pool has as many pages after the task as
    before. *)
Theorem fetch_one_row (cfg : config) (a : json) (page_q page_q' : list P) (r : row) :
  ONLY_WITH_PREV_JEONSE cfg = true -> ONLY_PREV_GT_SALE cfg = true ->
  fetch_one cfg a page_q = Some (Ok (Some r), page_q') ->
  exists s p,
    r_sale r = Some s /\ prev_jeonse (r_detail r) = Some p
    /\ 0 <= s <= p /\ 0 < p
    /\ r_gap_amount r = Some (s - p)
    /\ match r_gap_ratio r with
       | None => s = 0
       | Some (Fin m _) => s <> 0 /\ m <= 0
       | Some (Inf _) => False
       end
    /\ length page_q' = length page_q.
Proof.
  intros Hprev Hgt. unfold fetch_one.
  destruct (sale_price a) as [deal|e] eqn:Hsale; [|done].
  apply sale_price_dict in Hsale as [[fields ->] Hdeal].
  destruct page_q as [|dp idle]; [done|].
  destruct (scrape_with cfg (JDict fields) dp) as [extra dp'] eqn:Hscrape.
  intros [= Hrow <-].
  destruct extra as [[|d]|e]; [done| |done].
  assert (Hd : exists p, prev_jeonse d = Some p /\ 0 < p).
  { unfold scrape_with in Hscrape.
    destruct (get_default _ _ _) as [no|e]; [|done].
    eapply scrape_article_detail_inv; [|exact Hprev].
    by rewrite Hscrape. }
  destruct Hd as (p & Hp & Hpos).
  rewrite gap_row_dict, Hp in Hrow. unfold filtered_out in Hrow.
  rewrite Hgt in Hrow. destruct deal as [s|]; [|done].
  specialize (Hdeal s eq_refl). cbn [andb] in Hrow.
  destruct (Z.ltb_spec p s) as [|Hle]; [done|].
  unfold gap_amount_of, gap_ratio_of in Hrow.
  exists s, p.
  destruct (Z.eqb_spec s 0) as [Hs|Hs].
  - injection Hrow as <-. cbn. rewrite length_app. simpl.
    repeat split; try done; lia.
  - destruct (py_truediv (s - p) s) as [f|e] eqn:Hf; [|done].
    injection Hrow as <-. cbn. rewrite length_app. simpl.
    apply py_truediv_nonpos in Hf; [|lia..].
    repeat split; try done; try lia.
    destruct f; [|done]. split; [done | lia].
Qed.

End FetchOneProps.

(** A tab on a listing whose page shows a previous lease of 3억. *)
Definition lease_page : pystr :=
  u "매매 2억 5,000" ++ [c_newline] ++ u "기전세금 3억" ++ [c_newline]
  ++ u "중개사" ++ [c_newline] ++ u "홍길동" ++ [c_newline]
  ++ u "한강 공인중개사사무소" ++ [c_newline] ++ u "02-555-1234".

Definition lease_tab : DetailPage unit :=
  {| goto := fun _ => ret tt;
     page_url := fun _ => [];
     inner_text_body := ret lease_page;
     click_text := fun _ => ret tt |}.

Definition listing_2 : json :=
  JDict [(u "articleNo", JStr (u "2402"));
         (u "dealOrWarrantPrc", JStr (u "2억 5,000"))].

Lemma scrape_article_detail_record_witness :
  exists v, prev_jeonse (extract_record lease_page (Some 300000000)) = Some v /\ 0 < v.
Proof.
  eapply (scrape_article_detail_record (Page:=lease_tab) default_config (u "2402") tt);
    [vm_compute; reflexivity | reflexivity].
Defined.

Lemma fetch_one_row_witness :
  exists r s p,
    fetch_one (Builtins:=blank_repr) (Page:=lease_tab) default_config listing_2 [tt]
      = Some (Ok (Some r), [tt])
    /\ r_sale r = Some s /\ prev_jeonse (r_detail r) = Some p
    /\ 0 <= s <= p /\ 0 < p.
Proof.
  assert (Hrun : { r | fetch_one (Builtins:=blank_repr) (Page:=lease_tab)
                         default_config listing_2 [tt] = Some (Ok (Some r), [tt]) }).
  { eexists. vm_compute. reflexivity. }
  destruct Hrun as [r Hr]. exists r.
  destruct (fetch_one_row (Builtins:=blank_repr) (Page:=lease_tab)
              default_config listing_2 [tt] [tt] r eq_refl eq_refl Hr)
    as (s & p & H1 & H2 & H3 & H4 & _).
  exists s, p. exact (conj Hr (conj H1 (conj H2 (conj H3 H4)))).
Defined.

(** ** The start position *)

Lemma flt_irrefl (a : float) : flt a a = false.
Proof.
  destruct a as [m e|[|]]; simpl; [|done..]. apply Z.ltb_irrefl.
Qed.

Lemma flt_asym (a b : float) : flt a b = true -> flt b a = false.
Proof.
  destruct a as [m e|[|]], b as [m' e'|[|]]; simpl; try done.
  rewrite (Z.min_comm e' e). intros H%Z.ltb_lt. apply Z.ltb_ge. lia.
Qed.

(** [x] is a number from [lo] to [hi]. *)
Definition within (lo hi : float) (x : pyfloat) : Prop :=
  match x with
  | Num f => flt f lo = false /\ flt hi f = false
  | NaN => False
  end.

(** [max(lo, min(x, hi))] *)
Definition clamp1 (lo hi : float) (x : pyfloat) : pyfloat :=
  py_max (Num lo) (py_min x (Num hi)).

Lemma clamp1_within (lo hi : float) (x : pyfloat) :
  flt lo hi = true -> within lo hi (clamp1 lo hi x).
Proof.
  intros Hlh. pose proof (flt_asym _ _ Hlh) as Hhl.
  pose proof (flt_irrefl lo) as Hlo. pose proof (flt_irrefl hi) as Hhi.
  unfold clamp1, py_max, py_min. destruct x as [f|]; simpl.
  - destruct (flt hi f) eqn:Hf; simpl.
    + by rewrite Hlh.
    + destruct (flt lo f) eqn:Hl; simpl; [|done].
      split; [by apply flt_asym | done].
  - done.
Qed.

Lemma clamp1_inside (lo hi f : float) :
  flt lo f = true -> flt hi f = false -> clamp1 lo hi (Num f) = Num f.
Proof. intros Hl Hh. unfold clamp1, py_max, py_min. simpl. by rewrite Hh, Hl. Qed.

Lemma clamp1_idempotent (lo hi : float) (x : pyfloat) :
  flt lo hi = true -> clamp1 lo hi (clamp1 lo hi x) = clamp1 lo hi x.
Proof.
  intros Hlh. pose proof (flt_asym _ _ Hlh) as Hhl.
  pose proof (flt_irrefl lo) as Hlo. pose proof (flt_irrefl hi) as Hhi.
  unfold clamp1, py_max, py_min. destruct x as [f|]; simpl.
  - destruct (flt hi f) eqn:Hf; simpl.
    + rewrite Hlh. simpl. by rewrite Hhi, Hlh.
    + destruct (flt lo f) eqn:Hl; simpl.
      * by rewrite Hf, Hl.
      * by rewrite Hhl, Hlo.
  - by rewrite Hhl, Hlo.
Qed.

(** X13. The start position is always brought into range: whatever the
    two floats are (NaN and the infinities included), [clamp_korea]
    returns a latitude from 33.0 to 39.5 and a longitude from 124.0 to
    132.1; it returns NaN as the lower bound, leaves a position strictly
    above the lower and not above the upper bounds as it is, and clamping
    twice is clamping once. The zoom used for the map is from 15 to 17,
    is the requested one when that is in range, and the later
    [max(15, z_clamped)] changes nothing. *)
Theorem clamp_korea_in_bounds (lat lon : pyfloat) (zoom : Z) :
  within (Fin 33 0) (Fin 79 (-1)) (fst (clamp_korea lat lon))
  /\ within (Fin 124 0) (round_pos 1321 10) (snd (clamp_korea lat lon))
  /\ clamp_korea (fst (clamp_korea lat lon)) (snd (clamp_korea lat lon))
     = clamp_korea lat lon
  /\ clamp_korea NaN NaN = (Num (Fin 33 0), Num (Fin 124 0))
  /\ (forall f g,
        flt (Fin 33 0) f = true -> flt (Fin 79 (-1)) f = false ->
        flt (Fin 124 0) g = true -> flt (round_pos 1321 10) g = false ->
        clamp_korea (Num f) (Num g) = (Num f, Num g))
  /\ ZOOM_MIN <= z_clamped zoom <= ZOOM_MAX
  /\ (ZOOM_MIN <= zoom <= ZOOM_MAX -> z_clamped zoom = zoom)
  /\ Z.max 15 (z_clamped zoom) = z_clamped zoom.
Proof.
  assert (Hlat : flt (Fin 33 0) (Fin 79 (-1)) = true) by (vm_compute; reflexivity).
  assert (Hlon : flt (Fin 124 0) (round_pos 1321 10) = true) by (vm_compute; reflexivity).
  change (clamp_korea lat lon)
    with (clamp1 (Fin 33 0) (Fin 79 (-1)) lat,
          clamp1 (Fin 124 0) (round_pos 1321 10) lon).
  cbn [fst snd].
  split; [by apply clamp1_within|]. split; [by apply clamp1_within|].
  split.
  { change (clamp_korea ?a ?b)
      with (clamp1 (Fin 33 0) (Fin 79 (-1)) a, clamp1 (Fin 124 0) (round_pos 1321 10) b).
    by rewrite !clamp1_idempotent. }
  split; [vm_compute; reflexivity|].
  split.
  { intros f g H1 H2 H3 H4.
    change (clamp_korea (Num f) (Num g))
      with (clamp1 (Fin 33 0) (Fin 79 (-1)) (Num f),
            clamp1 (Fin 124 0) (round_pos 1321 10) (Num g)).
    by rewrite !clamp1_inside. }
  unfold z_clamped, ZOOM_MIN, ZOOM_MAX. lia.
Qed.

(** ** The order of the detail phase *)

Lemma insert_by_perm (k : Z) (x : json) (l : list (Z * json)) :
  Permutation (insert_by k x l) ((k, x) :: l).
Proof.
  induction l as [|[k' y] l IH]; simpl; [done|].
  destruct (k <=? k'); [done|].
  rewrite IH. apply perm_swap.
Qed.

Lemma sort_keyed_perm (kl : list (Z * json)) : Permutation (sort_keyed kl) kl.
Proof.
  induction kl as [|[k x] kl IH]; simpl; [done|].
  rewrite insert_by_perm. by constructor.
Qed.

(** Ascending in the keys. *)
Definition ascending (kl : list (Z * json)) : Prop :=
  StronglySorted (fun p q => fst p <= fst q) kl.

Lemma insert_by_ascending (k : Z) (x : json) (l : list (Z * json)) :
  ascending l -> ascending (insert_by k x l).
Proof.
  unfold ascending. induction 1 as [|[k' y] l Hl IH Hall]; simpl.
  - repeat constructor.
  - destruct (Z.leb_spec k k') as [Hle|Hgt].
    + constructor; [by constructor|].
      constructor; [simpl; lia|].
      eapply Forall_impl; [exact Hall|]. simpl. intros [k2 z] ?. simpl in *. lia.
    + constructor; [exact IH|].
      rewrite insert_by_perm. constructor; [simpl; lia | done].
Qed.

Lemma sort_keyed_ascending (kl : list (Z * json)) : ascending (sort_keyed kl).
Proof.
  induction kl as [|[k x] kl IH]; simpl; [constructor|].
  by apply insert_by_ascending.
Qed.

(** The elements of one key keep their order. *)
Lemma insert_by_stable (k0 k : Z) (x : json) (l : list (Z * json)) :
  ascending l ->
  List.filter (fun p => fst p =? k0) (insert_by k x l)
  = List.filter (fun p => fst p =? k0) ((k, x) :: l).
Proof.
  unfold ascending. induction 1 as [|[k' y] l Hl IH Hall]; [done|].
  simpl. destruct (Z.leb_spec k k') as [Hle|Hgt]; [done|].
  simpl. destruct (Z.eqb_spec k' k0) as [->|Hne].
  - (* [y] has the key looked for: [x], of a larger key, has not *)
    destruct (Z.eqb_spec k k0) as [->|_]; [lia|].
    f_equal. rewrite IH. simpl. destruct (Z.eqb_spec k k0); [lia|done].
  - rewrite IH. simpl. done.
Qed.

Lemma sort_keyed_stable (k0 : Z) (kl : list (Z * json)) :
  List.filter (fun p => fst p =? k0) (sort_keyed kl)
  = List.filter (fun p => fst p =? k0) kl.
Proof.
  induction kl as [|[k x] kl IH]; [done|].
  simpl sort_keyed. rewrite insert_by_stable by apply sort_keyed_ascending.
  simpl. by rewrite IH.
Qed.

Lemma keyed_elements (key : json -> outcome Z) (l : list json) (kl : list (Z * json)) :
  keyed key l = Ok kl ->
  map snd kl = l /\ Forall (fun p => key (snd p) = Ok (fst p)) kl.
Proof.
  revert kl. induction l as [|x l IH]; intros kl; simpl.
  - intros [= <-]. by split.
  - destruct (key x) as [k|e] eqn:Hk; [|done]. simpl.
    destruct (keyed key l) as [kl'|e]; [|done]. simpl.
    intros [= <-]. destruct (IH kl' eq_refl) as [Hm Hall].
    simpl. split; [by f_equal | by constructor].
Qed.

Lemma keyed_raises (key : json -> outcome Z) (l : list json) :
  (exists e, keyed key l = Raise e) <-> Exists (fun x => exists e, key x = Raise e) l.
Proof.
  induction l as [|x l IH]; simpl.
  - split; [by intros [e ?] | by intros H; inversion H].
  - destruct (key x) as [k|e] eqn:Hk; simpl.
    + destruct (keyed key l) as [kl|e]; simpl.
      * split; [by intros [e ?]|].
        intros H. inversion H as [? ? [e He]|? ? Hex]; subst; [congruence|].
        apply IH in Hex as [e ?]. done.
      * split; [|by eauto]. intros _. apply Exists_cons_tl, IH. eauto.
    + split; [|by eauto]. intros _. apply Exists_cons_hd. eauto.
Qed.

Lemma backlog_prefix (max_detail : Z) (l : list json) :
  backlog max_detail l `prefix_of` l.
Proof. unfold backlog. cbv zeta. destruct (0 <=? _); apply prefix_take. Qed.

Lemma backlog_length (max_detail : Z) (l : list json) :
  0 < max_detail -> Z.of_nat (length (backlog max_detail l)) <= max_detail.
Proof.
  intros Hmax. unfold backlog. cbv zeta.
  destruct (Z.eqb_spec max_detail 0); [lia|].
  destruct (Z.leb_spec 0 max_detail); [|lia].
  rewrite length_take. lia.
Qed.

Lemma ascending_prices (l : list (Z * json)) :
  ascending l ->
  Forall (fun p => _sale_price_of (snd p) = Ok (fst p)) l ->
  StronglySorted
    (fun a b => exists ka kb, _sale_price_of a = Ok ka
                              /\ _sale_price_of b = Ok kb /\ ka <= kb)
    (map snd l).
Proof.
  unfold ascending. induction 1 as [|p l Hl IH Hfa]; intros Hall; simpl; [constructor|].
  apply Forall_cons in Hall as [Hp Hall].
  constructor; [by apply IH|].
  rewrite Forall_forall in Hfa, Hall. apply Forall_forall.
  intros b [q [-> Hq]]%list_elem_of_fmap.
  exists (fst p), (fst q). split; [done|]. split; [by apply Hall|]. by apply Hfa.
Qed.

(** The listings whose sale price is [k]. *)
Definition priced (k : Z) (a : json) : bool :=
  match _sale_price_of a with
  | Ok k' => k' =? k
  | Raise _ => false
  end.

(** X14. The listings are worked off in the stable ascending order of
    their sale price, a missing price or a price of 0 counting as
    [10**12]: the sorted list is a rearrangement of [article_list]; when
    every price can be read, the prices ascend along it and listings of
    one price keep their order; when the price of one listing cannot be
    read (the listing is no dict, its price no text) the list stays as it
    was. At most [max_detail] of them are taken, from the front. *)
Theorem sort_by_price_order (article_list : list json) (max_detail : Z) :
  Permutation (sort_by_price article_list) article_list
  /\ (Forall (fun a => is_ok (_sale_price_of a) = true) article_list ->
      StronglySorted
        (fun a b => exists ka kb, _sale_price_of a = Ok ka
                                  /\ _sale_price_of b = Ok kb /\ ka <= kb)
        (sort_by_price article_list)
      /\ forall k,
           List.filter (priced k) (sort_by_price article_list)
           = List.filter (priced k) article_list)
  /\ (Exists (fun a => is_ok (_sale_price_of a) = false) article_list ->
      sort_by_price article_list = article_list)
  /\ backlog max_detail (sort_by_price article_list)
       `prefix_of` sort_by_price article_list
  /\ (0 < max_detail ->
      Z.of_nat (length (backlog max_detail (sort_by_price article_list))) <= max_detail).
Proof.
  unfold sort_by_price.
  destruct (keyed _sale_price_of article_list) as [kl|e] eqn:Hkl.
  - destruct (keyed_elements _ _ _ Hkl) as [Hm Hall].
    assert (Hperm : Permutation (sort_keyed kl) kl) by apply sort_keyed_perm.
    assert (Hall' : Forall (fun p => _sale_price_of (snd p) = Ok (fst p)) (sort_keyed kl)).
    { by rewrite Hperm. }
    split; [|split; [|split; [|split]]].
    + rewrite <- Hm. by apply Permutation_map.
    + intros _. split.
      * apply ascending_prices; [apply sort_keyed_ascending | done].
      * intros k. rewrite <- Hm.
        assert (Hf : forall l, Forall (fun p => _sale_price_of (snd p) = Ok (fst p)) l ->
                  List.filter (priced k) (map snd l)
                  = map snd (List.filter (fun p => fst p =? k) l)).
        { induction 1 as [|p l Hp _ IH]; [done|]. simpl. unfold priced at 1.
          rewrite Hp, IH. by destruct (fst p =? k). }
        rewrite !Hf by done. by rewrite sort_keyed_stable.
    + intros Hex. exfalso.
      assert (Hr : exists e, keyed _sale_price_of article_list = Raise e).
      { apply keyed_raises. eapply Exists_impl; [exact Hex|].
        intros a. cbv beta. destruct (_sale_price_of a); [done | eauto]. }
      destruct Hr as [e He]. congruence.
    + apply backlog_prefix.
    + apply backlog_length.
  - split; [done|]. split; [|split; [done|split]].
    + intros Hall. exfalso.
      assert (Hex : Exists (fun x => exists e, _sale_price_of x = Raise e) article_list).
      { apply keyed_raises. eauto. }
      apply Exists_exists in Hex as (a & Ha & e' & He').
      rewrite Forall_forall in Hall. specialize (Hall a Ha). by rewrite He' in Hall.
    + apply backlog_prefix.
    + apply backlog_length.
Qed.

(** ** MapNavigator *)

(** How often a kind of action occurs in a record. *)
Definition occurrences {F : Type} (p : action F -> bool) (tr : list (action F)) : nat :=
  length (List.filter p tr).

Definition is_wheel {F : Type} (a : action F) : bool :=
  match a with MouseWheel _ _ => true | _ => false end.
Definition is_down {F : Type} (a : action F) : bool :=
  match a with MouseDown => true | _ => false end.
Definition is_up {F : Type} (a : action F) : bool :=
  match a with MouseUp => true | _ => false end.
Definition is_click {F : Type} (a : action F) : bool :=
  match a with Click _ => true | _ => false end.
Definition is_nudge {F : Type} (a : action F) : bool :=
  match a with MouseWheel 0 (-40) => true | _ => false end.

Lemma occurrences_app {F : Type} (p : action F -> bool) (t1 t2 : list (action F)) :
  occurrences p (t1 ++ t2) = (occurrences p t1 + occurrences p t2)%nat.
Proof. unfold occurrences. by rewrite List.filter_app, length_app. Qed.

(** [m] adds a record [new] to the trace such that [Q] holds of its
    outcome and [new]. *)
Record emits {F B A : Type} (Q : outcome A -> list (action F) -> Prop)
    (m : M (nav F B) A) : Prop :=
  { emitted : forall s, exists new,
        trace (exec m s) = trace s ++ new /\ Q (fst (m s)) new }.
Arguments emitted {F B A Q m} _ s.

Section Emits.
Context {F B : Type} `{Float : PyFloat F} `{Page : MapPage F B}.

Lemma emits_mono {A} (Q Q' : outcome A -> list (action F) -> Prop) (m : M (nav F B) A) :
  (forall o new, Q o new -> Q' o new) -> emits Q m -> emits Q' m.
Proof.
  intros HQ Hm. split. intros s. destruct (emitted Hm s) as (new & Ht & Hq). eauto.
Qed.

Lemma emits_ret {A} (Q : outcome A -> list (action F) -> Prop) (a : A) :
  Q (Ok a) [] -> emits Q (ret (S:=nav F B) a).
Proof. intros Hq. split. intros s. exists []. by rewrite app_nil_r. Qed.

Lemma emits_bind {A C} (Q1 : outcome A -> list (action F) -> Prop)
    (Q : outcome C -> list (action F) -> Prop)
    (m : M (nav F B) A) (k : A -> M (nav F B) C) :
  emits Q1 m ->
  (forall e n1, Q1 (Raise e) n1 -> Q (Raise e) n1) ->
  (forall a n1, Q1 (Ok a) n1 -> emits (fun o n2 => Q o (n1 ++ n2)) (k a)) ->
  emits Q (bind m k).
Proof.
  intros Hm Hraise Hk. split. intros s.
  destruct (emitted Hm s) as (n1 & Ht & Hq). unfold exec, bind in *.
  destruct (m s) as [[a|e] s1]; simpl in *.
  - destruct (emitted (Hk a n1 Hq) s1) as (n2 & Ht2 & Hq2).
    exists (n1 ++ n2). unfold exec in Ht2. rewrite Ht2, Ht, app_assoc. done.
  - exists n1. auto.
Qed.

(** A step that asks nothing of the page. *)
Definition silent {A} (m : M (nav F B) A) : Prop :=
  forall s, snd (m s) = s.

Lemma silent_get_ms : silent get_ms.
Proof.
  intros s. unfold get_ms, bind, gets, lift, ret.
  destruct (query_ms (url_of (browser s))) as [ms|e]; [|reflexivity].
  destruct ms as [[|c ms]|]; reflexivity.
Qed.

Lemma silent_lift {A} (o : outcome A) : silent (lift (S:=nav F B) o).
Proof. by intros s. Qed.

Lemma emits_silent_bind {A C} (Q : outcome C -> list (action F) -> Prop)
    (m : M (nav F B) A) (k : A -> M (nav F B) C) :
  silent m ->
  (forall e, Q (Raise e) []) ->
  (forall a, emits Q (k a)) ->
  emits Q (bind m k).
Proof.
  intros Hm Hraise Hk. split. intros s. specialize (Hm s).
  unfold exec, bind. destruct (m s) as [[a|e] s1]; simpl in Hm; subst s1.
  - apply (emitted (Hk a) s).
  - exists []. simpl. split; [by rewrite app_nil_r | apply Hraise].
Qed.

(** One action, then the rest. *)
Lemma emits_act {C} (Q : outcome C -> list (action F) -> Prop)
    (a : action F) (k : M (nav F B) C) :
  (forall e, Q (Raise e) [a]) ->
  emits (fun o n => Q o (a :: n)) k ->
  emits Q (act a;~ k)%py.
Proof.
  intros Hraise Hk. split. intros s. unfold exec, bind, act.
  destruct (react a (browser s)) as [[[]|e] b1]; simpl.
  - destruct (emitted Hk {| trace := trace s ++ [a]; browser := b1 |})
      as (n & Ht & Hq).
    exists (a :: n). unfold exec in Ht. rewrite Ht. simpl.
    by rewrite <- app_assoc.
  - exists [a]. auto.
Qed.

Lemma emits_act_last (Q : outcome unit -> list (action F) -> Prop) (a : action F) :
  (forall o, Q o [a]) -> emits Q (act a).
Proof.
  intros Hq. split. intros s. unfold exec, act.
  destruct (react a (browser s)) as [o b1]. exists [a]. auto.
Qed.

End Emits.

Section NavigatorProps.
Context {F B : Type} `{Float : PyFloat F} `{Page : MapPage F B}.

(** *** [wheel_to_zoom] *)

(** What [wheel_to_zoom] may ask of the page: the pointer to the middle
    of the map, a wheel pulse of 300 up or down, a pause. *)
Definition wheel_action (a : action F) : Prop :=
  match a with
  | MouseMove x y => x = f_of_int 960 /\ y = f_of_int 540
  | MouseWheel dx dy => dx = 0 /\ (dy = -300 \/ dy = 300)
  | Sleep => True
  | _ => False
  end.

Definition wheel_record (n : nat) (o : outcome unit) (new : list (action F)) : Prop :=
  Forall wheel_action new /\ (occurrences is_wheel new <= n)%nat.

(** A side condition on a record that is known up to its tail. *)
Local Ltac record_side :=
  repeat match goal with
         | |- _ /\ _ => split
         | |- Forall _ [] => apply Forall_nil
         | |- Forall _ (_ :: _) => apply Forall_cons
         | |- Forall _ _ => assumption
         | |- (_ <= _)%nat => unfold occurrences in *; simpl in *; lia
         | |- @eq nat _ _ => unfold occurrences in *; simpl in *; lia
         | |- _ => first [assumption | done | by simpl; auto]
         end.

Lemma wheel_loop_emits (n : nat) (target_zoom : Z) :
  emits (wheel_record n) (wheel_loop n target_zoom).
Proof.
  induction n as [|n IH]; simpl.
  - apply emits_ret. unfold wheel_record. record_side.
  - apply emits_silent_bind; [apply silent_get_ms | |].
    { intros e. unfold wheel_record. record_side. }
    intros [[[cur_lat cur_lon] z]|].
    + apply emits_silent_bind; [apply silent_lift | |].
      { intros e. unfold wheel_record. record_side. }
      intros zi. destruct (zi =? target_zoom).
      { apply emits_ret. unfold wheel_record. record_side. }
      assert (Hdir : wheel_action (MouseWheel 0 (if zi <? target_zoom then -300 else 300))).
      { simpl. split; [done|]. destruct (zi <? target_zoom); auto. }
      apply emits_act; [intros e; unfold wheel_record; record_side|].
      apply emits_act; [intros e; unfold wheel_record; record_side|].
      apply emits_act; [intros e; unfold wheel_record; record_side|].
      eapply emits_mono; [|exact IH].
      intros o new [Hall Hn]. unfold wheel_record. record_side.
    + apply emits_act; [intros e; unfold wheel_record; record_side|].
      eapply emits_mono; [|exact IH].
      intros o new [Hall Hn]. unfold wheel_record. record_side.
Qed.

(** X15. [wheel_to_zoom] turns the wheel at most 20 times, by 300 up or
    down, and asks nothing else of the page but to put the pointer on the
    middle of the map and to wait: no button is pressed, nothing is
    clicked. *)
Theorem wheel_to_zoom_bounded (target_zoom : Z) (s : nav F B) :
  exists new,
    trace (exec (wheel_to_zoom target_zoom) s) = trace s ++ new
    /\ Forall wheel_action new
    /\ (occurrences is_wheel new <= 20)%nat.
Proof.
  destruct (emitted (wheel_loop_emits 20 target_zoom) s) as (new & Ht & Hall & Hn).
  by exists new.
Qed.

(** *** [drag_to_latlon] *)

(** What [drag_to_latlon] may ask of the page. *)
Definition drag_action (a : action F) : Prop :=
  match a with
  | MouseMove x y => x = f_of_int 960 /\ y = f_of_int 540
  | MouseDrag _ _ steps => steps = 20
  | MouseDown | MouseUp | Sleep => True
  | _ => False
  end.

(** At most [n] presses of the button, each released before the next,
    and all released when the call returns. *)
Definition drag_record (n : nat) (o : outcome unit) (new : list (action F)) : Prop :=
  Forall drag_action new
  /\ (occurrences is_down new <= n)%nat
  /\ (occurrences is_up new <= occurrences is_down new)%nat
  /\ (occurrences is_down new <= occurrences is_up new + 1)%nat
  /\ (is_ok o = true -> occurrences is_down new = occurrences is_up new).

Lemma drag_loop_emits (n : nat) (lat lon tolerance_px : F) :
  emits (drag_record n) (drag_loop n lat lon tolerance_px).
Proof.
  induction n as [|n IH]; simpl.
  - apply emits_ret. unfold drag_record. record_side.
  - apply emits_silent_bind; [apply silent_get_ms | |].
    { intros e. unfold drag_record. record_side. }
    intros [[[cur_lat cur_lon] z]|].
    + apply emits_silent_bind; [apply silent_lift | |].
      { intros e. unfold drag_record. record_side. }
      intros p1.
      apply emits_silent_bind; [apply silent_lift | |].
      { intros e. unfold drag_record. record_side. }
      intros p2. cbv zeta.
      destruct (f_le _ tolerance_px).
      { apply emits_ret. unfold drag_record. record_side. }
      apply emits_silent_bind; [apply silent_lift | |].
      { intros e. unfold drag_record. record_side. }
      intros r.
      apply emits_act; [intros e; unfold drag_record; record_side|].
      apply emits_act; [intros e; unfold drag_record; record_side|].
      apply emits_act; [intros e; unfold drag_record; record_side|].
      apply emits_act; [intros e; unfold drag_record; record_side|].
      apply emits_act; [intros e; unfold drag_record; record_side|].
      eapply emits_mono; [|exact IH].
      intros o new (Hall & Hn & Hle & Hge & Hok). unfold drag_record.
      record_side. intros Ho. specialize (Hok Ho). record_side.
    + apply emits_act; [intros e; unfold drag_record; record_side|].
      eapply emits_mono; [|exact IH].
      intros o new (Hall & Hn & Hle & Hge & Hok). unfold drag_record.
      record_side.
Qed.

(** X16. [drag_to_latlon] drags the map at most 18 times; a drag presses
    the button in the middle of the map, moves in 20 steps and releases,
    so that at most one press is ever unreleased, and none is when the
    call returns; the wheel is not turned and nothing is clicked. *)
Theorem drag_to_latlon_releases (lat lon : F) (s : nav F B) :
  exists new,
    trace (exec (drag_to_latlon lat lon) s) = trace s ++ new
    /\ Forall drag_action new
    /\ (occurrences is_down new <= 18)%nat
    /\ (occurrences is_up new <= occurrences is_down new <= occurrences is_up new + 1)%nat
    /\ (is_ok (fst (drag_to_latlon lat lon s)) = true ->
        occurrences is_down new = occurrences is_up new).
Proof.
  destruct (emitted (drag_loop_emits 18 lat lon (f_lit 7 2)) s)
    as (new & Ht & Hall & Hn & Hle & Hge & Hok).
  exists new. repeat split; done.
Qed.

(** *** [human_like_recenter] *)

Lemma occurrences_wheel_drag (new : list (action F)) :
  Forall drag_action new ->
  occurrences is_wheel new = 0%nat /\ occurrences is_click new = 0%nat.
Proof.
  unfold occurrences. induction 1 as [|a new Ha _ [IHw IHc]]; [done|].
  destruct a; simpl in *; try done.
Qed.

Lemma occurrences_wheel_only (new : list (action F)) :
  Forall wheel_action new ->
  occurrences is_down new = 0%nat /\ occurrences is_up new = 0%nat
  /\ occurrences is_click new = 0%nat.
Proof.
  unfold occurrences. induction 1 as [|a new Ha _ (IHd & IHu & IHc)]; [done|].
  destruct a; simpl in *; try done.
Qed.

Definition recenter_record (o : outcome unit) (new : list (action F)) : Prop :=
  (occurrences is_wheel new <= 40)%nat
  /\ (occurrences is_down new <= 36)%nat
  /\ occurrences is_click new = 0%nat
  /\ (occurrences is_up new <= occurrences is_down new <= occurrences is_up new + 1)%nat
  /\ (is_ok o = true -> occurrences is_down new = occurrences is_up new).

(** X17. [human_like_recenter] composes two zooms and two drags: over the
    whole call the wheel is turned at most 40 times and the map is dragged
    at most 36 times, nothing is clicked, and the button is released
    whenever the call returns. *)
Theorem human_like_recenter_bounded (rand_out : Z) (lat lon : F) (zoom : Z)
    (s : nav F B) :
  exists new,
    trace (exec (human_like_recenter rand_out lat lon zoom) s) = trace s ++ new
    /\ recenter_record (fst (human_like_recenter rand_out lat lon zoom s)) new.
Proof.
  apply emitted. unfold human_like_recenter, wheel_to_zoom, drag_to_latlon.
  pose proof (fun n t => wheel_loop_emits n t) as Hw.
  pose proof (fun n => drag_loop_emits n lat lon (f_lit 7 2)) as Hd.
  eapply emits_bind; [apply (Hw 20%nat rand_out) | |].
  { intros e n1 [Hall Hn]. destruct (occurrences_wheel_only n1 Hall) as (? & ? & ?).
    unfold recenter_record. repeat split; try done; lia. }
  intros [] n1 [Hall1 Hn1]. destruct (occurrences_wheel_only n1 Hall1) as (? & ? & ?).
  eapply emits_bind; [apply (Hd 18%nat) | |].
  { intros e n2 (Hall & Hn & Hle & Hge & Hok).
    destruct (occurrences_wheel_drag n2 Hall) as (? & ?).
    unfold recenter_record. rewrite !occurrences_app. repeat split; try done; lia. }
  intros [] n2 (Hall2 & Hn2 & Hle2 & Hge2 & Hok2).
  destruct (occurrences_wheel_drag n2 Hall2) as (? & ?).
  specialize (Hok2 eq_refl).
  eapply emits_bind; [apply (Hw 20%nat zoom) | |].
  { intros e n3 [Hall Hn]. destruct (occurrences_wheel_only n3 Hall) as (? & ? & ?).
    unfold recenter_record. rewrite !occurrences_app. repeat split; try done; lia. }
  intros [] n3 [Hall3 Hn3]. destruct (occurrences_wheel_only n3 Hall3) as (? & ? & ?).
  eapply emits_mono; [|apply (Hd 18%nat)].
  intros o n4 (Hall4 & Hn4 & Hle4 & Hge4 & Hok4).
  destruct (occurrences_wheel_drag n4 Hall4) as (? & ?).
  unfold recenter_record. rewrite !occurrences_app.
  repeat split; try lia. intros Ho. specialize (Hok4 Ho). lia.
Qed.

(** *** [switch_to_listing_markers] *)

Lemma emits_attempt (Qm : outcome unit -> list (action F) -> Prop)
    (Q : outcome bool -> list (action F) -> Prop) (m : M (nav F B) unit) :
  emits Qm m ->
  (forall n, Qm (Ok tt) n -> Q (Ok true) n) ->
  (forall e n, Qm (Raise e) n -> Q (Ok false) n) ->
  emits Q (attempt m).
Proof.
  intros Hm Hok Hraise. split. intros s.
  destruct (emitted Hm s) as (new & Ht & Hq). exists new.
  unfold exec, attempt in *. destruct (m s) as [[[]|e] s1]; simpl in *.
  - split; [exact Ht | by apply Hok].
  - split; [exact Ht | by eapply Hraise].
Qed.

(** A click and the pause after it: the pause is reached when the click
    succeeds. *)
Definition click_record (sel : pystr) (o : outcome unit) (new : list (action F)) : Prop :=
  match o with
  | Ok _ => new = [Click sel; Sleep]
  | Raise _ => new = [Click sel] \/ new = [Click sel; Sleep]
  end.

Lemma emits_click (sel : pystr) :
  emits (click_record sel) (act (Click sel);~ act Sleep)%py.
Proof.
  apply emits_act; [intros e; by left|].
  apply emits_act_last. intros [[]|e]; simpl; auto.
Qed.

Definition click_or_sleep (a : action F) : Prop :=
  match a with Click _ | Sleep => True | _ => False end.

(** With [k] texts left to try before the drop-down. *)
Definition switch_record (k : nat) (o : outcome bool) (new : list (action F)) : Prop :=
  Forall click_or_sleep new
  /\ (occurrences is_click new <= k + 2)%nat
  /\ match o with
     | Ok true => exists pre sel, new = pre ++ [Click sel; Sleep]
     | Ok false => (k + 1 <= occurrences is_click new)%nat
     | Raise _ => False
     end.

Lemma click_first_emits (txts : list pystr) (otherwise : M (nav F B) bool) :
  emits (switch_record 0) otherwise ->
  emits (switch_record (length txts)) (click_first txts otherwise).
Proof.
  intros Hother. induction txts as [|txt txts IH]; simpl; [exact Hother|].
  eapply emits_bind.
  - eapply (emits_attempt _ (fun o new =>
              match o with
              | Ok true => new = [Click (u "text=" ++ txt); Sleep]
              | Ok false => new = [Click (u "text=" ++ txt)]
                            \/ new = [Click (u "text=" ++ txt); Sleep]
              | Raise _ => False
              end)); [apply emits_click | |].
    + by intros n ->.
    + by intros e n Hn.
  - by intros e n1 [].
  - intros [|] n1 Hn1.
    + subst n1. apply emits_ret. unfold switch_record.
      split; [by repeat constructor|]. split; [unfold occurrences; simpl; lia|].
      exists [], (u "text=" ++ txt). by rewrite app_nil_r.
    + eapply emits_mono; [|exact IH].
      intros o new (Hall & Hn & Ho). unfold switch_record.
      assert (Hc : occurrences is_click n1 = 1%nat) by (by destruct Hn1 as [-> | ->]).
      rewrite occurrences_app, Hc.
      split; [|split].
      * apply Forall_app. split; [|done]. destruct Hn1 as [-> | ->]; by repeat constructor.
      * lia.
      * destruct o as [[|]|e]; [|lia|done].
        destruct Ho as (pre & sel & ->). exists (n1 ++ pre), sel. by rewrite app_assoc.
Qed.

(** X18. [switch_to_listing_markers] never raises: it answers [True]
    right after a click that succeeded and the pause that follows it, and
    [False] only after all five attempts failed; it clicks at most six
    times and only clicks and waits. *)
Theorem switch_to_listing_markers_total (s : nav F B) :
  exists new (found : bool),
    trace (exec switch_to_listing_markers s) = trace s ++ new
    /\ fst (switch_to_listing_markers s) = Ok found
    /\ Forall click_or_sleep new
    /\ (occurrences is_click new <= 6)%nat
    /\ (if found then exists pre sel, new = pre ++ [Click sel; Sleep]
        else (5 <= occurrences is_click new)%nat).
Proof.
  assert (Hsw : emits (switch_record 4) switch_to_listing_markers).
  { unfold switch_to_listing_markers.
    apply (click_first_emits [_; _; _; _]).
    set (sel1 := u "button:has-text(" ++ _).
    eapply (emits_attempt (fun o new =>
              Forall click_or_sleep new
              /\ (1 <= occurrences is_click new <= 2)%nat
              /\ (is_ok o = true -> new = [Click sel1; Sleep; Click (u "text=매물"); Sleep]))).
    - apply emits_act; [intros e; record_side|].
      apply emits_act; [intros e; record_side|].
      apply emits_act; [intros e; record_side|].
      apply emits_act_last. intros o. record_side.
    - intros n (Hall & Hn & Hok). unfold switch_record.
      split; [done|]. split; [lia|].
      exists [Click sel1; Sleep], (u "text=매물"). by rewrite (Hok eq_refl).
    - intros e n (Hall & Hn & Hok). unfold switch_record.
      split; [done|]. split; lia. }
  destruct (emitted Hsw s) as (new & Ht & Hall & Hn & Ho).
  destruct (fst (switch_to_listing_markers s)) as [found|e]; [|done].
  exists new, found. repeat split; try done.
Qed.

(** *** The sweep *)

Lemma occurrences_nudge_drag (new : list (action F)) :
  Forall drag_action new -> occurrences is_nudge new = 0%nat.
Proof.
  unfold occurrences. induction 1 as [|a new Ha _ IH]; [done|].
  destruct a; simpl in *; try done.
Qed.

(** After [k] sample points. *)
Definition sweep_record (k : nat) (o : outcome unit) (new : list (action F)) : Prop :=
  (occurrences is_nudge new <= k)%nat
  /\ (occurrences is_down new <= 18 * k)%nat
  /\ occurrences is_click new = 0%nat
  /\ (occurrences is_up new <= occurrences is_down new <= occurrences is_up new + 1)%nat
  /\ (is_ok o = true ->
      occurrences is_nudge new = k
      /\ occurrences is_down new = occurrences is_up new).

(** One sample point: the drag, the nudge, the pause. *)
Definition point_record (o : outcome unit) (new : list (action F)) : Prop :=
  exists n1,
    Forall drag_action n1
    /\ (occurrences is_down n1 <= 18)%nat
    /\ (occurrences is_up n1 <= occurrences is_down n1 <= occurrences is_up n1 + 1)%nat
    /\ match o with
       | Ok _ => new = n1 ++ [MouseWheel 0 (-40); Sleep]
                 /\ occurrences is_down n1 = occurrences is_up n1
       | Raise _ => new = n1 \/ new = n1 ++ [MouseWheel 0 (-40)]
                    \/ new = n1 ++ [MouseWheel 0 (-40); Sleep]
       end.

Lemma point_emits (lat lon : F) :
  emits point_record
    (drag_to_latlon lat lon;~ act (MouseWheel 0 (-40));~ act Sleep)%py.
Proof.
  eapply (emits_bind (drag_record 18)); [apply drag_loop_emits | |].
  - intros e n1 (Hall & Hn & Hle & Hge & Hok). exists n1. auto 10.
  - intros [] n1 (Hall & Hn & Hle & Hge & Hok). specialize (Hok eq_refl).
    apply emits_act; [intros e; exists n1; auto 10|].
    apply emits_act_last. intros [[]|e]; exists n1; auto 10.
Qed.

Lemma sweep_emits (coords : list (F * F)) :
  emits (sweep_record (length coords)) (sweep coords).
Proof.
  unfold sweep. induction coords as [|c coords IH]; simpl.
  - apply emits_ret. unfold sweep_record, occurrences. simpl. repeat split; lia.
  - eapply emits_bind; [apply point_emits | |].
    + intros e n1 (n0 & Hall & Hn & [Hle Hge] & Hcase).
      destruct (occurrences_wheel_drag n0 Hall) as [_ Hc].
      pose proof (occurrences_nudge_drag n0 Hall) as Hg.
      unfold sweep_record.
      destruct Hcase as [-> | [-> | ->]]; rewrite ?occurrences_app, ?Hc, ?Hg;
        unfold occurrences in *; simpl; repeat split; try done; lia.
    + intros [] n1 (n0 & Hall & Hn & [Hle Hge] & -> & Hbal).
      destruct (occurrences_wheel_drag n0 Hall) as [_ Hc].
      pose proof (occurrences_nudge_drag n0 Hall) as Hg.
      eapply emits_mono; [|exact IH].
      intros o new (Hk & Hd & Hcl & Hb & Hfin). unfold sweep_record.
      rewrite !occurrences_app, Hc, Hg. unfold occurrences in *. simpl.
      split; [lia|]. split; [lia|]. split; [lia|]. split; [lia|].
      intros Ho. destruct (Hfin Ho). lia.
Qed.

End NavigatorProps.

(** X19. [grid_sweep] nudges the wheel (by -40) once after each sample
    point it reached: at most 2n(n+2) times for [n] rings, and exactly
    that often when it returns; it drags at most 18 times per point,
    clicks nothing, and the button is released when it returns. *)
Theorem grid_sweep_nudges {F B : Type} `{Math : PyMath F} `{Float : PyFloat F}
    `{Page : MapPage F B} (center_lat center_lon : F) (zoom step_px : Z) (n : nat)
    (s : nav F B) :
  exists new,
    trace (exec (grid_sweep center_lat center_lon zoom (Z.of_nat n) step_px) s)
      = trace s ++ new
    /\ sweep_record (2 * n * (n + 2))
         (fst (grid_sweep center_lat center_lon zoom (Z.of_nat n) step_px s)) new.
Proof.
  unfold grid_sweep.
  pose proof (sweep_emits (grid_coords center_lat center_lon zoom (Z.of_nat n) step_px))
    as Hs.
  rewrite grid_coords_offsets, length_fmap, length_grid_offsets in Hs.
  rewrite grid_coords_offsets. apply (emitted Hs).
Qed.

(** *** [get_ms] *)

Lemma split_on_whole (c : char) (a : pystr) : c ∉ a -> split_on c a = [a].
Proof.
  induction a as [|x a IH]; [done|]. intros Hc. simpl.
  destruct (N.eqb_spec x c) as [->|_]; [set_solver|].
  rewrite IH by set_solver. done.
Qed.

Lemma split_on_field (c : char) (a rest : pystr) :
  c ∉ a -> split_on c (a ++ c :: rest) = a :: split_on c rest.
Proof.
  induction a as [|x a IH]; intros Hc; simpl.
  - by rewrite N.eqb_refl.
  - destruct (N.eqb_spec x c) as [->|_]; [set_solver|].
    rewrite IH by set_solver. done.
Qed.

(** The fields of a split contain no separator, and joining them with
    the separator gives the text back. *)
Lemma split_on_fields (c : char) (s : pystr) :
  Forall (fun w => c ∉ w) (split_on c s)
  /\ match split_on c s with
     | [] => False
     | w :: ws => s = w ++ concat (map (fun w' => c :: w') ws)
     end.
Proof.
  induction s as [|x s [IHall IHjoin]]; simpl.
  - split; [|done]. constructor; [apply not_elem_of_nil | constructor].
  - destruct (N.eqb_spec x c) as [->|Hne].
    + split; [constructor; [apply not_elem_of_nil | done]|].
      destruct (split_on c s) as [|w ws]; [done|]. simpl. by rewrite IHjoin.
    + destruct (split_on c s) as [|w ws]; [done|].
      apply Forall_cons in IHall as [Hw Hws].
      split; [|simpl; by rewrite IHjoin].
      constructor; [|done]. intros [->|Hin]%elem_of_cons; done.
Qed.

Section GetMs.
Context {F B : Type} `{Float : PyFloat F} `{Page : MapPage F B}.

(** X20. [get_ms] only reads: the page is asked nothing. It raises
    exactly when reading the query of the URL does, and it answers a
    position exactly when the [ms] parameter consists of three fields
    separated by two commas, each of which [float] accepts; the position
    is made of these three floats. *)
Theorem get_ms_reading (s : nav F B) :
  snd (get_ms s) = s
  /\ (forall e, fst (get_ms s) = Raise e <-> query_ms (url_of (browser s)) = Raise e)
  /\ (forall la lo zz,
        fst (get_ms s) = Ok (Some (la, lo, zz)) <->
        exists a b c,
          query_ms (url_of (browser s))
            = Ok (Some (a ++ [c_comma] ++ b ++ [c_comma] ++ c))
          /\ (c_comma ∉ a) /\ (c_comma ∉ b) /\ (c_comma ∉ c)
          /\ f_of_str a = Ok la /\ f_of_str b = Ok lo /\ f_of_str c = Ok zz).
Proof.
  split; [apply silent_get_ms|].
  unfold get_ms, bind, gets, lift, ret.
  destruct (query_ms (url_of (browser s))) as [ms|e0]; cbn [fst].
  2:{ split; [intros e; split; by intros [= ->]|].
      intros la lo zz. split; [done | by intros (a & b & c & ? & _)]. }
  split.
  { intros e. by destruct ms as [[|x ms]|]. }
  intros la lo zz. destruct ms as [ms|].
  2:{ split; [done | by intros (a & b & c & ? & _)]. }
  destruct ms as [|x ms]; cbn [fst].
  { split; [done|]. intros (a & b & c & Hq & _). by destruct a. }
  destruct (split_on_fields c_comma (x :: ms)) as [Hall Hjoin].
  split.
  - destruct (split_on c_comma (x :: ms)) as [|a [|b [|c [|d ws]]]]; try done.
    destruct (f_of_str a) as [fa|] eqn:Ha; [|by cbn].
    destruct (f_of_str b) as [fb|] eqn:Hb; [|by cbn].
    destruct (f_of_str c) as [fc|] eqn:Hc; [|by cbn].
    cbn. intros [= <- <- <-]. exists a, b, c.
    apply Forall_cons in Hall as [? Hall]. apply Forall_cons in Hall as [? Hall].
    apply Forall_cons in Hall as [? _].
    repeat split; try done. rewrite Hjoin. simpl. by rewrite app_nil_r.
  - intros (a & b & c & [= Hms] & Ha & Hb & Hc & Hfa & Hfb & Hfc).
    rewrite Hms.
    change (a ++ [c_comma] ++ b ++ [c_comma] ++ c)
      with (a ++ c_comma :: (b ++ c_comma :: c)).
    rewrite !split_on_field, split_on_whole by done.
    by rewrite Hfa, Hfb, Hfc.
Qed.

End GetMs.

(** ** The scenarios *)

(** The text of a field as the scenario test sees it. *)
Definition asset_code (s : pystr) : pystr := upper (strip s).

(** The fields joined by colons. *)
Fixpoint colon_join (fs : list pystr) : pystr :=
  match fs with
  | [] => []
  | [f] => f
  | f :: fs' => f ++ c_colon :: colon_join fs'
  end.

Lemma split_on_colon_join (fs : list pystr) :
  fs <> [] -> Forall (fun f => c_colon ∉ f) fs ->
  split_on c_colon (colon_join fs) = fs.
Proof.
  intros Hne Hfs. induction Hfs as [|f fs Hf Hfs IH]; [done|].
  destruct fs as [|g fs]; [by apply split_on_whole|].
  change (colon_join (f :: g :: fs)) with (f ++ c_colon :: colon_join (g :: fs)).
  rewrite split_on_field by done. by rewrite IH.
Qed.

Lemma elem_of_wanted (code : pystr) (asset_types : pystr) :
  code <> [] ->
  code ∈ wanted asset_types <->
  exists f, f ∈ split_on c_colon asset_types /\ asset_code f = code.
Proof.
  intros Hcode. unfold wanted. rewrite list_elem_of_fmap. split.
  - intros (f & -> & Hf). apply list_elem_of_In, List.filter_In in Hf as [Hf _].
    exists f. split; [by apply list_elem_of_In | done].
  - intros (f & Hf & <-). exists f. split; [done|].
    apply list_elem_of_In, List.filter_In. split; [by apply list_elem_of_In|].
    unfold asset_code in Hcode. by destruct (strip f).
Qed.

(** X21. What [ASSET_TYPES] means: the scenarios are a part of
    [("complexes", "APT"), ("houses", "VL")], in this order; apartments
    are crawled exactly when one of the colon-separated fields reads APT
    once blanks around it are dropped and small letters are made capital,
    villas exactly when one reads VL; so the order of the fields, their
    case, blanks and repetitions make no difference. The source's
    "APT:VL" selects both. *)
Theorem build_scenarios_fields (fs : list pystr) :
  fs <> [] -> Forall (fun f => c_colon ∉ f) fs ->
  _build_scenarios (colon_join fs)
  = (if bool_decide (Exists (fun f => asset_code f = u "APT") fs)
     then [(u "complexes", u "APT")] else [])
    ++ (if bool_decide (Exists (fun f => asset_code f = u "VL") fs)
        then [(u "houses", u "VL")] else [])
  /\ (forall fs', fs' <> [] -> Forall (fun f => c_colon ∉ f) fs' ->
        (forall code, code ∈ map asset_code fs <-> code ∈ map asset_code fs') ->
        _build_scenarios (colon_join fs') = _build_scenarios (colon_join fs))
  /\ _build_scenarios ASSET_TYPES = [(u "complexes", u "APT"); (u "houses", u "VL")].
Proof.
  intros Hne Hfs.
  assert (Hchar : forall gs code, gs <> [] -> Forall (fun f => c_colon ∉ f) gs ->
            code <> [] ->
            bool_decide (code ∈ wanted (colon_join gs))
            = bool_decide (Exists (fun f => asset_code f = code) gs)).
  { intros gs code Hg Hgs Hcode. apply bool_decide_ext.
    rewrite elem_of_wanted by done. rewrite split_on_colon_join by done.
    rewrite Exists_exists. done. }
  assert (Hbuild : forall gs, gs <> [] -> Forall (fun f => c_colon ∉ f) gs ->
            _build_scenarios (colon_join gs)
            = (if bool_decide (Exists (fun f => asset_code f = u "APT") gs)
               then [(u "complexes", u "APT")] else [])
              ++ (if bool_decide (Exists (fun f => asset_code f = u "VL") gs)
                  then [(u "houses", u "VL")] else [])).
  { intros gs Hg Hgs. unfold _build_scenarios. cbv zeta.
    by rewrite !Hchar by done. }
  split; [by apply Hbuild|]. split; [|vm_compute; reflexivity].
  intros fs' Hne' Hfs' Hsame. rewrite !Hbuild by done.
  assert (Hex : forall code,
            Exists (fun f => asset_code f = code) fs
            <-> Exists (fun f => asset_code f = code) fs').
  { intros code. rewrite !Exists_exists.
    specialize (Hsame code). rewrite !list_elem_of_fmap in Hsame.
    split; intros (f & Hf & Hc).
    - destruct (proj1 Hsame) as (g & Hg & Hin); [by exists f|]. by exists g.
    - destruct (proj2 Hsame) as (g & Hg & Hin); [by exists f|]. by exists g. }
  by rewrite (bool_decide_ext _ _ (Hex (u "APT"))), (bool_decide_ext _ _ (Hex (u "VL"))).
Qed.

Lemma build_scenarios_fields_witness :
  _build_scenarios (colon_join [u " vl "; u "apt"; u "VL"])
  = [(u "complexes", u "APT"); (u "houses", u "VL")].
Proof.
  destruct (build_scenarios_fields [u " vl "; u "apt"; u "VL"]) as (-> & _ & _).
  - done.
  - repeat (constructor; [apply (bool_decide_unpack _); by vm_compute|]).
    constructor.
  - vm_compute. reflexivity.
Defined.

(** ** Phase 2 *)

Lemma preserves_bind_lift {S A B} (R : relation S) `{!PreOrder R}
    (o : outcome A) (k : A -> M S B) :
  (forall a, o = Ok a -> preserves R (k a)) -> preserves R (bind (lift o) k).
Proof.
  intros Hk. split. intros s. unfold exec, bind, lift.
  destruct o as [a|e]; [|reflexivity]. apply (preserved (Hk a eq_refl)).
Qed.

Section MetaFiled.
Context `{Builtins : PyBuiltins}.

(** Every marker collected has an entry in the metadata store under the
    id it was filed under. *)
Definition meta_filed (st : session) : Prop :=
  Forall (fun it => exists cno, marker_id it = Ok cno /\ cno <> []
                                /\ is_Some (complex_meta st !! cno))
         (complex_list (bufs st)).

Definition keeps_meta_filed (st st' : session) : Prop :=
  meta_filed st -> meta_filed st'.

#[local] Instance keeps_meta_filed_preorder : PreOrder keeps_meta_filed.
Proof.
  split.
  - intros st Hst. exact Hst.
  - intros st1 st2 st3 H12 H23 H1. by apply H23, H12.
Qed.

(** A change of the store that keeps the entries it has. *)
Definition keeps_entries (f : gmap pystr meta -> gmap pystr meta) : Prop :=
  forall cm k, is_Some (cm !! k) -> is_Some (f cm !! k).

Lemma keeps_entries_setdefault cno dflt : keeps_entries (setdefault cno dflt).
Proof.
  intros cm k Hk. unfold setdefault. destruct (cm !! cno); [done|].
  destruct (decide (cno = k)) as [->|Hne].
  - by rewrite lookup_insert_eq.
  - by rewrite lookup_insert_ne.
Qed.

Lemma keeps_entries_set_count cno n : keeps_entries (set_count cno n).
Proof.
  intros cm k Hk. unfold set_count.
  destruct (decide (cno = k)) as [->|Hne].
  - by rewrite lookup_insert_eq.
  - by rewrite lookup_insert_ne.
Qed.

Lemma keeps_entries_update_marker_meta cno name cnt :
  keeps_entries (update_marker_meta cno name cnt).
Proof.
  intros cm k Hk. unfold update_marker_meta. cbv zeta.
  destruct (decide (cno = k)) as [->|Hne].
  - by rewrite lookup_insert_eq.
  - rewrite lookup_insert_ne by done. by apply keeps_entries_setdefault.
Qed.

Lemma update_marker_meta_entry cno name cnt cm :
  is_Some (update_marker_meta cno name cnt cm !! cno).
Proof. unfold update_marker_meta. cbv zeta. by rewrite lookup_insert_eq. Qed.

Lemma on_meta_meta_filed f :
  keeps_entries f -> preserves keeps_meta_filed (modify (on_meta f)).
Proof.
  intros Hf. apply preserves_modify. intros st Hst. unfold meta_filed in *.
  cbn [on_meta bufs complex_meta].
  eapply Forall_impl; [exact Hst|]. intros it (cno & ? & ? & ?). eauto.
Qed.

Lemma ins_article_meta_filed k a :
  preserves keeps_meta_filed (modify (on_bufs (ins_article k a))).
Proof.
  apply preserves_modify. intros st Hst. unfold meta_filed in *.
  unfold on_bufs, ins_article. cbn [bufs complex_meta]. by case_decide.
Qed.

Lemma ins_trade_meta_filed k t :
  preserves keeps_meta_filed (modify (on_bufs (ins_trade k t))).
Proof.
  apply preserves_modify. intros st Hst. unfold meta_filed in *.
  unfold on_bufs, ins_trade. cbn [bufs complex_meta]. by case_decide.
Qed.

(** Lines 575-584: the marker is filed, and its entry is written, in
    one go. *)
Lemma file_marker_meta_filed cno it name cnt :
  marker_id it = Ok cno -> cno <> [] ->
  preserves keeps_meta_filed
    (modify (on_bufs (ins_complex cno it));~
     modify (on_meta (update_marker_meta cno name cnt)))%py.
Proof.
  intros Hid Hne. split. intros st Hst. unfold meta_filed in *.
  unfold exec, bind, modify, on_bufs, on_meta. cbn [snd bufs complex_meta].
  assert (Hold : Forall (fun it' => exists cno', marker_id it' = Ok cno' /\ cno' <> []
                   /\ is_Some (update_marker_meta cno name cnt (complex_meta st) !! cno'))
                 (complex_list (bufs st))).
  { eapply Forall_impl; [exact Hst|]. intros it' (cno' & ? & ? & ?).
    exists cno'. split; [done|]. split; [done|].
    by apply keeps_entries_update_marker_meta. }
  unfold ins_complex. case_decide; [done|]. cbn [complex_list].
  apply Forall_app. split; [done|]. constructor; [|done].
  exists cno. split; [done|]. split; [done|]. apply update_marker_meta_entry.
Qed.

Local Ltac step_meta_filed :=
  repeat lazymatch goal with
         | |- preserves _ (bind (modify (on_bufs (ins_complex _ _))) _) =>
           apply file_marker_meta_filed
         | |- preserves _ (modify (on_bufs (ins_article _ _))) =>
           apply ins_article_meta_filed
         | |- preserves _ (modify (on_bufs (ins_trade _ _))) =>
           apply ins_trade_meta_filed
         | |- preserves _ (modify (on_meta (setdefault _ _))) =>
           apply on_meta_meta_filed, keeps_entries_setdefault
         | |- preserves _ (modify (on_meta (set_count _ _))) =>
           apply on_meta_meta_filed, keeps_entries_set_count
         | |- preserves _ (bind (lift _) _) =>
           apply (preserves_bind_lift keeps_meta_filed); intros ? ?
         | |- _ => preserves_rule keeps_meta_filed
         end.

Lemma marker_item_meta_filed url it : preserves keeps_meta_filed (marker_item url it).
Proof.
  unfold marker_item. step_meta_filed.
  all: try done.
  all: unfold marker_id;
    match goal with
    | H : get_or _ (u "markerId" :: _) _ = Ok _ |- _ => rewrite H
    end; simpl; congruence.
Qed.

Lemma article_item_meta_filed url a : preserves keeps_meta_filed (article_item url a).
Proof. unfold article_item, add_article. step_meta_filed. Qed.

Lemma trade_item_meta_filed t : preserves keeps_meta_filed (trade_item t).
Proof. unfold trade_item. step_meta_filed. Qed.

Lemma collect_item_meta_filed it : preserves keeps_meta_filed (collect_item it).
Proof. unfold collect_item. step_meta_filed. Qed.

Lemma collect_from_meta_filed obj : preserves keeps_meta_filed (collect_from obj).
Proof.
  apply (collect_from_ind (fun A m => preserves keeps_meta_filed m)).
  - apply (preserves_ret keeps_meta_filed).
  - intros A m k. apply (preserves_bind keeps_meta_filed).
  - apply collect_item_meta_filed.
Qed.

Lemma update_total_meta_filed cno total :
  preserves keeps_meta_filed (update_total cno total).
Proof. unfold update_total. step_meta_filed. Qed.

Lemma handle_response_meta_filed r : preserves keeps_meta_filed (handle_response r).
Proof.
  unfold handle_response, classify.
  repeat lazymatch goal with
         | |- preserves _ (marker_item _ _) => apply marker_item_meta_filed
         | |- preserves _ (article_item _ _) => apply article_item_meta_filed
         | |- preserves _ (trade_item _) => apply trade_item_meta_filed
         | |- preserves _ (collect_from _) => apply collect_from_meta_filed
         | |- preserves _ (update_total _ _) => apply update_total_meta_filed
         | |- _ => preserves_rule keeps_meta_filed
         end.
Qed.

Lemma ingest_meta_filed rs st : meta_filed st -> meta_filed (ingest rs st).
Proof.
  revert st. induction rs as [|r rs IH]; intros st Hst; [done|].
  apply IH. by apply (preserved (handle_response_meta_filed r) st).
Qed.

End MetaFiled.

Section Phase2Props.
Context `{Builtins : PyBuiltins}.

(** The id under which phase 2 looks a marker up (line 744). *)
Definition lookup_id (c : json) : outcome pystr :=
  (v <! get_or c [u "complexNo"; u "houseNo"; u "markerId"] (JStr []);
   Ok (py_str v))%py.

Lemma target_of_lookup (cm : gmap pystr meta) (c : json) (t : target) :
  target_of cm c = Ok t ->
  exists cno, lookup_id c = Ok cno /\ t_cno t = JStr cno /\ t_cnt t = count_of cm cno.
Proof.
  unfold target_of, lookup_id.
  destruct (get_or c [u "complexNo"; u "houseNo"; u "markerId"] (JStr []))
    as [v|e]; [|done]. cbn [obind].
  destruct (kind_of_marker c) as [kind|e]; [|done]. cbn [obind].
  destruct (get_or c [u "complexName"; u "houseName"] (JStr [])) as [name|e]; [|done].
  cbn [obind]. intros [= <-]. by exists (py_str v).
Qed.

(** X22. The listing count of a marker across the phases. The handler
    files a marker under [markerId or complexNo or houseNo] and writes
    its entry of [complex_meta] under that id: after any sequence of
    responses every collected marker has such an entry. Phase 2 reads
    the count under [complexNo or houseNo or markerId]: for a marker on
    which the two ids agree it finds the entry the handler wrote; for a
    record that carries a [markerId] and a different [complexNo] it reads
    the count stored under the [complexNo]. *)
Theorem marker_count_across_phases (rs : list response) (st : session) :
  meta_filed st ->
  meta_filed (ingest rs st)
  /\ (forall c t cno,
        c ∈ complex_list (bufs (ingest rs st)) ->
        target_of (complex_meta (ingest rs st)) c = Ok t ->
        marker_id c = Ok cno -> lookup_id c = Ok cno ->
        exists m, complex_meta (ingest rs st) !! cno = Some m
                  /\ t_cno t = JStr cno /\ t_cnt t = meta_count m)
  /\ (forall cm d mid cid,
        assoc (u "markerId") d = Some (JStr mid) -> mid <> [] ->
        assoc (u "complexNo") d = Some (JStr cid) -> cid <> [] ->
        marker_id (JDict d) = Ok mid
        /\ exists t, target_of cm (JDict d) = Ok t
                     /\ t_cno t = JStr cid /\ t_cnt t = count_of cm cid).
Proof.
  intros Hst. pose proof (ingest_meta_filed rs st Hst) as Hfiled.
  split; [exact Hfiled|]. split.
  - intros c t cno Hc Ht Hid Hlook.
    apply target_of_lookup in Ht as (cno' & Hlook' & Hcno & Hcnt).
    assert (cno' = cno) as -> by congruence.
    unfold meta_filed in Hfiled. rewrite Forall_forall in Hfiled.
    destruct (Hfiled c Hc) as (cno'' & Hid' & _ & [m Hm]).
    assert (cno'' = cno) as -> by congruence.
    exists m. split; [done|]. split; [done|].
    rewrite Hcnt. unfold count_of. by rewrite Hm.
  - intros cm d mid cid Hmid Hmne Hcid Hcne. split.
    + unfold marker_id. simpl. rewrite Hmid. simpl.
      destruct mid; [done|]. reflexivity.
    + unfold target_of, kind_of_marker. simpl. rewrite Hcid. simpl.
      destruct cid; [done|]. simpl.
      destruct (truthy (default JNull (assoc (u "complexName") d)));
        (destruct (truthy (default JNull (assoc (u "houseName") d)));
         eexists; (split; [reflexivity|]); by split).
Qed.

(** Descending in the count. *)
Definition descending (ts : list target) : Prop :=
  StronglySorted (fun t t' => t_cnt t' <= t_cnt t) ts.

Lemma insert_desc_perm (t : target) (l : list target) :
  Permutation (insert_desc t l) (t :: l).
Proof.
  induction l as [|t' l IH]; simpl; [done|].
  destruct (t_cnt t' <=? t_cnt t); [done|].
  rewrite IH. apply perm_swap.
Qed.

Lemma sort_desc_perm (l : list target) : Permutation (sort_desc l) l.
Proof.
  induction l as [|t l IH]; simpl; [done|].
  rewrite insert_desc_perm. by constructor.
Qed.

Lemma insert_desc_descending (t : target) (l : list target) :
  descending l -> descending (insert_desc t l).
Proof.
  unfold descending. induction 1 as [|t' l Hl IH Hall]; simpl.
  - repeat constructor.
  - destruct (Z.leb_spec (t_cnt t') (t_cnt t)) as [Hle|Hgt].
    + constructor; [by constructor|].
      constructor; [done|].
      eapply Forall_impl; [exact Hall|]. simpl. intros t2 ?. lia.
    + constructor; [exact IH|].
      rewrite insert_desc_perm. constructor; [lia | done].
Qed.

Lemma sort_desc_descending (l : list target) : descending (sort_desc l).
Proof.
  induction l as [|t l IH]; simpl; [constructor|].
  by apply insert_desc_descending.
Qed.

Lemma collect_length {A} (f : json -> outcome A) (l : list json) (ts : list A) :
  collect f l = Ok ts -> length ts = length l.
Proof.
  revert ts. induction l as [|c l IH]; intros ts; simpl.
  - by intros [= <-].
  - destruct (f c) as [t|e]; [|done]. simpl.
    destruct (collect f l) as [ts'|e]; [|done]. simpl.
    intros [= <-]. simpl. by rewrite (IH ts').
Qed.


End Phase2Props.

Lemma marker_count_across_phases_witness :
  meta_filed (Builtins:=blank_repr)
    (ingest (Builtins:=blank_repr)
       [{| url := markers_url;
           body := Ok (JList [JDict [(u "markerId", JStr (u "1101"));
                                     (u "articleCount", JInt 7)]]) |}]
       empty_session).
Proof.
  apply (marker_count_across_phases (Builtins:=blank_repr)). constructor.
Defined.


(** ** The phone numbers of the record *)

(** Every text [findall] returns is the first group of a match. *)
Lemma findall_from_matches (fuel : nat) (r : regex) (s : pystr) (pos : nat) :
  Forall (fun t => exists s' pos' m, match_at r s' pos' = Some m
                                     /\ t = group (m_caps m) 1)
         (findall_from fuel r s pos).
Proof.
  revert s pos. induction fuel as [|fuel IH]; intros s pos; simpl; [constructor|].
  destruct (search_from r s pos) as [m|] eqn:Hm; [|constructor].
  constructor; [|apply IH].
  apply search_from_match in Hm as (s' & pos' & Hm). eauto.
Qed.

(** A phone number as the pattern [0\d{1,2}-\d{3,4}-\d{4}] takes it. *)
Definition phone_shape (t : pystr) : Prop :=
  exists a b c,
    t = 48%N :: a ++ 45%N :: b ++ 45%N :: c
    /\ Forall (fun x => py_isdigit x = true) a /\ (1 <= length a <= 2)%nat
    /\ Forall (fun x => py_isdigit x = true) b /\ (3 <= length b <= 4)%nat
    /\ Forall (fun x => py_isdigit x = true) c /\ length c = 4%nat.

Lemma rmatch_Chr_inv {R : Type} (c : char) (s : pystr) (pos : nat)
    (caps : captures) (k : pystr -> nat -> captures -> option R) (x : R) :
  rmatch (Chr c) s pos caps k = Some x ->
  exists s', s = c :: s' /\ k s' (S pos) caps = Some x.
Proof.
  destruct s as [|y s']; [done|]. simpl.
  destruct (N.eqb_spec y c) as [->|]; [|done]. eauto.
Qed.

Lemma match_at_re_phone (s : pystr) (pos : nat) (m : rmatched) :
  match_at re_phone s pos = Some m -> phone_shape (group (m_caps m) 1).
Proof.
  unfold match_at, re_phone, digit. rewrite rmatch_Grp, !rmatch_Cat. intros Hm.
  apply rmatch_Chr_inv in Hm as (s1 & -> & Hm).
  apply (rmatch_rep_consumed py_isdigit) in Hm as (a & s2 & -> & Ha & Hla & Hm).
  apply rmatch_Chr_inv in Hm as (s3 & -> & Hm).
  apply (rmatch_rep_consumed py_isdigit) in Hm as (b & s4 & -> & Hb & Hlb & Hm).
  apply rmatch_Chr_inv in Hm as (s5 & -> & Hm).
  apply (rmatch_rep_consumed py_isdigit) in Hm as (c & s6 & -> & Hc & Hlc & Hm).
  injection Hm as <-.
  cbn [m_caps group List.find fst snd Nat.eqb].
  assert (Ht : take (S (S (S (pos + length a + length b + length c))) - pos)
                 (48%N :: a ++ 45%N :: b ++ 45%N :: c ++ s6)
               = 48%N :: a ++ 45%N :: b ++ 45%N :: c).
  { transitivity (take (length (48%N :: a ++ 45%N :: b ++ 45%N :: c))
                       ((48%N :: a ++ 45%N :: b ++ 45%N :: c) ++ s6)).
    - f_equal.
      + simpl. rewrite !length_app. simpl. rewrite !length_app. simpl. lia.
      + simpl. rewrite <- !app_assoc. simpl. by rewrite <- !app_assoc.
    - apply take_app_length. }
  unfold phone_shape. exists a, b, c.
  split; [exact Ht|]. do 5 (split; [done|]). unfold char in *. lia.
Qed.

(** X24. The phone numbers of a record: each of the two is empty or has
    the shape 0, one or two digits, a hyphen, three or four digits, a
    hyphen, four digits; and there is no second number without a first. *)
Theorem extract_record_phones (body_txt : pystr) (prev : option Z) :
  let d := extract_record body_txt prev in
  (phone1 d = [] \/ phone_shape (phone1 d))
  /\ (phone2 d = [] \/ phone_shape (phone2 d))
  /\ (phone1 d = [] -> phone2 d = []).
Proof.
  intros d. subst d. unfold extract_record. cbv zeta. cbn [phone1 phone2].
  assert (Hall : Forall phone_shape (findall re_phone body_txt)).
  { unfold findall. eapply Forall_impl; [apply findall_from_matches|].
    intros t (s' & pos' & m & Hm & ->). by eapply match_at_re_phone. }
  assert (Hne : forall t, phone_shape t -> t <> []).
  { by intros t (a & b & c & -> & _). }
  destruct (findall re_phone body_txt) as [|p1 [|p2 ps]]; simpl.
  - auto.
  - apply Forall_cons in Hall as [H1 _]. auto.
  - apply Forall_cons in Hall as [H1 Hall]. apply Forall_cons in Hall as [H2 _].
    split; [auto|]. split; [auto|]. intros ->. by apply Hne in H1.
Qed.

(** ** Collecting the rows *)

(** The rows of the tasks that returned one. *)
Definition rows_of (done : list (outcome (option row))) : list row :=
  omap (fun o => match o with Ok (Some r) => Some r | _ => None end) done.

Lemma collect_results_ok (done : list (outcome (option row))) (results : list row) :
  Forall (fun o => is_ok o = true) done ->
  collect_results done results = Ok (results ++ rows_of done).
Proof.
  intros Hall. revert results.
  induction Hall as [|o done Ho _ IH]; intros results; simpl.
  - by rewrite app_nil_r.
  - destruct o as [[r|]|e]; [| |done].
    + rewrite IH. unfold rows_of. simpl. by rewrite <- app_assoc.
    + apply IH.
Qed.

Lemma collect_results_raise (pre post : list (outcome (option row))) (e : exn)
    (results : list row) :
  Forall (fun o => is_ok o = true) pre ->
  collect_results (pre ++ Raise e :: post) results = Raise e.
Proof.
  intros Hall. revert results.
  induction Hall as [|o pre Ho _ IH]; intros results; simpl; [done|].
  destruct o as [[r|]|e']; [| |done]; apply IH.
Qed.

Lemma rows_of_length (done : list (outcome (option row))) :
  (length (rows_of done) <= length done)%nat.
Proof.
  unfold rows_of. induction done as [|o done IH]; simpl; [lia|].
  destruct o as [[r|]|e]; simpl; [apply le_n_S|apply le_S|apply le_S]; exact IH.
Qed.

(** X25. The loop over the finished tasks: when no task raised, the
    result is the rows the tasks returned, in the order they finished,
    after the rows already there, so there are no more new rows than
    tasks; the first task that raised ends the loop with its error,
    whatever the tasks after it did. *)
Theorem collect_results_rows (done : list (outcome (option row))) (results : list row) :
  (Forall (fun o => is_ok o = true) done ->
   collect_results done results = Ok (results ++ rows_of done)
   /\ (length (rows_of done) <= length done)%nat)
  /\ (forall pre post e,
        done = pre ++ Raise e :: post -> Forall (fun o => is_ok o = true) pre ->
        collect_results done results = Raise e)
  /\ (is_ok (collect_results done results) = true <->
      Forall (fun o => is_ok o = true) done).
Proof.
  split; [|split].
  - intros Hall. split; [by apply collect_results_ok|].
    apply rows_of_length.
  - intros pre post e -> Hpre. by apply collect_results_raise.
  - split.
    + revert results. induction done as [|o done IH]; intros results; [done|].
      simpl. destruct o as [[r|]|e]; [| |done]; intros H; constructor; eauto.
    + intros Hall. by rewrite collect_results_ok.
Qed.
